(** * grok2api: token reservation, retry orchestration and usage cooldown

    A shallow embedding of the request path of the gateway:

    - [app/services/grok/usage.py]: the quota query and its process-wide
      cooldown breaker;
    - [app/services/grok/chat.py]: message extraction, the OpenAI entry
      [chat_openai], the retry loop of [ChatService.completions] and the
      stream wrapper that settles a reservation;
    - the token pool, the token manager and the protocol translator, which
      the request path drives through their interfaces;
    - [app/services/grok/headers.py] and [app/services/grok/assets.py]: the
      request headers, the upload, the guarded fetch of a remote resource,
      the listing of assets and the local cache with its cleanup;
    - [app/api/v1/admin/websocket.py], [app/core/auth.py],
      [app/api/v1/files.py] and [app/core/response_middleware.py]: the image
      stream of the admin console, the login rate limit, the names of
      cached files and the automatic ban of clients.

    Python's exceptions are values of [exn]; an effectful function is a
    state transformer over an explicit world that returns either a value or
    a raised exception.  Wall-clock times ([time.time()], a float counting
    seconds) and sleep delays are rationals.  A string holds the UTF-8
    encoding of a Python [str]. *)

From Stdlib Require Import QArith Qminmax ZArith String Ascii List Bool Lia Lqa.
From Stdlib Require Import DecimalString.
From stdpp Require Import gmap strings list sorting.

Open Scope string_scope.
Open Scope Z_scope.

(** ** Exceptions and results *)

(** The exception classes the request path distinguishes.  The module
    [app.core.exceptions] has [AppException] as the base class of
    [UpstreamException] and [ValidationException]; [details] of an upstream
    exception is read only through [details.get("status")], kept here as
    [status] ([None]: no integer status, as for a connection failure whose
    details hold only the key [error]).  [CancelledError] and
    [GeneratorExit] derive from [BaseException] only, so [except Exception]
    does not catch them. *)
Inductive exn : Type :=
| UpstreamException (message : string) (status : option Z)
| ValidationException (message : string)
| AppException (message : string) (code : string) (status_code : Z)
| ValueError (message : string)
| OtherException (name : string)
| CancelledError
| GeneratorExit.

Definition is_Exception (e : exn) : bool :=
  match e with
  | CancelledError | GeneratorExit => false
  | _ => true
  end.

Definition is_AppException (e : exn) : bool :=
  match e with
  | UpstreamException _ _ | ValidationException _ | AppException _ _ _ => true
  | _ => false
  end.

(** [str(e)] of an exception is its message. *)
Definition str_exn (e : exn) : string :=
  match e with
  | UpstreamException m _ | ValidationException m | AppException m _ _
  | ValueError m | OtherException m => m
  | CancelledError | GeneratorExit => EmptyString
  end.

Inductive result (A : Type) : Type :=
| Return (a : A)
| Raise (e : exn).
Arguments Return {A} a.
Arguments Raise {A} e.

(** An effectful computation over a world [W]. *)
Definition Eff (W A : Type) : Type := W -> result A * W.

Definition eff_ret {W A} (a : A) : Eff W A := fun w => (Return a, w).

Definition eff_raise {W A} (e : exn) : Eff W A := fun w => (Raise e, w).

Definition eff_bind {W A B} (c : Eff W A) (k : A -> Eff W B) : Eff W B :=
  fun w =>
    match c w with
    | (Return a, w') => k a w'
    | (Raise e, w') => (Raise e, w')
    end.

Notation "'let*' x ':=' c 'in' k" := (eff_bind c (fun x => k))
  (at level 10, x pattern, c at level 100, k at level 200).
Notation "c ';;;' k" := (eff_bind c (fun _ => k))
  (at level 100, k at level 200, right associativity).

(** [try: body / except Exception: pass]. *)
Definition swallow {W A} (body : Eff W A) : Eff W unit :=
  fun w =>
    match body w with
    | (Return _, w') => (Return tt, w')
    | (Raise e, w') => if is_Exception e then (Return tt, w') else (Raise e, w')
    end.

(** [try: body / finally: final]: [final] runs on every exit of [body]; an
    exception leaving [final] replaces the pending outcome. *)
Definition try_finally {W A} (body : Eff W A) (final : Eff W unit) : Eff W A :=
  fun w =>
    match body w with
    | (r, w') =>
        match final w' with
        | (Return _, w'') => (r, w'')
        | (Raise e, w'') => (Raise e, w'')
        end
    end.

(** Decimal rendering of an integer inside an f-string. *)
Definition str_Z (z : Z) : string := NilZero.string_of_int (Z.to_int z).

Definition str_nat (n : nat) : string := NilEmpty.string_of_uint (Nat.to_uint n).

(** ** app/services/grok/usage.py *)

(** A raw configuration value as [get_config] hands it to [int(...)]: absent
    (the default applies), integral, or something [int] rejects. *)
Inductive config_value : Type :=
| CfgUnset
| CfgInt (z : Z)
| CfgNotInt.

(** The rate-limit payload: a JSON object with integer fields, [{}] being
    the empty list. *)
Definition usage_data : Type := list (string * Z).

(** What one round trip to the rate-limits endpoint yields, and how long it
    took: a response with its status and body ([None]: the body is not
    JSON), or a transport failure. *)
Inductive http_reply : Type :=
| HttpResponse (status_code : Z) (json : option usage_data) (elapsed : Q)
| HttpFailure (error : string) (elapsed : Q).

Module usage.

Definition DEFAULT_SYNC_BACKOFF_SECONDS : Z := 600.

(** The module-level state of usage.py together with what it reads from
    its environment: the wall clock, the configured back-off, and the
    number of requests posted so far. *)
Record world : Type := mk_world {
  clock : Q;
  _USAGE_SYNC_COOLDOWN_UNTIL : Q;
  usage_sync_backoff_seconds : config_value;
  posted : nat
}.

Definition _get_sync_backoff_seconds (cfg : config_value) : Z :=
  let value :=
    match cfg with
    | CfgUnset => DEFAULT_SYNC_BACKOFF_SECONDS
    | CfgInt z => z
    | CfgNotInt => DEFAULT_SYNC_BACKOFF_SECONDS
    end in
  Z.max 0 value.

Definition _get_sync_cooldown_remaining (cooldown_until now : Q) : Q :=
  Qmax 0 (cooldown_until - now).

(** The stored deadline after [_arm_sync_cooldown(status_code)] run at
    time [now]. *)
Definition _arm_sync_cooldown (status_code : Z) (cfg : config_value)
    (now cooldown_until : Q) : Q :=
  if negb (status_code =? 404) then cooldown_until
  else
    let ttl := _get_sync_backoff_seconds cfg in
    if ttl <=? 0 then cooldown_until
    else
      let new_until := (now + inject_Z ttl)%Q in
      if Qle_bool new_until cooldown_until then cooldown_until
      else new_until.

Definition arm (status_code : Z) (w : world) : world :=
  mk_world (clock w)
    (_arm_sync_cooldown status_code (usage_sync_backoff_seconds w)
       (clock w) (_USAGE_SYNC_COOLDOWN_UNTIL w))
    (usage_sync_backoff_seconds w) (posted w).

(** [session.post] returned or failed after [elapsed] seconds. *)
Definition after_post (elapsed : Q) (w : world) : world :=
  mk_world (clock w + elapsed)%Q (_USAGE_SYNC_COOLDOWN_UNTIL w)
    (usage_sync_backoff_seconds w) (S (posted w)).

Definition extract_status (e : exn) : option Z :=
  match e with
  | UpstreamException _ status => status
  | _ => None
  end.

(** Time passing while nothing else happens, as in [asyncio.sleep]. *)
Definition sleep (delay : Q) (w : world) : world :=
  mk_world (clock w + delay)%Q (_USAGE_SYNC_COOLDOWN_UNTIL w)
    (usage_sync_backoff_seconds w) (posted w).

(** What a retry helper does with a request function [f], started in
    [w]: it runs [f]; it may stop there and hand on what that run
    yielded; or, when the run raised, it may let some time pass and start
    over.  Which statuses it retries, how often and after which delay is
    left open. *)
Inductive retries {A : Type} (f : Eff world A) : world -> result A * world -> Prop :=
| retries_last (w : world) : retries f w (f w)
| retries_again (w w1 : world) (e : exn) (delay : Q) (out : result A * world) :
    f w = (Raise e, w1) ->
    retries f (sleep delay w1) out ->
    retries f w out.

Section UsageService.

(** The network: the reply to the [n]-th request posted with this token
    and model name. *)
Variable post : nat -> string -> string -> http_reply.

(** [retry_on_status] of app/services/grok/retry.py, which re-runs a
    request function according to the status it extracts.  The module is
    not part of the sources at hand: the helper is a parameter, and what
    is proved of the default path of [get] assumes of it that it is a
    retry helper in the sense of [retries]. *)
Variable retry_on_status :
  Eff world usage_data -> (exn -> option Z) -> Eff world usage_data.

(** The inner [do_request] of [get].  Anything raised on the way that is
    not an [UpstreamException] (a failed post, a body that is not JSON) is
    wrapped into one whose details hold only the key [error]. *)
Definition do_request (token model_name : string) : Eff world usage_data :=
  fun w =>
    match post (posted w) token model_name with
    | HttpFailure error elapsed =>
        (Raise (UpstreamException ("Usage service error: " ++ error) None),
         after_post elapsed w)
    | HttpResponse status_code json elapsed =>
        let w1 := after_post elapsed w in
        if status_code =? 200 then
          match json with
          | Some data => (Return data, w1)
          | None =>
              (Raise (UpstreamException
                        "Usage service error: response is not JSON" None), w1)
          end
        else
          let w2 := if status_code =? 404 then arm status_code w1 else w1 in
          (Raise (UpstreamException
                    ("Failed to get usage stats: " ++ str_Z status_code)
                    (Some status_code)), w2)
    end.

(** [UsageService.get]; the semaphore bounds concurrency only and has
    no part in a sequential run. *)
Definition get (token model_name : string) (retry : bool)
  : Eff world usage_data :=
  fun w =>
    let remaining :=
      _get_sync_cooldown_remaining (_USAGE_SYNC_COOLDOWN_UNTIL w) (clock w) in
    if negb (Qle_bool remaining 0) then (Return [], w)
    else if negb retry then do_request token model_name w
    else retry_on_status (do_request token model_name) extract_status w.

End UsageService.

(** The deadline after a run of arming attempts, each committing under
    the cooldown lock in the order given: [(status, time)] pairs. *)
Definition arm_all (cfg : config_value) (attempts : list (Z * Q))
    (cooldown_until : Q) : Q :=
  fold_left (fun cur a => _arm_sync_cooldown (fst a) cfg (snd a) cur)
    attempts cooldown_until.

End usage.

(** ** app/services/grok/chat.py: requests and message extraction *)

(** One part of a list-valued message content, with the fields the
    extractor reads already looked up: [image_url.url], [input_audio.data],
    and for a file its [url] and [data].  These are the parts of the
    OpenAI schema: each part is an object, the [text] of a text part is a
    string, and the [file] of a file part is an object.  Outside that
    schema (a part that is no object, a [text] that is no string, a [file]
    that is a string) the code raises an [AttributeError], which no value
    of this type stands for. *)
Inductive content_item : Type :=
| ItemText (text : string)
| ItemImageUrl (url : string)
| ItemInputAudio (data : string)
| ItemFile (url data : string)
| ItemOther (type : string).

Inductive message_content : Type :=
| ContentStr (s : string)
| ContentList (items : list content_item)
| ContentOther.

Record message : Type := mk_message {
  role : string;
  content : message_content
}.

Record ChatRequest : Type := mk_ChatRequest {
  model : string;
  messages : list message;
  stream : option bool;
  think : option bool
}.

(** A row of the model table ([ModelService.get]). *)
Record ModelInfo : Type := mk_ModelInfo {
  grok_model : string;
  model_mode : string;
  is_video : bool
}.

Definition LF : string := String (ascii_of_nat 10) EmptyString.

(** Python's [str.isspace] on the ASCII range. *)
Definition is_space (c : ascii) : bool :=
  let n := nat_of_ascii c in
  ((9 <=? n) && (n <=? 13) || (28 <=? n) && (n <=? 32))%nat.

(** A byte of a given value, and of a given range. *)
Definition byte_is (n : N) (c : ascii) : bool := N.eqb (N_of_ascii c) n.

Definition byte_in (lo hi : N) (c : ascii) : bool :=
  (N.leb lo (N_of_ascii c) && N.leb (N_of_ascii c) hi)%bool.

(** [not s.strip()]: every character of [s] is white space.  A string
    holds the UTF-8 encoding of a Python [str]; the white space of
    [str.isspace] is the ASCII range above and U+0085, U+00A0, U+1680,
    U+2000 to U+200A, U+2028, U+2029, U+202F, U+205F and U+3000. *)
Fixpoint blank (s : string) : bool :=
  match s with
  | EmptyString => true
  | String c rest =>
      if is_space c then blank rest
      else
        match rest with
        | String d rest1 =>
            if byte_is 194 c then
              (byte_is 133 d || byte_is 160 d) && blank rest1
            else
              match rest1 with
              | String e rest2 =>
                  (byte_is 225 c && byte_is 154 d && byte_is 128 e
                   || byte_is 226 c && byte_is 128 d
                      && (byte_in 128 138 e || byte_in 168 169 e || byte_is 175 e)
                   || byte_is 226 c && byte_is 129 d && byte_is 159 e
                   || byte_is 227 c && byte_is 128 d && byte_is 128 e)
                  && blank rest2
              | EmptyString => false
              end
        | EmptyString => false
        end
  end.

(** Truth value of [s.strip()]: some character is not white space. *)
Definition strip_nonempty (s : string) : bool := negb (blank s).

(** Truth value of a string. *)
Definition truthy (s : string) : bool :=
  match s with
  | EmptyString => false
  | String _ _ => true
  end.

(** [total = 3; for msg: total += 4 + tokens of the text parts], with
    [enc_len s] standing for [len(_enc.encode(s))], on texts the encoder
    takes: a text that holds one of its special tokens makes [encode]
    raise a [ValueError], which is not modelled. *)
Definition _count_prompt_tokens (enc_len : string -> nat) (msgs : list message)
  : nat :=
  fold_left
    (fun total msg =>
       (total + 4 +
        match content msg with
        | ContentStr s => if truthy s then enc_len s else 0
        | ContentList items =>
            fold_left
              (fun acc item =>
                 match item with
                 | ItemText text => if truthy text then acc + enc_len text else acc
                 | _ => acc
                 end) items 0
        | ContentOther => 0
        end)%nat)
    msgs 3%nat.

Module MessageExtractor.

(** The inner loop over the items of one message: the text parts and the
    attachments gathered so far, or the [ValueError] raised on the way. *)
Fixpoint extract_items (is_video : bool) (items : list content_item)
    (parts : list string) (attachments : list (string * string))
  : exn + (list string * list (string * string)) :=
  match items with
  | [] => inr (parts, attachments)
  | item :: rest =>
      match item with
      | ItemText text =>
          extract_items is_video rest
            (if strip_nonempty text then parts ++ [text] else parts) attachments
      | ItemImageUrl url =>
          extract_items is_video rest parts
            (if truthy url then attachments ++ [("image", url)] else attachments)
      | ItemInputAudio data =>
          if is_video then inl (ValueError "视频模型不支持 input_audio 类型")
          else
            extract_items is_video rest parts
              (if truthy data then attachments ++ [("audio", data)] else attachments)
      | ItemFile url data =>
          if is_video then inl (ValueError "视频模型不支持 file 类型")
          else
            let url := if truthy url then url else data in
            extract_items is_video rest parts
              (if truthy url then attachments ++ [("file", url)] else attachments)
      | ItemOther _ => extract_items is_video rest parts attachments
      end
  end.

(** The loop over the messages: [(role, text)] pairs and attachments. *)
Fixpoint extract_messages (is_video : bool) (msgs : list message)
    (extracted : list (string * string)) (attachments : list (string * string))
  : exn + (list (string * string) * list (string * string)) :=
  match msgs with
  | [] => inr (extracted, attachments)
  | msg :: rest =>
      let gathered :=
        match content msg with
        | ContentStr s =>
            inr (if strip_nonempty s then [s] else [], attachments)
        | ContentList items => extract_items is_video items [] attachments
        | ContentOther => inr ([], attachments)
        end in
      match gathered with
      | inl e => inl e
      | inr (parts, attachments') =>
          extract_messages is_video rest
            (match parts with
             | [] => extracted
             | _ :: _ => extracted ++ [(role msg, String.concat LF parts)]
             end)
            attachments'
      end
  end.

(** The index of the last extracted entry whose role is [user]. *)
Definition last_user_index (extracted : list (string * string)) : option nat :=
  fst (fold_left
         (fun '(found, i) entry =>
            (if String.eqb (fst entry) "user" then Some i else found, S i))
         extracted (None, 0%nat)).

Definition extract (msgs : list message) (is_video : bool)
  : exn + (string * list (string * string)) :=
  match extract_messages is_video msgs [] [] with
  | inl e => inl e
  | inr (extracted, attachments) =>
      let last := last_user_index extracted in
      let texts :=
        imap (fun i '(r, text) =>
                if bool_decide (Some i = last) then text
                else (if truthy r then r else "user") ++ ": " ++ text)
             extracted in
      inr (String.concat (LF ++ LF) texts, attachments)
  end.

End MessageExtractor.

(** ** app/services/grok/chat.py: the collaborators of a completion *)

(** The token manager as the orchestrator uses it ([app.services.token]),
    over its state [M] and its reservation ids [RID].  A reservation either
    yields a token with its id or [(None, None)]; [release] and
    [sync_usage] may raise, and [record_fail] never does. *)
Record TokenManagerAPI (M RID : Type) : Type := mk_TokenManagerAPI {
  reserve_token_for_model : string -> gset string -> M -> option (string * RID) * M;
  release_token_reservation : string -> RID -> Eff M bool;
  record_fail : string -> Z -> string -> M -> M;
  sync_usage : string -> string -> bool -> bool -> Eff M bool
}.
Arguments reserve_token_for_model {M RID} _ _ _ _.
Arguments release_token_reservation {M RID} _ _ _ _.
Arguments record_fail {M RID} _ _ _ _ _.
Arguments sync_usage {M RID} _ _ _ _ _ _.

(** What [session.post] to the chat endpoint yields: a failure to connect,
    or a response with its status and its stream of lines. *)
Inductive chat_reply (Response : Type) : Type :=
| ChatFailure (error : string)
| ChatResponse (status_code : Z) (body : Response).
Arguments ChatFailure {Response} error.
Arguments ChatResponse {Response} status_code body.

(** How the caller drains a stream: to its end, or throwing [e] into the
    generator while it is suspended at the yield of chunk [n] (closing it
    raises [GeneratorExit] there, cancelling the task [CancelledError]). *)
Inductive consumer : Type :=
| ReadAll
| ThrowAt (n : nat) (e : exn).

(** Calls the orchestrator makes, in order. *)
Inductive event (RID Chunk : Type) : Type :=
| EvReserve (model : string) (exclude : gset string) (got : option (string * RID))
| EvUpstream (token : string)
| EvRelease (token : string) (reservation_id : RID)
| EvRecordFail (token : string) (status : Z) (reason : string)
| EvSleep (delay : Q)
| EvRecordRequest (model : string) (success : bool)
| EvSyncUsage (token model : string) (consume_on_fail is_usage : bool)
| EvYield (chunk : Chunk).
Arguments EvReserve {RID Chunk} model exclude got.
Arguments EvUpstream {RID Chunk} token.
Arguments EvRelease {RID Chunk} token reservation_id.
Arguments EvRecordFail {RID Chunk} token status reason.
Arguments EvSleep {RID Chunk} delay.
Arguments EvRecordRequest {RID Chunk} model success.
Arguments EvSyncUsage {RID Chunk} token model consume_on_fail is_usage.
Arguments EvYield {RID Chunk} chunk.

(** The state a completion runs in: the manager, the request statistics,
    the calls made so far and the number of chat requests posted. *)
Record world (M T RID Chunk : Type) : Type := mk_chat_world {
  mgr : M;
  stats : T;
  log : list (event RID Chunk);
  upstream_calls : nat
}.
Arguments mk_chat_world {M T RID Chunk} mgr stats log upstream_calls.
Arguments mgr {M T RID Chunk} w.
Arguments stats {M T RID Chunk} w.
Arguments log {M T RID Chunk} w.
Arguments upstream_calls {M T RID Chunk} w.

(** Everything [chat.py] imports or reads from its environment. *)
Record collaborators (M T RID Response Chunk Aggregate : Type) : Type :=
  mk_collaborators {
  token_mgr : TokenManagerAPI M RID;
  record_request : string -> bool -> Eff T unit;
  ModelService_get : string -> option ModelInfo;
  upload : string -> string -> result string;
  post : nat -> string -> chat_reply Response;
  get_max_retry : Z;
  grok_stream : bool;
  grok_thinking : bool;
  enc_len : string -> nat;
  StreamProcessor_process :
    string -> string -> option bool -> nat -> Response -> list Chunk * option exn;
  CollectProcessor_process : string -> string -> nat -> Response -> result Aggregate
}.
Arguments token_mgr {M T RID Response Chunk Aggregate} c.
Arguments record_request {M T RID Response Chunk Aggregate} c _ _ _.
Arguments ModelService_get {M T RID Response Chunk Aggregate} c _.
Arguments upload {M T RID Response Chunk Aggregate} c _ _.
Arguments post {M T RID Response Chunk Aggregate} c _ _.
Arguments get_max_retry {M T RID Response Chunk Aggregate} c.
Arguments grok_stream {M T RID Response Chunk Aggregate} c.
Arguments grok_thinking {M T RID Response Chunk Aggregate} c.
Arguments enc_len {M T RID Response Chunk Aggregate} c _.
Arguments StreamProcessor_process {M T RID Response Chunk Aggregate} c _ _ _ _ _.
Arguments CollectProcessor_process {M T RID Response Chunk Aggregate} c _ _ _ _.

(** The variables of [completions] that outlive its retry loop. *)
Record loop_vars (RID Response : Type) : Type := mk_loop_vars {
  token : option string;
  reservation_id : option RID;
  last_error : option exn;
  response : option (Response * string)
}.
Arguments mk_loop_vars {RID Response} token reservation_id last_error response.
Arguments token {RID Response} l.
Arguments reservation_id {RID Response} l.
Arguments last_error {RID Response} l.
Arguments response {RID Response} l.

(** What [completions] returns: the suspended generator [_wrapped_stream]
    with the variables it closes over, or the collected object. *)
Inductive completion (RID Chunk Aggregate : Type) : Type :=
| Streaming (processor : list Chunk * option exn) (token : string)
    (reservation_id : RID) (model_name : string)
| Collected (result : Aggregate).
Arguments Streaming {RID Chunk Aggregate} processor token reservation_id model_name.
Arguments Collected {RID Chunk Aggregate} result.

(** [range(n)]. *)
Definition py_range (n : Z) : list Z := map Z.of_nat (seq 0 (Z.to_nat n)).

Section Orchestrator.

Context {M T RID Response Chunk Aggregate : Type}.
Variable D : collaborators M T RID Response Chunk Aggregate.

Local Abbreviation W := (world M T RID Chunk).

Definition emit (ev : event RID Chunk) (w : W) : W :=
  mk_chat_world (mgr w) (stats w) (log w ++ [ev]) (upstream_calls w).

(** A call on the token manager that may raise. *)
Definition on_mgr {A} (c : Eff M A) : Eff W A :=
  fun w =>
    let '(r, m) := c (mgr w) in
    (r, mk_chat_world m (stats w) (log w) (upstream_calls w)).

Definition on_stats {A} (c : Eff T A) : Eff W A :=
  fun w =>
    let '(r, s) := c (stats w) in
    (r, mk_chat_world (mgr w) s (log w) (upstream_calls w)).

Definition do_reserve (model : string) (exclude : gset string)
  : Eff W (option (string * RID)) :=
  fun w =>
    let '(got, m) := reserve_token_for_model (token_mgr D) model exclude (mgr w) in
    (Return got,
     mk_chat_world m (stats w) (log w ++ [EvReserve model exclude got])
       (upstream_calls w)).

Definition do_release (token : string) (rid : RID) : Eff W bool :=
  fun w =>
    on_mgr (release_token_reservation (token_mgr D) token rid)
      (emit (EvRelease token rid) w).

Definition do_record_fail (token : string) (status : Z) (reason : string)
  : Eff W unit :=
  fun w =>
    (Return tt,
     mk_chat_world (record_fail (token_mgr D) token status reason (mgr w))
       (stats w) (log w ++ [EvRecordFail token status reason])
       (upstream_calls w)).

Definition do_sync_usage (token model_name : string)
    (consume_on_fail is_usage : bool) : Eff W bool :=
  fun w =>
    on_mgr (sync_usage (token_mgr D) token model_name consume_on_fail is_usage)
      (emit (EvSyncUsage token model_name consume_on_fail is_usage) w).

Definition do_record_request (model : string) (success : bool) : Eff W unit :=
  fun w =>
    on_stats (record_request D model success)
      (emit (EvRecordRequest model success) w).

(** [asyncio.sleep(delay)]. *)
Definition sleep (delay : Q) : Eff W unit :=
  fun w => (Return tt, emit (EvSleep delay) w).

(** [GrokChatService.chat]: post the request; a status other than 200
    and a failure to connect both raise [UpstreamException], the former
    with [details = {"status": ...}], the latter with
    [details = {"error": ...}].  The post runs to an answer or to a
    failure: a cancellation of the task while it waits is not
    modelled. *)
Definition chat (token : string) : Eff W Response :=
  fun w =>
    let w1 :=
      mk_chat_world (mgr w) (stats w) (log w ++ [EvUpstream token])
        (S (upstream_calls w)) in
    match post D (upstream_calls w) token with
    | ChatFailure error =>
        (Raise (UpstreamException ("Chat connection failed: " ++ error) None), w1)
    | ChatResponse status_code body =>
        if negb (status_code =? 200) then
          (Raise (UpstreamException
                    ("Grok API request failed: " ++ str_Z status_code)
                    (Some status_code)), w1)
        else (Return body, w1)
    end.

(** The upload loop of [chat_openai]: the ids of the uploaded images and
    files, or the first exception an upload raises.  The uploads are
    requests of their own; they leave no event in the log, which holds
    the chat post only. *)
Fixpoint upload_all (token : string) (attachments : list (string * string))
    (file_ids image_ids : list string) : result (list string * list string) :=
  match attachments with
  | [] => Return (file_ids, image_ids)
  | (attach_type, attach_data) :: rest =>
      match upload D attach_data token with
      | Raise e => Raise e
      | Return file_id =>
          if String.eqb attach_type "image"
          then upload_all token rest file_ids (image_ids ++ [file_id])
          else upload_all token rest (file_ids ++ [file_id]) image_ids
      end
  end.

(** [GrokChatService.chat_openai]. *)
Definition chat_openai (token : string) (request : ChatRequest)
  : Eff W (Response * bool * string) :=
  match ModelService_get D (model request) with
  | None => eff_raise (ValidationException ("Unknown model: " ++ model request))
  | Some model_info =>
      match MessageExtractor.extract (messages request) (is_video model_info) with
      | inl (ValueError e) => eff_raise (ValidationException e)
      | inl e => eff_raise e
      | inr (_, attachments) =>
          match upload_all token attachments [] [] with
          | Raise e => eff_raise e
          | Return _ =>
              let stream :=
                match stream request with
                | Some b => b
                | None => grok_stream D
                end in
              let* response := chat token in
              eff_ret (response, stream, model request)
          end
      end
  end.

(** The body of [for attempt in range(max_retry + 1)], iterated over the
    attempts still to come.  It ends with the loop variables on [break]
    and when the range is used up, and with [Raise] when an exception
    leaves the loop. *)
Fixpoint attempts (range : list Z) (model : string) (request : ChatRequest)
    (excluded_tokens : gset string) (vars : loop_vars RID Response)
  : Eff W (loop_vars RID Response) :=
  match range with
  | [] => eff_ret vars
  | attempt :: rest =>
      let* got := do_reserve model excluded_tokens in
      match got with
      | None => eff_ret (mk_loop_vars None None (last_error vars) (response vars))
      | Some (token, reservation_id) =>
          if negb (truthy token) then
            eff_ret (mk_loop_vars (Some token) (Some reservation_id)
                       (last_error vars) (response vars))
          else
            fun w =>
              match chat_openai token request w with
              | (Return (response, _, model_name), w') =>
                  (Return (mk_loop_vars (Some token) (Some reservation_id) None
                             (Some (response, model_name))), w')
              | (Raise (UpstreamException message status as e), w') =>
                  (swallow (do_release token reservation_id) ;;;
                   do_record_fail token
                     (match status with Some s => s | None => 0 end)
                     (str_exn e) ;;;
                   if match status with
                      | Some s => negb (s =? 200) && (attempt <? get_max_retry D)
                      | None => false
                      end
                   then
                     let delay := ((1 # 2) * inject_Z (attempt + 1))%Q in
                     sleep delay ;;;
                     attempts rest model request ({[token]} ∪ excluded_tokens)
                       (mk_loop_vars (Some token) (Some reservation_id) (Some e)
                          (response vars))
                   else eff_raise e) w'
              | (Raise e, w') =>
                  if is_AppException e then
                    (swallow (do_release token reservation_id) ;;;
                     swallow (do_record_request model false) ;;;
                     eff_raise e) w'
                  else (Raise e, w')
              end
      end
  end.

(** The generator body [async for chunk in processor: yield chunk]: it
    returns when the processor is exhausted, and raises what the
    processor raises or what the consumer throws in at a yield. *)
Fixpoint drain (chunks : list Chunk) (ending : option exn) (c : consumer)
    (i : nat) : Eff W unit :=
  match chunks with
  | [] =>
      match ending with
      | None => eff_ret tt
      | Some e => eff_raise e
      end
  | chunk :: rest =>
      fun w =>
        let w' := emit (EvYield chunk) w in
        match c with
        | ThrowAt n e =>
            if Nat.eqb n i then (Raise e, w') else drain rest ending c (S i) w'
        | ReadAll => drain rest ending c (S i) w'
        end
  end.

(** The [finally] block of [_wrapped_stream]. *)
Definition settle (completed : bool) (token : string) (reservation_id : RID)
    (model_name : string) : Eff W unit :=
  try_finally
    (swallow
       (if completed then
          do_sync_usage token model_name true true ;;;
          do_record_request model_name true
        else do_record_request model_name false))
    (swallow (do_release token reservation_id)).

(** [_wrapped_stream], run against a consumer from its first [anext]. *)
Definition _wrapped_stream (processor : list Chunk * option exn)
    (token : string) (reservation_id : RID) (model_name : string)
    (c : consumer) : Eff W unit :=
  fun w =>
    let '(r, w') := drain (fst processor) (snd processor) c 0%nat w in
    let completed := match r with Return _ => true | Raise _ => false end in
    try_finally (fun w0 => (r, w0)) (settle completed token reservation_id model_name) w'.

(** [ChatService.completions]. *)
Definition completions (model : string) (messages : list message)
    (stream : option bool) (thinking : option string)
  : Eff W (completion RID Chunk Aggregate) :=
  let think :=
    match thinking with
    | Some t =>
        if String.eqb t "enabled" then Some true
        else if String.eqb t "disabled" then Some false
        else None
    | None => None
    end in
  let is_stream := match stream with Some b => b | None => grok_stream D end in
  let chat_request := mk_ChatRequest model messages (Some is_stream) think in
  let max_retry := get_max_retry D in
  let* vars :=
    attempts (py_range (max_retry + 1)) model chat_request ∅
      (mk_loop_vars None None None None) in
  match token vars with
  | None =>
      swallow (do_record_request model false) ;;;
      eff_raise (AppException "No available tokens. Please try again later."
                   "rate_limit_exceeded" 429)
  | Some token =>
      match last_error vars with
      | Some e => swallow (do_record_request model false) ;;; eff_raise e
      | None =>
          let prompt_tokens := _count_prompt_tokens (enc_len D) messages in
          match response vars, reservation_id vars with
          | Some (response, model_name), Some reservation_id =>
              if is_stream then
                eff_ret (Streaming
                           (StreamProcessor_process D model_name token think
                              prompt_tokens response)
                           token reservation_id model_name)
              else
                try_finally
                  (let* result :=
                     (fun w =>
                        (CollectProcessor_process D model_name token
                           prompt_tokens response, w)) in
                   swallow
                     (do_sync_usage token model_name true true ;;;
                      do_record_request model_name true) ;;;
                   eff_ret (Collected result))
                  (swallow (do_release token reservation_id))
          | _, _ => eff_raise (OtherException "UnboundLocalError")
          end
      end
  end.

End Orchestrator.

(** ** tests/test_chat_retry_on_non_200.py: the manager double *)

Module _DummyTokenManager.

Record state : Type := mk_state {
  select_calls : list (string * list string);
  release_calls : list (string * string);
  fail_calls : list (string * Z * string)
}.

Definition init : state := mk_state [] [] [].

Definition tokens : list string :=
  ["token-a-long-1234567890"; "token-b-long-0987654321"].

(** [tuple(sorted(exclude or set()))]. *)
Definition sorted (exclude : gset string) : list string :=
  merge_sort (fun a b : string => Is_true (String.leb a b)) (elements exclude).

Definition reserve_token_for_model (model : string) (exclude : gset string)
    (st : state) : option (string * string) * state :=
  let excluded := sorted exclude in
  let calls := (select_calls st ++ [(model, excluded)])%list in
  let req_id := "req-" ++ str_nat (length calls) in
  let st' := mk_state calls (release_calls st) (fail_calls st) in
  match List.find (fun token => negb (bool_decide (token ∈ excluded))) tokens with
  | Some token => (Some (token, req_id), st')
  | None => (None, st')
  end.

Definition release_token_reservation (token request_id : string)
  : Eff state bool :=
  fun st =>
    (Return true,
     mk_state (select_calls st) (release_calls st ++ [(token, request_id)])
       (fail_calls st)).

Definition record_fail (token : string) (status : Z) (reason : string)
    (st : state) : state :=
  mk_state (select_calls st) (release_calls st)
    (fail_calls st ++ [(token, status, reason)]).

Definition sync_usage (token model : string) (consume_on_fail is_usage : bool)
  : Eff state bool :=
  fun st => (Return true, st).

Definition manager : TokenManagerAPI state string :=
  mk_TokenManagerAPI state string reserve_token_for_model
    release_token_reservation record_fail sync_usage.

End _DummyTokenManager.

(** ** The token pool and the token manager *)

Module TokenPool.

Inductive TokenStatus : Type := ACTIVE | COOLING | EXPIRED | DISABLED.

(** Modelled from the spec: the token record of app/services/token, which
    is not part of the sources.  A quota below zero is the unlimited
    sentinel; [inflight_until] is a timestamp, [0] when the record is not
    reserved. *)
Record TokenRecord : Type := mk_TokenRecord {
  token : string;
  status : TokenStatus;
  quota : Z;
  heavy_quota : Z;
  use_count : Z;
  fail_count : Z;
  inflight_until : Z;
  inflight_reservation_id : option nat;
  note : string
}.

(** A pool: its records in insertion order, keys unique by token. *)
Abbreviation TokenPool := (list TokenRecord).

Definition is_ACTIVE (s : TokenStatus) : bool :=
  match s with
  | ACTIVE => true
  | _ => false
  end.

(** Modelled from the spec: [add(record)] of the absent pool, which
    inserts a record or replaces the one with the same token string, in
    place. *)
Fixpoint add (record : TokenRecord) (pool : TokenPool) : TokenPool :=
  match pool with
  | [] => [record]
  | r :: rest =>
      if String.eqb (token r) (token record) then record :: rest
      else r :: add record rest
  end.

(** Modelled from the spec: what [select] of the absent pool asks of a
    record: ACTIVE, not excluded, [inflight_until <= now], and a quota that
    is unlimited or positive. *)
Definition eligible (exclude : gset string) (now : Z) (r : TokenRecord) : bool :=
  is_ACTIVE (status r)
  && negb (bool_decide (token r ∈ exclude))
  && (inflight_until r <=? now)
  && ((quota r <? 0) || (0 <? quota r)).

(** Modelled from the spec: [select(exclude)] of the absent pool at time
    [now], the first eligible record in iteration order. *)
Fixpoint select (exclude : gset string) (now : Z) (pool : TokenPool)
  : option TokenRecord :=
  match pool with
  | [] => None
  | r :: rest =>
      if eligible exclude now r then Some r else select exclude now rest
  end.

(** In-place mutation of the record stored under a token string. *)
Definition update (tok : string) (f : TokenRecord -> TokenRecord)
    (pool : TokenPool) : TokenPool :=
  (fun r => if String.eqb (token r) tok then f r else r) <$> pool.

Definition set_inflight (until : Z) (rid : option nat) (r : TokenRecord)
  : TokenRecord :=
  mk_TokenRecord (token r) (status r) (quota r) (heavy_quota r) (use_count r)
    (fail_count r) until rid (note r).

End TokenPool.

Module TokenManager.

Import TokenPool.

(** Modelled from the spec: the state of the absent token manager, the
    pools by name and the time of the last reload, with the supply the
    fresh reservation ids are drawn from. *)
Record state : Type := mk_state {
  pools : gmap string TokenPool;
  last_reload : Z;
  next_reservation : nat
}.

(** A quota correction under way: the background task [sync_usage]
    detaches. *)
Record sync_task : Type := mk_sync_task {
  task_token : string;
  task_model : string
}.

Section Manager.

(** The pool a model requires (the model table is not part of the
    sources), whether it draws on the heavy quota, and how long a
    reservation lasts. *)
Variable pool_for_model : string -> string.
Variable draws_heavy : string -> bool.
Variable reservation_ttl : Z.

(** Modelled from the spec: [reserve_token_for_model] of the absent
    manager at time [now].  Selection and stamping are one step, as
    under the pool lock. *)
Definition reserve_token_for_model (now : Z) (model : string)
    (exclude : gset string) (st : state) : option (string * nat) * state :=
  let name := pool_for_model model in
  match pools st !! name with
  | None => (None, st)
  | Some pool =>
      match select exclude now pool with
      | None => (None, st)
      | Some r =>
          let rid := next_reservation st in
          let pool' :=
            update (token r) (set_inflight (now + reservation_ttl) (Some rid))
              pool in
          (Some (token r, rid),
           mk_state (<[name := pool']> (pools st)) (last_reload st)
             (S rid))
      end
  end.

(** A run of reservation calls with no release between them, each with
    its time, its model and its exclude set: what each call returned, in
    order, and the state at the end. *)
Fixpoint reserve_run (calls : list (Z * string * gset string)) (st : state)
  : list (option (string * nat)) * state :=
  match calls with
  | [] => ([], st)
  | (now, model, exclude) :: rest =>
      let '(got, st1) := reserve_token_for_model now model exclude st in
      let '(gots, st2) := reserve_run rest st1 in
      (got :: gots, st2)
  end.

(** A record holds the reservation [rid] of token [tok]. *)
Definition holds (tok : string) (rid : nat) (r : TokenRecord) : bool :=
  String.eqb (token r) tok
  && bool_decide (inflight_reservation_id r = Some rid).

Definition clear (tok : string) (rid : nat) (r : TokenRecord) : TokenRecord :=
  if holds tok rid r then set_inflight 0 None r else r.

(** Modelled from the spec: [release_token_reservation] of the absent
    manager, which clears the inflight fields only where the stored id
    still matches and reports whether it did. *)
Definition release_token_reservation (tok : string) (rid : nat) (st : state)
  : bool * state :=
  (existsb (fun entry => existsb (holds tok rid) (snd entry))
     (map_to_list (pools st)),
   mk_state ((fun pool : TokenPool => clear tok rid <$> pool) <$> pools st)
     (last_reload st)
     (next_reservation st)).

Definition drawn (heavy : bool) (r : TokenRecord) : Z :=
  if heavy then heavy_quota r else quota r.

Definition set_drawn (heavy : bool) (v : Z) (r : TokenRecord) : TokenRecord :=
  if heavy then
    mk_TokenRecord (token r) (status r) (quota r) v (use_count r)
      (fail_count r) (inflight_until r) (inflight_reservation_id r) (note r)
  else
    mk_TokenRecord (token r) (status r) v (heavy_quota r) (use_count r)
      (fail_count r) (inflight_until r) (inflight_reservation_id r) (note r).

Definition set_use_count (v : Z) (r : TokenRecord) : TokenRecord :=
  mk_TokenRecord (token r) (status r) (quota r) (heavy_quota r) v
    (fail_count r) (inflight_until r) (inflight_reservation_id r) (note r).

(** Modelled from the spec: the local estimate of the absent manager, one
    unit off a positive quota; the unlimited sentinel and an exhausted
    quota stay as they are. *)
Definition consume (heavy : bool) (r : TokenRecord) : TokenRecord :=
  if 0 <? drawn heavy r then set_drawn heavy (drawn heavy r - 1) r else r.

(** Modelled from the spec: what the fast path of the absent [sync_usage]
    does to the record: the decrement (none when [consume_on_fail] is
    false, the outcome of the call being unknown to it) and the use
    count. *)
Definition fast_path (model : string) (consume_on_fail is_usage : bool)
    (r : TokenRecord) : TokenRecord :=
  let r1 := if consume_on_fail then consume (draws_heavy model) r else r in
  if is_usage then set_use_count (use_count r1 + 1) r1 else r1.

Definition known (tok : string) (st : state) : bool :=
  existsb (fun entry => existsb (fun r => String.eqb (token r) tok) (snd entry))
    (map_to_list (pools st)).

(** Modelled from the spec: the synchronous fast path of [sync_usage]
    of the absent manager.  It returns at once with the local estimate
    and the detached correction; it takes no answer from upstream. *)
Definition sync_usage (tok model : string) (consume_on_fail is_usage : bool)
    (st : state) : bool * state * option sync_task :=
  if known tok st then
    (true,
     mk_state (update tok (fast_path model consume_on_fail is_usage) <$> pools st)
       (last_reload st) (next_reservation st),
     Some (mk_sync_task tok model))
  else (false, st, None).

Definition remainingTokens (data : usage_data) : option Z :=
  snd <$> List.find (fun kv => String.eqb (fst kv) "remainingTokens") data.

(** Modelled from the spec: the asynchronous slow path, run when the
    quota query of the detached task comes back.  An authoritative
    value overwrites the local quota; a failure, or an answer without
    a value, is logged only. *)
Definition resolve (task : sync_task) (answer : result usage_data) (st : state)
  : state :=
  match answer with
  | Return data =>
      match remainingTokens data with
      | Some remaining =>
          mk_state
            (update (task_token task)
               (set_drawn (draws_heavy (task_model task)) remaining)
               <$> pools st)
            (last_reload st) (next_reservation st)
      | None => st
      end
  | Raise _ => st
  end.

End Manager.

End TokenManager.

(** ** The protocol translator *)

Module processor.

(** Modelled from the spec: one upstream event of the line-delimited
    stream, as the parser of the absent app/services/grok/processor.py
    classifies it: an incremental content token, a thinking token, a
    generated-image reference, the terminal metadata with the final
    message, or a purely structural event such as the model
    fingerprint. *)
Inductive upstream_event : Type :=
| ContentToken (text : string)
| ThinkingToken (text : string)
| GeneratedImage (reference : string)
| TerminalMetadata (message : string)
| Structural (kind : string).

Inductive thinking_mode : Type := MergeThinking | SeparateThinking.

(** The configuration the translator reads: whether thinking is merged
    into the content or kept apart, and how a generated image is put into
    the content (by URL or inlined). *)
Record config : Type := mk_config {
  thinking : thinking_mode;
  image_content : string -> string
}.

(** What one event adds to the response. *)
Inductive piece : Type :=
| Content (text : string)
| Reasoning (text : string)
| Nothing.

(** Modelled from the spec: the event parser shared by both modes of the
    absent processor.  Structural events, tokens without text, and images
    that the configuration renders as no text, add nothing: what the
    parser hands on is never empty. *)
Definition parse (cfg : config) (ev : upstream_event) : piece :=
  match ev with
  | ContentToken text => if truthy text then Content text else Nothing
  | ThinkingToken text =>
      if truthy text then
        match thinking cfg with
        | MergeThinking => Content text
        | SeparateThinking => Reasoning text
        end
      else Nothing
  | GeneratedImage reference =>
      let text := image_content cfg reference in
      if truthy text then Content text else Nothing
  | TerminalMetadata _ => Nothing
  | Structural _ => Nothing
  end.

(** An OpenAI delta chunk. *)
Record chunk : Type := mk_chunk {
  id : string;
  object : string;
  created : Z;
  chunk_model : string;
  delta_role : option string;
  delta_content : option string;
  delta_reasoning_content : option string;
  finish_reason : option string
}.

(** A server-sent event: a chunk as JSON, or a literal payload. *)
Inductive sse : Type :=
| Data (c : chunk)
| Literal (payload : string).

Definition DONE : sse := Literal "[DONE]".

(** The response id: the prefix and a random suffix drawn once. *)
Definition response_id (nonce : string) : string := "chatcmpl-" ++ nonce.

Definition has_content (cfg : config) (events : list upstream_event) : bool :=
  existsb (fun ev => match parse cfg ev with Content _ => true | _ => false end)
    events.

Section Stream.

Variable cfg : config.
Variable rid : string.
Variable model : string.
Variable now : Z.

Definition delta (first : bool) (content reasoning finish : option string)
  : chunk :=
  mk_chunk rid "chat.completion.chunk" now model
    (if first then Some "assistant" else None) content reasoning finish.

(** Modelled from the spec: the chunks of the streaming mode of the
    absent processor, one per event that carries something; the first
    one names the role, and the last one with content the finish
    reason. *)
Fixpoint chunks (first : bool) (events : list upstream_event) : list chunk :=
  match events with
  | [] => []
  | ev :: rest =>
      match parse cfg ev with
      | Content text =>
          delta first (Some text) None
            (if has_content cfg rest then None else Some "stop")
          :: chunks false rest
      | Reasoning text =>
          delta first None (Some text) None :: chunks false rest
      | Nothing => chunks first rest
      end
  end.

End Stream.

(** Modelled from the spec: [StreamProcessor.process] of the absent
    processor: the chunks under one response id, then the terminal
    marker. *)
Definition stream_process (cfg : config) (nonce model : string) (now : Z)
    (events : list upstream_event) : list sse :=
  (Data <$> chunks cfg (response_id nonce) model now true events) ++ [DONE].

(** The aggregate object of the collecting mode. *)
Record aggregate : Type := mk_aggregate {
  agg_id : string;
  agg_object : string;
  agg_created : Z;
  agg_model : string;
  message_content : string;
  reasoning_content : string;
  agg_finish_reason : string;
  prompt_tokens : nat;
  completion_tokens : nat;
  total_tokens : nat
}.

Definition content_of (p : piece) : string :=
  match p with
  | Content text => text
  | _ => EmptyString
  end.

Definition reasoning_of (p : piece) : string :=
  match p with
  | Reasoning text => text
  | _ => EmptyString
  end.

(** Modelled from the spec: [CollectProcessor.process] of the absent
    processor: the same events taken to completion and assembled into one
    object under one response id; [count] is the tokenizer. *)
Definition collect_process (cfg : config) (count : string -> nat)
    (nonce model : string) (now : Z) (prompt : nat)
    (events : list upstream_event) : aggregate :=
  let pieces := parse cfg <$> events in
  let text := String.concat EmptyString (content_of <$> pieces) in
  let used := count text in
  mk_aggregate (response_id nonce) "chat.completion" now model text
    (String.concat EmptyString (reasoning_of <$> pieces)) "stop"
    prompt used (prompt + used).

(** The content deltas of the chunks a stream carries, in order. *)
Definition contents (out : list sse) : list string :=
  omap (fun e => match e with
                 | Data c => delta_content c
                 | Literal _ => None
                 end) out.

(** The texts the parser takes as content from the events, in order. *)
Definition content_tokens (cfg : config) (events : list upstream_event)
  : list string :=
  omap (fun ev => match parse cfg ev with
                  | Content text => Some text
                  | _ => None
                  end) events.

End processor.

(** ** How a stream run ends *)

(** The chunks a consumer receives from a processor, and the exception with
    which the generator body is left ([None]: the processor was exhausted
    and the body ran to its end). *)
Definition delivered {Chunk : Type} (processor : list Chunk * option exn)
    (c : consumer) : list Chunk :=
  match c with
  | ReadAll => fst processor
  | ThrowAt n _ => take (S n) (fst processor)
  end.

Definition stream_exit {Chunk : Type} (processor : list Chunk * option exn)
    (c : consumer) : option exn :=
  match c with
  | ReadAll => snd processor
  | ThrowAt n e =>
      if (n <? length (fst processor))%nat then Some e else snd processor
  end.

Definition returned {A : Type} (r : result A) : bool :=
  match r with
  | Return _ => true
  | Raise _ => false
  end.

(** The collaborators raise errors only: what a call on the manager or on
    the request statistics raises derives from [Exception]. *)
Definition errors_only {M T RID Response Chunk Aggregate : Type}
    (D : collaborators M T RID Response Chunk Aggregate) : Prop :=
  (forall tok rid m e,
      fst (release_token_reservation (token_mgr D) tok rid m) = Raise e ->
      is_Exception e = true)
  /\ (forall tok mdl c u m e,
        fst (sync_usage (token_mgr D) tok mdl c u m) = Raise e ->
        is_Exception e = true)
  /\ (forall mdl ok s e,
        fst (record_request D mdl ok s) = Raise e -> is_Exception e = true).

(** The reservation ids stored in the pools were all drawn from the supply:
    each lies below the next id to be handed out. *)
Definition fresh_supply (st : TokenManager.state) : Prop :=
  forall name pool r rid,
    TokenManager.pools st !! name = Some pool ->
    r ∈ pool ->
    TokenPool.inflight_reservation_id r = Some rid ->
    (rid < TokenManager.next_reservation st)%nat.

(** ** What the orchestrator expects of a request and of a manager *)

(** The message of the [ValidationException] that [chat_openai] raises for
    a request, if it raises one: the model is unknown, or the extractor
    rejects the content for this model. *)
Definition validation_error {M T RID Response Chunk Aggregate : Type}
    (D : collaborators M T RID Response Chunk Aggregate)
    (model : string) (messages : list message) : option string :=
  match ModelService_get D model with
  | None => Some ("Unknown model: " ++ model)
  | Some model_info =>
      match MessageExtractor.extract messages (is_video model_info) with
      | inl (ValueError e) => Some e
      | _ => None
      end
  end.

(** A manager honours the exclude set: it never hands out an excluded
    token. *)
Definition honours_exclude {M RID : Type} (tm : TokenManagerAPI M RID) : Prop :=
  forall model exclude m tok rid m',
    reserve_token_for_model tm model exclude m = (Some (tok, rid), m') ->
    tok ∉ exclude.

(** ** tests/test_chat_retry_on_non_200.py: the patched environment *)

Module test_chat_retry.

Definition ModelService_get (name : string) : option ModelInfo :=
  if String.eqb name "grok-3" then
    Some (mk_ModelInfo "grok-3" "MODEL_MODE_FAST" false)
  else if String.eqb name "grok-imagine-1.0-video" then
    Some (mk_ModelInfo "grok-3" "MODEL_MODE_FAST" true)
  else None.

Definition translator : processor.config :=
  processor.mk_config processor.SeparateThinking (fun url => url).

(** The collaborators of the test: the manager double, a statistics
    recorder without state, [get_max_retry] patched to [1], and the network
    given by [post]. *)
Definition patched
    (post : nat -> string -> chat_reply (list processor.upstream_event))
  : collaborators _DummyTokenManager.state unit string
      (list processor.upstream_event) processor.sse processor.aggregate :=
  mk_collaborators _ _ _ _ _ _
    _DummyTokenManager.manager
    (fun _ _ s => (Return tt, s))
    ModelService_get
    (fun _ _ => Return "file-id")
    post
    1 true false String.length
    (fun model_name _ _ _ response =>
       (processor.stream_process translator "test" model_name 0 response, None))
    (fun model_name _ prompt response =>
       Return (processor.collect_process translator String.length "test"
                 model_name 0 prompt response)).

(** [_fake_chat_openai]: every call fails with status 500. *)
Definition always_500 : nat -> string -> chat_reply (list processor.upstream_event) :=
  fun _ _ => ChatResponse 500 [].

(** The connection fails on every call. *)
Definition always_unreachable
  : nat -> string -> chat_reply (list processor.upstream_event) :=
  fun _ _ => ChatFailure "connection refused".

Definition hello : nat -> string -> chat_reply (list processor.upstream_event) :=
  fun _ _ =>
    ChatResponse 200
      [processor.Structural "llmInfo"; processor.ContentToken "Hello";
       processor.ContentToken " world"].

Definition start : world _DummyTokenManager.state unit string processor.sse :=
  mk_chat_world _DummyTokenManager.init tt [] 0.

Definition user_hello : list message := [mk_message "user" (ContentStr "hello")].

Definition token_a : string := "token-a-long-1234567890".
Definition token_b : string := "token-b-long-0987654321".
Definition failed_500 : exn :=
  UpstreamException "Grok API request failed: 500" (Some 500).

End test_chat_retry.

(** ** tests/test_token_manager_reservation.py and
    tests/test_token_manager_sync_usage.py: the pools under test *)

Module test_token_manager.

Import TokenPool TokenManager.

Definition pool_for_model : string -> string := fun _ => "ssoBasic".
Definition draws_heavy : string -> bool := fun m => String.eqb m "grok-4-heavy".
Definition ttl : Z := 120.
Definition now : Z := 1700000000.

Definition token_a : TokenRecord :=
  mk_TokenRecord "tok-a" ACTIVE 100 (-1) 0 0 0 None EmptyString.
Definition token_b : TokenRecord :=
  mk_TokenRecord "tok-b" ACTIVE 80 (-1) 0 0 0 None EmptyString.
Definition tok_1 : TokenRecord :=
  mk_TokenRecord "tok-1" ACTIVE 10 (-1) 0 0 0 None EmptyString.

Definition two_tokens : state :=
  mk_state {["ssoBasic" := add token_b (add token_a [])]} 0 0.
Definition one_token : state := mk_state {["ssoBasic" := add tok_1 []]} 0 0.

End test_token_manager.

(** ** What a retry loop leaves in the log *)

(** The reservations handed out and the reservations released, in the
    order of the calls. *)
Definition reservations {RID Chunk : Type} (l : list (event RID Chunk))
  : list (string * RID) :=
  omap (fun ev => match ev with
                  | EvReserve _ _ got => got
                  | _ => None
                  end) l.

Definition releases {RID Chunk : Type} (l : list (event RID Chunk))
  : list (string * RID) :=
  omap (fun ev => match ev with
                  | EvRelease tok rid => Some (tok, rid)
                  | _ => None
                  end) l.

Definition is_reserve {RID Chunk : Type} (ev : event RID Chunk) : bool :=
  match ev with
  | EvReserve _ _ _ => true
  | _ => false
  end.

Definition is_upstream {RID Chunk : Type} (ev : event RID Chunk) : bool :=
  match ev with
  | EvUpstream _ => true
  | _ => false
  end.

Definition is_sleep {RID Chunk : Type} (ev : event RID Chunk) : bool :=
  match ev with
  | EvSleep _ => true
  | _ => false
  end.

(** Whether the chat posts of a stretch of the log go with its
    reservations: each post is made with the token of the reservation
    granted last, and no post was made under that reservation before.
    [pending] is the token of a granted reservation still without a
    post. *)
Fixpoint posts_follow {RID Chunk : Type} (pending : option string)
    (l : list (event RID Chunk)) : bool :=
  match l with
  | [] => true
  | EvReserve _ _ got :: rest => posts_follow (fst <$> got) rest
  | EvUpstream tok :: rest =>
      match pending with
      | Some t => String.eqb t tok && posts_follow None rest
      | None => false
      end
  | _ :: rest => posts_follow pending rest
  end.

(** Bookkeeping calls: they neither take nor give back a reservation and
    do not reach the upstream. *)
Definition is_bookkeeping {RID Chunk : Type} (ev : event RID Chunk) : bool :=
  match ev with
  | EvRecordFail _ _ _ | EvRecordRequest _ _ | EvSyncUsage _ _ _ _ => true
  | _ => false
  end.

(** The request statistics recorded, in order. *)
Definition record_requests {RID Chunk : Type} (l : list (event RID Chunk))
  : list (string * bool) :=
  omap (fun ev => match ev with
                  | EvRecordRequest model success => Some (model, success)
                  | _ => None
                  end) l.

(** A reservation that came back empty. *)
Definition is_refusal {RID Chunk : Type} (ev : event RID Chunk) : bool :=
  match ev with
  | EvReserve _ _ None => true
  | _ => false
  end.

(** The delay before the retry that follows attempt [attempt]. *)
Definition backoff (attempt : Z) : Q := ((1 # 2) * inject_Z (attempt + 1))%Q.

(** The delays slept, in order. *)
Definition sleeps {RID Chunk : Type} (l : list (event RID Chunk)) : list Q :=
  omap (fun ev => match ev with
                  | EvSleep delay => Some delay
                  | _ => None
                  end) l.

(** The error [completions] raises when it is left without a token. *)
Definition no_available_tokens : exn :=
  AppException "No available tokens. Please try again later."
    "rate_limit_exceeded" 429.

Definition count {A : Type} (p : A -> bool) (l : list A) : nat :=
  length (List.filter p l).

(** How the retry loop is left: the range was used up; the manager had
    no token to give; an exception left the loop after the reservation
    was released; a successful call holds the last reservation; an
    exception that is no [AppException] left the last reservation
    unreleased; or the last reservation came with a falsy token and was
    dropped. *)
Inductive loop_end (RID : Type) : Type :=
| Exhausted
| Refused
| Failed
| Held (token : string) (reservation_id : RID)
| Leaked (token : string) (reservation_id : RID)
| Dropped (token : string) (reservation_id : RID).
Arguments Exhausted {RID}.
Arguments Refused {RID}.
Arguments Failed {RID}.
Arguments Held {RID} token reservation_id.
Arguments Leaked {RID} token reservation_id.
Arguments Dropped {RID} token reservation_id.

(** The reservation a loop end leaves unreleased. *)
Definition outstanding {RID : Type} (fin : loop_end RID) : list (string * RID) :=
  match fin with
  | Exhausted | Refused | Failed => []
  | Held tok rid | Leaked tok rid | Dropped tok rid => [(tok, rid)]
  end.

(** The calls [chat_openai] logs: none, or the one post. *)
Definition posted_once {RID Chunk : Type} (tok : string)
    (pre : list (event RID Chunk)) : Prop :=
  pre = [] \/ pre = [EvUpstream tok].

(** What the loop reports after the release when an exception leaves it:
    nothing (the release itself raised), the failed request, or the
    failure of the token. *)
Definition failure_report {RID Chunk : Type} (model tok : string)
    (post : list (event RID Chunk)) : Prop :=
  post = []
  \/ post = [EvRecordRequest model false]
  \/ exists code reason, post = [EvRecordFail tok code reason].

(** The shapes of the log a run of the retry loop can append, by the
    branch each iteration takes. *)
Inductive loop_trace {M T RID Response Chunk Aggregate : Type}
    (D : collaborators M T RID Response Chunk Aggregate) (model : string)
  : list Z -> gset string -> list (event RID Chunk) -> loop_end RID -> Prop :=
| trace_exhausted (excluded : gset string) :
    loop_trace D model [] excluded [] Exhausted
| trace_no_token (attempt : Z) (rest : list Z) (excluded : gset string) :
    loop_trace D model (attempt :: rest) excluded
      [EvReserve model excluded None] Refused
| trace_falsy (attempt : Z) (rest : list Z) (excluded : gset string)
    (tok : string) (rid : RID) (m m' : M) :
    reserve_token_for_model (token_mgr D) model excluded m = (Some (tok, rid), m') ->
    truthy tok = false ->
    loop_trace D model (attempt :: rest) excluded
      [EvReserve model excluded (Some (tok, rid))] (Dropped tok rid)
| trace_success (attempt : Z) (rest : list Z) (excluded : gset string)
    (tok : string) (rid : RID) (m m' : M) :
    reserve_token_for_model (token_mgr D) model excluded m = (Some (tok, rid), m') ->
    truthy tok = true ->
    loop_trace D model (attempt :: rest) excluded
      [EvReserve model excluded (Some (tok, rid)); EvUpstream tok] (Held tok rid)
| trace_retry (attempt : Z) (rest : list Z) (excluded : gset string)
    (tok : string) (rid : RID) (m m' : M) (pre : list (event RID Chunk))
    (code : Z) (reason : string) (new : list (event RID Chunk))
    (fin : loop_end RID) :
    reserve_token_for_model (token_mgr D) model excluded m = (Some (tok, rid), m') ->
    truthy tok = true ->
    posted_once tok pre ->
    attempt < get_max_retry D ->
    loop_trace D model rest ({[tok]} ∪ excluded) new fin ->
    loop_trace D model (attempt :: rest) excluded
      (EvReserve model excluded (Some (tok, rid))
       :: (pre ++ [EvRelease tok rid; EvRecordFail tok code reason;
                   EvSleep ((1 # 2) * inject_Z (attempt + 1))%Q] ++ new)%list)
      fin
| trace_failed (attempt : Z) (rest : list Z) (excluded : gset string)
    (tok : string) (rid : RID) (m m' : M) (pre post : list (event RID Chunk)) :
    reserve_token_for_model (token_mgr D) model excluded m = (Some (tok, rid), m') ->
    truthy tok = true ->
    posted_once tok pre ->
    failure_report model tok post ->
    loop_trace D model (attempt :: rest) excluded
      (EvReserve model excluded (Some (tok, rid))
       :: (pre ++ EvRelease tok rid :: post)%list)
      Failed
| trace_leaked (attempt : Z) (rest : list Z) (excluded : gset string)
    (tok : string) (rid : RID) (m m' : M) (pre : list (event RID Chunk)) :
    reserve_token_for_model (token_mgr D) model excluded m = (Some (tok, rid), m') ->
    truthy tok = true ->
    posted_once tok pre ->
    loop_trace D model (attempt :: rest) excluded
      (EvReserve model excluded (Some (tok, rid)) :: pre) (Leaked tok rid).

(** The loop variables as they are before a successful call: no token, or
    an error pending. *)
Definition idle {RID Response : Type} (vars : loop_vars RID Response) : Prop :=
  response vars = None /\ (token vars = None \/ last_error vars <> None).

(** How the result of the loop goes with the way its trace ends.  An
    exception that leaves a reservation unreleased is one [chat_openai]
    raised. *)
Definition ends_as {M T RID Response Chunk Aggregate : Type}
    (D : collaborators M T RID Response Chunk Aggregate)
    (fin : loop_end RID) (r : result (loop_vars RID Response)) : Prop :=
  match fin, r with
  | Exhausted, Return vars => idle vars
  | Refused, Return vars => token vars = None /\ response vars = None
  | Failed, Raise _ => True
  | Held tok rid, Return vars =>
      token vars = Some tok /\ reservation_id vars = Some rid
      /\ last_error vars = None /\ is_Some (response vars)
  | Leaked _ _, Raise e =>
      is_AppException e = false
      /\ exists tok request w, fst (chat_openai D tok request w) = Raise e
  | Dropped tok rid, Return vars =>
      token vars = Some tok /\ truthy tok = false /\ response vars = None
  | _, _ => False
  end.

(** The manager hands out truthy (non-empty) tokens only. *)
Definition tokens_truthy {M RID : Type} (tm : TokenManagerAPI M RID) : Prop :=
  forall model exclude m tok rid m',
    reserve_token_for_model tm model exclude m = (Some (tok, rid), m') ->
    truthy tok = true.

(** The calls logged between two worlds. *)
Definition since {M T RID Chunk : Type} (w w' : world M T RID Chunk)
  : list (event RID Chunk) :=
  drop (length (log w)) (log w').

(** What the collecting branch of [completions] logs before its release,
    with the outcome: nothing when the processor raised; [sync_usage]
    alone when that raised; [sync_usage] and the success stat otherwise. *)
Definition collected {RID Chunk Aggregate : Type} (tok : string)
    (bk : list (event RID Chunk)) (r : result (completion RID Chunk Aggregate))
  : Prop :=
  (bk = [] /\ returned r = false)
  \/ exists model_name,
      (bk = [EvSyncUsage tok model_name true true]
       \/ bk = [EvSyncUsage tok model_name true true;
                EvRecordRequest model_name true])
      /\ ((exists a, r = Return (Collected a))
          \/ exists e, r = Raise e /\ is_Exception e = false).

(** What [completions] logs after its loop, and how it ends, by the way
    the loop was left. *)
Definition completion_end {M T RID Response Chunk Aggregate : Type}
    (D : collaborators M T RID Response Chunk Aggregate) (model : string)
    (is_stream : bool) (fin : loop_end RID) (tail : list (event RID Chunk))
    (r : result (completion RID Chunk Aggregate)) : Prop :=
  match fin with
  | Exhausted => tail = [EvRecordRequest model false] /\ returned r = false
  | Refused =>
      tail = [EvRecordRequest model false]
      /\ (r = Raise no_available_tokens
          \/ exists e, r = Raise e /\ is_Exception e = false)
  | Failed => tail = [] /\ returned r = false
  | Held tok rid =>
      if is_stream then
        tail = [] /\ exists p model_name, r = Return (Streaming p tok rid model_name)
      else exists bk, tail = (bk ++ [EvRelease tok rid])%list /\ collected tok bk r
  | Leaked _ _ =>
      tail = []
      /\ exists e,
          r = Raise e /\ is_AppException e = false
          /\ exists tok request w, fst (chat_openai D tok request w) = Raise e
  | Dropped _ _ =>
      (tail = [] \/ tail = [EvRecordRequest model false]) /\ returned r = false
  end.

(** [RetryConfig.get_max_retry] patched to another budget. *)
Definition with_max_retry {M T RID Response Chunk Aggregate : Type}
    (max_retry : Z) (D : collaborators M T RID Response Chunk Aggregate)
  : collaborators M T RID Response Chunk Aggregate :=
  mk_collaborators _ _ _ _ _ _
    (token_mgr D) (record_request D) (ModelService_get D) (upload D) (post D)
    max_retry (grok_stream D) (grok_thinking D) (enc_len D)
    (StreamProcessor_process D) (CollectProcessor_process D).

(** ** chat.py: what the extractor accepts, and the payload *)

(** The [ValueError] the extractor raises for an item when the model is a
    video model: the item types of [MessageExtractor.VIDEO_UNSUPPORTED]. *)
Definition rejection (item : content_item) : option exn :=
  match item with
  | ItemInputAudio _ => Some (ValueError "视频模型不支持 input_audio 类型")
  | ItemFile _ _ => Some (ValueError "视频模型不支持 file 类型")
  | _ => None
  end.

(** The attachment the extractor gathers from an item of a model that is
    no video model. *)
Definition attachment (item : content_item) : option (string * string) :=
  match item with
  | ItemImageUrl url => if truthy url then Some ("image", url) else None
  | ItemInputAudio data => if truthy data then Some ("audio", data) else None
  | ItemFile url data =>
      let url := if truthy url then url else data in
      if truthy url then Some ("file", url) else None
  | _ => None
  end.

(** The items of a message whose content is a list. *)
Definition items_of (msg : message) : list content_item :=
  match content msg with
  | ContentList items => items
  | _ => []
  end.

(** A message that carries neither text nor items: a string of white
    space only, an empty list, or a content that is neither a string nor
    a list. *)
Definition silent (msg : message) : bool :=
  match content msg with
  | ContentStr s => negb (strip_nonempty s)
  | ContentList [] => true
  | ContentList (_ :: _) => false
  | ContentOther => true
  end.

(** [MessageExtractor.extract_text_only]. *)
Definition extract_text_only (msgs : list message) : exn + string :=
  match MessageExtractor.extract msgs true with
  | inl e => inl e
  | inr (text, _) => inr text
  end.

(** The tokens [_count_prompt_tokens] counts for the content of one
    message. *)
Definition message_tokens (enc_len : string -> nat) (msg : message) : nat :=
  match content msg with
  | ContentStr s => if truthy s then enc_len s else 0
  | ContentList items =>
      list_sum ((fun item =>
                   match item with
                   | ItemText text => if truthy text then enc_len text else 0
                   | _ => 0
                   end) <$> items)
  | ContentOther => 0
  end%nat.

(** The fields of the request body that [ChatRequestBuilder.build_payload]
    does not fix. *)
Record payload : Type := mk_payload {
  temporary : bool;
  modelName : string;
  modelMode : string;
  payload_message : string;
  fileAttachments : list string;
  imageAttachments : list string;
  requestModelDetails_modelId : string
}.

(** [ChatRequestBuilder.build_payload], with [grok.temporary] as read from
    the configuration; [None] is the default of a list argument.  The
    image attachments are merged into [fileAttachments]. *)
Definition build_payload (grok_temporary : bool) (message model mode : string)
    (think : option bool) (file_attachments image_attachments : option (list string))
  : payload :=
  let merged_attachments :=
    (match file_attachments with
     | Some ((_ :: _) as l) => l
     | _ => []
     end ++
     match image_attachments with
     | Some ((_ :: _) as l) => l
     | _ => []
     end)%list in
  mk_payload grok_temporary model mode message merged_attachments [] model.

(** The id an upload returned for an attachment. *)
Definition file_id {M T RID Response Chunk Aggregate : Type}
    (D : collaborators M T RID Response Chunk Aggregate) (token : string)
    (attach : string * string) : string :=
  match upload D (snd attach) token with
  | Return id => id
  | Raise _ => EmptyString
  end.

Definition is_image (attach : string * string) : bool :=
  String.eqb (fst attach) "image".

(** How [extract] renders an entry that is not the last one of the user:
    prefixed by its role, [user] standing in for an empty one. *)
Definition prefixed (entry : string * string) : string :=
  (if truthy (fst entry) then fst entry else "user") ++ ": " ++ snd entry.

(** ** usage.py: the concurrency limit *)

Module usage_limit.

Definition DEFAULT_MAX_CONCURRENT : Z := 25.

(** An [asyncio.Semaphore]: the object (told apart by the order of its
    creation) and the number of holders it admits. *)
Record Semaphore : Type := mk_Semaphore {
  serial : nat;
  value : Z
}.

(** The module-level pair [_USAGE_SEMAPHORE], [_USAGE_SEM_VALUE], and the
    number of semaphores created so far. *)
Record state : Type := mk_state {
  _USAGE_SEMAPHORE : Semaphore;
  _USAGE_SEM_VALUE : Z;
  created : nat
}.

(** The state after the module is imported. *)
Definition init : state :=
  mk_state (mk_Semaphore 0 DEFAULT_MAX_CONCURRENT) DEFAULT_MAX_CONCURRENT 1.

(** [_get_usage_semaphore()], with the raw value of
    [performance.usage_max_concurrent]. *)
Definition _get_usage_semaphore (cfg : config_value) (st : state)
  : Semaphore * state :=
  let value :=
    match cfg with
    | CfgUnset => DEFAULT_MAX_CONCURRENT
    | CfgInt z => z
    | CfgNotInt => DEFAULT_MAX_CONCURRENT
    end in
  let value := Z.max 1 value in
  if negb (value =? _USAGE_SEM_VALUE st) then
    let sem := mk_Semaphore (created st) value in
    (sem, mk_state sem value (S (created st)))
  else (_USAGE_SEMAPHORE st, st).

(** The recorded value is the capacity of the recorded semaphore, which is
    one of those created. *)
Definition consistent (st : state) : Prop :=
  value (_USAGE_SEMAPHORE st) = _USAGE_SEM_VALUE st
  /\ (serial (_USAGE_SEMAPHORE st) < created st)%nat.

End usage_limit.

(** ** headers.py *)

Module headers.

(** The double quote, which the header values hold. *)
Definition DQ : string := String (ascii_of_nat 34) EmptyString.

(** [s[n:]]. *)
Definition slice_from (n : nat) (s : string) : string :=
  String.substring n (String.length s - n) s.

(** The value of the [Cookie] header: the token without one leading
    [sso=], and the clearance cookie when [grok.cf_clearance] is set. *)
Definition Cookie (cf : string) (token : string) : string :=
  let token := if String.prefix "sso=" token then slice_from 4 token else token in
  if truthy cf then "sso=" ++ token ++ ";cf_clearance=" ++ cf
  else "sso=" ++ token.

(** [build_grok_headers(token, referer)]: the dict in insertion order.
    [statsig_id] is what [StatsigService.gen_id()] returns and
    [request_id] the fresh [uuid4]; [cf] is [grok.cf_clearance]. *)
Definition build_grok_headers (statsig_id request_id cf : string)
    (token referer : string) : list (string * string) :=
  [("Accept", "*/*");
   ("Accept-Encoding", "gzip, deflate, br, zstd");
   ("Accept-Language", "zh-CN,zh;q=0.9");
   ("Baggage",
    "sentry-environment=production,sentry-release=d6add6fb0460641fd482d767a335ef72b9b6abb8,sentry-public_key=b311e0f2690c81f25e2c4cf6d4f7ce1c");
   ("Cache-Control", "no-cache");
   ("Content-Type", "application/json");
   ("Origin", "https://grok.com");
   ("Pragma", "no-cache");
   ("Priority", "u=1, i");
   ("Referer", referer);
   ("Sec-Ch-Ua",
    (DQ ++ "Google Chrome" ++ DQ ++ ";v=" ++ DQ ++ "136" ++ DQ ++ ", "
     ++ DQ ++ "Chromium" ++ DQ ++ ";v=" ++ DQ ++ "136" ++ DQ ++ ", "
     ++ DQ ++ "Not(A:Brand" ++ DQ ++ ";v=" ++ DQ ++ "24" ++ DQ)%string);
   ("Sec-Ch-Ua-Arch", "arm");
   ("Sec-Ch-Ua-Bitness", "64");
   ("Sec-Ch-Ua-Mobile", "?0");
   ("Sec-Ch-Ua-Model", EmptyString);
   ("Sec-Ch-Ua-Platform", (DQ ++ "macOS" ++ DQ)%string);
   ("Sec-Fetch-Dest", "empty");
   ("Sec-Fetch-Mode", "cors");
   ("Sec-Fetch-Site", "same-origin");
   ("User-Agent",
    "Mozilla/5.0 (Macintosh; Intel Mac OS X 10_15_7) AppleWebKit/537.36 (KHTML, like Gecko) Chrome/136.0.0.0 Safari/537.36");
   ("x-statsig-id", statsig_id);
   ("x-xai-request-id", request_id);
   ("Cookie", Cookie cf token)]%list.

(** [headers.get(name)]. *)
Definition get (name : string) (hs : list (string * string)) : option string :=
  snd <$> List.find (fun kv => String.eqb (fst kv) name) hs.

End headers.

(** ** assets.py: the upload service *)

(** What [session.post] to the upload endpoint yields: an exception, or a
    response with its status and, read as JSON, the [fileMetadataId] and
    [fileUri] of its body ([response.json()] raises when the body is no
    JSON). *)
Inductive upload_reply : Type :=
| UploadRaised (e : exn)
| UploadResponse (status_code : Z) (json : result (string * string)).

Module UploadService.

Section Upload.

(** [BaseService.is_url], [BaseService.fetch] and [BaseService.parse_b64],
    the latter two yielding [(filename, b64, mime)]; and the network. *)
Variable is_url : string -> bool.
Variable fetch : string -> result (string * string * string).
Variable parse_b64 : string -> string * string * string.
Variable post : string -> string * string * string -> upload_reply.

(** The [try] block of [upload]. *)
Definition attempt (file_input token : string) : result (string * string) :=
  match (if is_url file_input then fetch file_input
         else Return (parse_b64 file_input)) with
  | Raise e => Raise e
  | Return (filename, b64, mime) =>
      if negb (truthy b64) then
        Raise (ValidationException "Invalid file input: empty content")
      else
        match post token (filename, mime, b64) with
        | UploadRaised e => Raise e
        | UploadResponse status_code json =>
            if status_code =? 200 then json
            else
              Raise (UpstreamException
                       ("Upload failed with status " ++ str_Z status_code)
                       (Some status_code))
        end
  end.

(** [UploadService.upload]: [(file_id, file_uri)], every [Exception] that
    is no [AppException] wrapped into an [UpstreamException] without
    details.  The semaphore bounds concurrency only. *)
Definition upload (file_input token : string) : result (string * string) :=
  match attempt file_input token with
  | Return r => Return r
  | Raise e =>
      if is_Exception e then
        if is_AppException e then Raise e
        else Raise (UpstreamException ("Upload process error: " ++ str_exn e) None)
      else Raise e
  end.

End Upload.

End UploadService.

(** ** admin/websocket.py: the image stream of the admin console *)

Module admin_imagine_ws.

(** What [_send] puts on the socket: an image with its sequence number
    (the time stamps, the ratio and the run id left out), an error with
    its message and code, or a status. *)
Inductive payload : Type :=
| Image (b64_json : string) (sequence : nat)
| Error (message code : string)
| Status (status : string).

(** Calls [_run] makes, in order. *)
Inductive call (RID : Type) : Type :=
| Reserve (model : string) (got : option (string * RID))
| Collect (token : string)
| Send (p : payload)
| Sleep (delay : Q)
| SyncUsage (token model : string) (consume_on_fail is_usage : bool)
| Release (token : string) (reservation_id : RID).
Arguments Reserve {RID} model got.
Arguments Collect {RID} token.
Arguments Send {RID} p.
Arguments Sleep {RID} delay.
Arguments SyncUsage {RID} token model consume_on_fail is_usage.
Arguments Release {RID} token reservation_id.

(** The state a run works on: the manager, the calls made, how often the
    batch collector, the socket and the sleep were called, the stop event
    and the sequence counter. *)
Record world (M RID : Type) : Type := mk_world {
  mgr : M;
  log : list (call RID);
  batches : nat;
  sends : nat;
  naps : nat;
  stop_event : bool;
  sequence : nat
}.
Arguments mk_world {M RID} mgr log batches sends naps stop_event sequence.
Arguments mgr {M RID} w.
Arguments log {M RID} w.
Arguments batches {M RID} w.
Arguments sends {M RID} w.
Arguments naps {M RID} w.
Arguments stop_event {M RID} w.
Arguments sequence {M RID} w.

(** What [_run] reads from its environment: the manager, whether the
    model table has the image model, the outcome of the [n]-th batch, of
    the [n]-th [send_text] and of the [n]-th sleep (each may be left by a
    [CancelledError] when the task is cancelled there), and the validity
    check of an image. *)
Record collaborators (M RID : Type) : Type := mk_collaborators {
  token_mgr : TokenManagerAPI M RID;
  image_model_available : bool;
  _collect_imagine_batch : nat -> string -> result (list string);
  is_valid_imagine_image_value : string -> bool;
  send_text : nat -> payload -> result unit;
  asyncio_sleep : nat -> Q -> result unit
}.
Arguments token_mgr {M RID} c.
Arguments image_model_available {M RID} c.
Arguments _collect_imagine_batch {M RID} c _ _.
Arguments is_valid_imagine_image_value {M RID} c _.
Arguments send_text {M RID} c _ _.
Arguments asyncio_sleep {M RID} c _ _.

(** How an iteration of the [while] loop ends when no exception leaves
    it. *)
Inductive step : Type := Continue | Break.

Definition model_id : string := "grok-imagine-1.0".

Section Run.

Context {M RID : Type}.
Variable D : collaborators M RID.

Local Abbreviation W := (world M RID).

Definition emit (c : call RID) (w : W) : W :=
  mk_world (mgr w) (log w ++ [c]) (batches w) (sends w) (naps w)
    (stop_event w) (sequence w).

Definition on_mgr {A} (c : Eff M A) : Eff W A :=
  fun w =>
    let '(r, m) := c (mgr w) in
    (r, mk_world m (log w) (batches w) (sends w) (naps w) (stop_event w)
          (sequence w)).

(** [_send]: [True] when the text went out, [False] when sending raised
    an [Exception]. *)
Definition _send (p : payload) : Eff W bool :=
  fun w =>
    let w' :=
      mk_world (mgr w) (log w ++ [Send p]) (batches w) (S (sends w)) (naps w)
        (stop_event w) (sequence w) in
    match send_text D (sends w) p with
    | Return _ => (Return true, w')
    | Raise e => if is_Exception e then (Return false, w') else (Raise e, w')
    end.

Definition sleep (delay : Q) : Eff W unit :=
  fun w =>
    (asyncio_sleep D (naps w) delay,
     mk_world (mgr w) (log w ++ [Sleep delay]) (batches w) (sends w) (S (naps w))
       (stop_event w) (sequence w)).

Definition reserve : Eff W (option (string * RID)) :=
  fun w =>
    let '(got, m) := reserve_token_for_model (token_mgr D) model_id ∅ (mgr w) in
    (Return got,
     mk_world m (log w ++ [Reserve model_id got]) (batches w) (sends w) (naps w)
       (stop_event w) (sequence w)).

Definition collect (token : string) : Eff W (list string) :=
  fun w =>
    (_collect_imagine_batch D (batches w) token,
     mk_world (mgr w) (log w ++ [Collect token]) (S (batches w)) (sends w) (naps w)
       (stop_event w) (sequence w)).

Definition do_sync_usage (token : string) : Eff W bool :=
  fun w =>
    on_mgr (sync_usage (token_mgr D) token model_id true true)
      (emit (SyncUsage token model_id true true) w).

Definition do_release (token : string) (rid : RID) : Eff W bool :=
  fun w =>
    on_mgr (release_token_reservation (token_mgr D) token rid)
      (emit (Release token rid) w).

(** [for image_b64 in images]: whether any image was valid, a failed send
    setting the stop event and leaving the loop. *)
Fixpoint send_images (images : list string) (sent_any : bool) : Eff W bool :=
  match images with
  | [] => eff_ret sent_any
  | image_b64 :: rest =>
      if negb (is_valid_imagine_image_value D image_b64) then
        send_images rest sent_any
      else
        fun w =>
          let w1 :=
            mk_world (mgr w) (log w) (batches w) (sends w) (naps w)
              (stop_event w) (S (sequence w)) in
          match _send (Image image_b64 (sequence w1)) w1 with
          | (Return true, w2) => send_images rest true w2
          | (Return false, w2) =>
              (Return true,
               mk_world (mgr w2) (log w2) (batches w2) (sends w2) (naps w2)
                 true (sequence w2))
          | (Raise e, w2) => (Raise e, w2)
          end
  end.

(** The [try] block of an iteration, after the reservation. *)
Definition attempt (got : option (string * RID)) : Eff W step :=
  match got with
  | Some (token, _) =>
      if negb (truthy token) then
        _send (Error "No available tokens. Please try again later."
                 "rate_limit_exceeded") ;;;
        sleep 2 ;;;
        eff_ret Continue
      else
        let* images := collect token in
        let* sent_any := send_images images false in
        (if sent_any then swallow (do_sync_usage token)
         else
           _send (Error "Image generation returned empty data." "empty_image") ;;;
           eff_ret tt) ;;;
        eff_ret Continue
  | None =>
      _send (Error "No available tokens. Please try again later."
               "rate_limit_exceeded") ;;;
      sleep 2 ;;;
      eff_ret Continue
  end.

(** The handlers: a cancellation leaves the loop; any other [Exception]
    is reported, followed by a pause. *)
Definition handled (body : Eff W step) : Eff W step :=
  fun w =>
    match body w with
    | (Return s, w') => (Return s, w')
    | (Raise CancelledError, w') => (Return Break, w')
    | (Raise e, w') =>
        if is_Exception e then
          (_send (Error (str_exn e) "internal_error") ;;;
           sleep (3 # 2) ;;;
           eff_ret Continue) w'
        else (Raise e, w')
    end.

(** One iteration of [while not stop_event.is_set()]. *)
Definition iteration : Eff W step :=
  let* got := reserve in
  try_finally (handled (attempt got))
    (match got with
     | Some (token, reservation_id) =>
         if truthy token then swallow (do_release token reservation_id)
         else eff_ret tt
     | None => eff_ret tt
     end).

(** The loop, for at most [rounds] iterations. *)
Fixpoint loop (rounds : nat) : Eff W unit :=
  match rounds with
  | O => eff_ret tt
  | S rounds' =>
      fun w =>
        if stop_event w then (Return tt, w)
        else
          match iteration w with
          | (Return Continue, w') => loop rounds' w'
          | (Return Break, w') => (Return tt, w')
          | (Raise e, w') => (Raise e, w')
          end
  end.

(** [_run], its loop cut off after [rounds] iterations. *)
Definition _run (rounds : nat) : Eff W unit :=
  if negb (image_model_available D) then
    _send (Error "Image model is not available." "model_not_supported") ;;;
    eff_ret tt
  else
    fun w =>
      let w0 :=
        mk_world (mgr w) (log w) (batches w) (sends w) (naps w) (stop_event w) 0 in
      (_send (Status "running") ;;;
       loop rounds ;;;
       _send (Status "stopped") ;;;
       eff_ret tt) w0.

End Run.

(** The reservations taken and the reservations released, in order. *)
Definition reserved {RID : Type} (l : list (call RID)) : list (string * RID) :=
  omap (fun c => match c with
                 | Reserve _ got => got
                 | _ => None
                 end) l.

Definition released {RID : Type} (l : list (call RID)) : list (string * RID) :=
  omap (fun c => match c with
                 | Release token rid => Some (token, rid)
                 | _ => None
                 end) l.

Definition is_sync {RID : Type} (c : call RID) : bool :=
  match c with
  | SyncUsage _ _ _ _ => true
  | _ => false
  end.

Definition is_collect {RID : Type} (c : call RID) : bool :=
  match c with
  | Collect _ => true
  | _ => false
  end.

Definition is_image_send {RID : Type} (c : call RID) : bool :=
  match c with
  | Send (Image _ _) => true
  | _ => false
  end.

(** The calls logged between two worlds. *)
Definition since {M RID : Type} (w w' : world M RID) : list (call RID) :=
  drop (length (log w)) (log w').

(** What a stretch of the log counts for: the reservations and releases
    in it, and how many usage syncs, image sends and batches. *)
Definition tally {RID : Type} (l : list (call RID))
  : list (string * RID) * list (string * RID) * nat * nat * nat :=
  (reserved l, released l, count is_sync l, count is_image_send l,
   count is_collect l).

Definition tally_add {RID : Type}
    (a b : list (string * RID) * list (string * RID) * nat * nat * nat)
  : list (string * RID) * list (string * RID) * nat * nat * nat :=
  let '(r1, l1, s1, i1, c1) := a in
  let '(r2, l2, s2, i2, c2) := b in
  (r1 ++ r2, l1 ++ l2, (s1 + s2)%nat, (i1 + i2)%nat, (c1 + c2)%nat)%list.

(** A stretch that reserves, releases, syncs and collects nothing and
    sends no image. *)
Definition quiet {RID : Type} (l : list (call RID)) : Prop :=
  tally l = ([], [], 0, 0, 0)%nat.

(** The reservation an iteration takes, and the one it gives back. *)
Definition taken {RID : Type} (got : option (string * RID)) : list (string * RID) :=
  match got with
  | Some g => [g]
  | None => []
  end.

Definition given_back {RID : Type} (got : option (string * RID))
  : list (string * RID) :=
  match got with
  | Some (tok, rid) => if truthy tok then [(tok, rid)] else []
  | None => []
  end.

End admin_imagine_ws.

(** ** api/v1/files.py: the names of cached files *)

Module files.

Definition SLASH : ascii := ascii_of_nat 47.
Definition BACKSLASH : ascii := ascii_of_nat 92.
Definition DASH : ascii := ascii_of_nat 45.

(** [s.replace(a, b)] for one-character [a] and [b]. *)
Fixpoint replace (a b : ascii) (s : string) : string :=
  match s with
  | EmptyString => EmptyString
  | String c rest => String (if Ascii.eqb c a then b else c) (replace a b rest)
  end.

(** [s.lstrip(c)] for a single character. *)
Fixpoint lstrip (c : ascii) (s : string) : string :=
  match s with
  | EmptyString => EmptyString
  | String c' rest => if Ascii.eqb c' c then lstrip c rest else s
  end.

(** [_cache_filename(raw)]: both separators taken as one, the leading
    ones dropped, the others flattened to dashes. *)
Definition _cache_filename (raw : string) : string :=
  let s := raw in
  let s := lstrip SLASH (replace BACKSLASH SLASH s) in
  replace SLASH DASH s.

(** [_safe_cached_path(base_dir, raw)], with [inside name] for
    [(base_dir / name).resolve().is_relative_to(base_dir.resolve())]; the
    name returned stands for the resolved target. *)
Definition _safe_cached_path (inside : string -> bool) (raw : string)
  : option string :=
  let name := _cache_filename raw in
  if negb (truthy name) || String.eqb name "." || String.eqb name ".." then None
  else if negb (inside name) then None
  else Some name.

(** A character occurs in a string. *)
Fixpoint occurs (c : ascii) (s : string) : bool :=
  match s with
  | EmptyString => false
  | String c' rest => Ascii.eqb c' c || occurs c rest
  end.

End files.

(** ** core/response_middleware.py: the automatic ban, kept in memory *)

Module ResponseLoggerMiddleware.

(** What [dispatch] reads of a request: the address of the client
    ([_get_client_ip], empty when there is none) and whether a route of
    the application matches it ([_is_known_route]). *)
Record request : Type := mk_request {
  client_ip : string;
  known_route : bool
}.

(** [security.auto_ban_unknown_path] and the addresses of
    [security.auto_ban_exempt_ips], stripped, the empty ones left out. *)
Record config : Type := mk_config {
  auto_ban_unknown_path : bool;
  auto_ban_exempt_ips : gset string
}.

(** The answer of [dispatch]: a 403 with its message, or whatever
    [call_next] gives, answer or exception. *)
Inductive response : Type :=
| Forbidden (message : string)
| Passed.

Definition _is_exempt_ip (cfg : config) (ip : string) : bool :=
  bool_decide (ip ∈ auto_ban_exempt_ips cfg).

(** [_is_ip_banned] and [_ban_ip] when [STORAGE_MODE] is not [file]. *)
Definition _is_ip_banned (ip : string) (_banned_ips : gset string) : bool :=
  if negb (truthy ip) then false else bool_decide (ip ∈ _banned_ips).

Definition _ban_ip (ip : string) (_banned_ips : gset string) : gset string :=
  if negb (truthy ip) then _banned_ips
  else if bool_decide (ip ∈ _banned_ips) then _banned_ips
  else _banned_ips ∪ {[ip]}.

(** The decision of [dispatch], with the set of banned addresses before
    and after. *)
Definition dispatch (cfg : config) (r : request) (_banned_ips : gset string)
  : response * gset string :=
  if _is_ip_banned (client_ip r) _banned_ips then
    (Forbidden "IP blocked", _banned_ips)
  else if auto_ban_unknown_path cfg
          && negb (_is_exempt_ip cfg (client_ip r))
          && negb (known_route r) then
    (Forbidden "IP blocked due invalid path", _ban_ip (client_ip r) _banned_ips)
  else (Passed, _banned_ips).

(** A run of requests, one after the other: the answers and the set of
    banned addresses at the end. *)
Fixpoint serve (cfg : config) (requests : list request) (_banned_ips : gset string)
  : list response * gset string :=
  match requests with
  | [] => ([], _banned_ips)
  | r :: rest =>
      let '(answer, banned) := dispatch cfg r _banned_ips in
      let '(answers, final) := serve cfg rest banned in
      (answer :: answers, final)
  end.

Definition is_forbidden (a : response) : bool :=
  match a with
  | Forbidden _ => true
  | Passed => false
  end.

End ResponseLoggerMiddleware.

(** ** core/auth.py: the limiter of failed logins *)

Module auth.

Definition _LOGIN_MAX_FAILURES : nat := 10.
Definition _LOGIN_WINDOW_SEC : Q := 300%Q.

(** [HTTPException(status_code=..., detail=...)]. *)
Record HTTPException : Type := mk_HTTPException {
  status_code : Z;
  detail : string
}.

(** [t > cutoff]. *)
Definition after (cutoff t : Q) : bool := negb (Qle_bool t cutoff).

(** [check_login_rate_limit(ip)] at the time [now] that [time.time()]
    gives, over the dict [_login_failures]: the attempts kept for [ip], when
    there are any, are trimmed in place to those after the cutoff, and the
    call raises when ten are left. *)
Definition check_login_rate_limit (ip : string) (now : Q)
    (_login_failures : gmap string (list Q))
  : (HTTPException + unit) * gmap string (list Q) :=
  let cutoff := (now - _LOGIN_WINDOW_SEC)%Q in
  match _login_failures !! ip with
  | Some ((_ :: _) as attempts) =>
      let attempts := List.filter (after cutoff) attempts in
      let _login_failures := <[ip := attempts]> _login_failures in
      if (_LOGIN_MAX_FAILURES <=? length attempts)%nat then
        (inl (mk_HTTPException 429
                "Too many login attempts. Please try again later."),
         _login_failures)
      else (inr tt, _login_failures)
  | _ => (inr tt, _login_failures)
  end.

(** [record_login_failure(ip)] at the time [now]: the time is appended, and
    a list of more than twenty is cut down to the attempts after the
    cutoff. *)
Definition record_login_failure (ip : string) (now : Q)
    (_login_failures : gmap string (list Q)) : gmap string (list Q) :=
  let _login_failures :=
    match _login_failures !! ip with
    | None => <[ip := []]> _login_failures
    | Some _ => _login_failures
    end in
  let attempts := (default [] (_login_failures !! ip) ++ [now])%list in
  let _login_failures := <[ip := attempts]> _login_failures in
  if (_LOGIN_MAX_FAILURES * 2 <? length attempts)%nat then
    let cutoff := (now - _LOGIN_WINDOW_SEC)%Q in
    <[ip := List.filter (after cutoff) attempts]> _login_failures
  else _login_failures.

(** The two calls that [admin_login_api] makes: the check on entry, the
    record after wrong credentials. *)
Inductive call : Type :=
| check (ip : string)
| record (ip : string).

(** A history of calls, each with the time its [time.time()] gave, run one
    after the other (the lock serialises them) from a dict. *)
Definition step (_login_failures : gmap string (list Q)) (c : Q * call)
  : gmap string (list Q) :=
  match c with
  | (now, check ip) => snd (check_login_rate_limit ip now _login_failures)
  | (now, record ip) => record_login_failure ip now _login_failures
  end.

Definition run (history : list (Q * call))
    (_login_failures : gmap string (list Q)) : gmap string (list Q) :=
  fold_left step history _login_failures.

(** The times at which a failure was recorded for [ip], in order. *)
Definition failures (ip : string) (history : list (Q * call)) : list Q :=
  omap (fun c => match c with
                 | (now, record ip') => if String.eqb ip' ip then Some now else None
                 | _ => None
                 end) history.

(** The clock never goes back over a history that starts at [last]. *)
Fixpoint ticking (last : Q) (history : list (Q * call)) : bool :=
  match history with
  | [] => true
  | (now, _) :: rest => Qle_bool last now && ticking now rest
  end.

(** The time of the last call of a history that starts at [last]. *)
Fixpoint latest (last : Q) (history : list (Q * call)) : Q :=
  match history with
  | [] => last
  | (now, _) :: rest => latest now rest
  end.

(** The attempts kept for an address. *)
Definition stored (_login_failures : gmap string (list Q)) (ip : string) : list Q :=
  default [] (_login_failures !! ip).

(** The failures of a history that a check at [now] counts. *)
Definition recent (ip : string) (now : Q) (history : list (Q * call)) : nat :=
  length (List.filter (after (now - _LOGIN_WINDOW_SEC)%Q) (failures ip history)).

(** What the dict keeps of a history: for every address, the failures
    after any cutoff that a call from [last] on can use. *)
Definition keeps (st : gmap string (list Q)) (history : list (Q * call))
    (last : Q) : Prop :=
  forall ip c, (last - _LOGIN_WINDOW_SEC <= c)%Q ->
    List.filter (after c) (stored st ip) = List.filter (after c) (failures ip history).

End auth.

(** ** assets.py: fetching a remote resource *)

Module BaseService.

Definition DEFAULT_MIME : string := "application/octet-stream".

(** What the code reads of [urlparse(raw)]: the scheme, the host name and
    the port, the last of which raises a [ValueError] when it is no port. *)
Record parsed : Type := mk_parsed {
  scheme : string;
  hostname : option string;
  port : result (option Z)
}.

(** What the code reads of a response: its status, its [location] and
    [content-type] headers, its body. *)
Record response : Type := mk_response {
  status_code : Z;
  location : option string;
  content_type : option string;
  content : string
}.

(** What [session.get] yields. *)
Inductive get_reply : Type :=
| GetRaised (e : exn)
| GetResponse (r : response).

(** [s.split(c)] for a one-character separator. *)
Fixpoint split (c : ascii) (s : string) : list string :=
  match s with
  | EmptyString => [EmptyString]
  | String c' rest =>
      if Ascii.eqb c' c then EmptyString :: split c rest
      else match split c rest with
           | h :: t => String c' h :: t
           | [] => [String c' EmptyString]
           end
  end.

Definition is_redirect (status : Z) : bool :=
  bool_decide (status ∈ [301; 302; 303; 307; 308]).

Section Fetch.

(** The library: [str.strip], [str.lower], [urlparse], [urljoin],
    [ipaddress.ip_address] ([None] for its [ValueError]) with [is_global],
    [socket.getaddrinfo] giving for each entry the address of its socket
    address when it has one, [base64.b64encode]; the configuration
    [security.allow_private_fetch]; and the network, which answers the
    [n]-th request of a fetch. *)
Context {IP : Type}.
Variable strip : string -> string.
Variable lower : string -> string.
Variable urlparse : string -> result parsed.
Variable urljoin : string -> string -> string.
Variable ip_address : string -> option IP.
Variable is_global : IP -> bool.
Variable getaddrinfo : string -> Z -> result (list (option string)).
Variable b64encode : string -> string.
Variable _allow_private_fetch : bool.
Variable get : nat -> string -> get_reply.

Definition _is_allowed_ip (ip : IP) : bool :=
  _allow_private_fetch || is_global ip.

(** The addresses of the entries that [getaddrinfo] gave; the entries
    without an address, or with one that is no IP address, are skipped. *)
Definition resolved (infos : list (option string)) : list IP :=
  omap (fun info => match info with
                    | Some addr => ip_address addr
                    | None => None
                    end) infos.

(** [_validate_fetch_url(url)]. *)
Definition _validate_fetch_url (url : string) : result string :=
  let raw := strip url in
  if negb (truthy raw) then Raise (ValidationException "Invalid URL: empty")
  else
    match urlparse raw with
    | Raise e => Raise e
    | Return parsed =>
        if negb (bool_decide (scheme parsed ∈ ["http"; "https"])) then
          Raise (ValidationException "Only http/https URLs are allowed")
        else
          let host := strip (default EmptyString (hostname parsed)) in
          if negb (truthy host) then
            Raise (ValidationException "Invalid URL: missing host")
          else if String.eqb (lower host) "localhost" then
            Raise (ValidationException "Localhost URLs are not allowed")
          else
            match ip_address host with
            | Some ip =>
                if negb (_is_allowed_ip ip) then
                  Raise (ValidationException "URL host is not a public IP")
                else Return raw
            | None =>
                match port parsed with
                | Raise e => Raise e
                | Return p =>
                    let port :=
                      match p with
                      | Some n => if n =? 0 then
                                    (if String.eqb (scheme parsed) "https" then 443 else 80)
                                  else n
                      | None => if String.eqb (scheme parsed) "https" then 443 else 80
                      end in
                    match getaddrinfo host port with
                    | Raise e =>
                        if is_Exception e then
                          Raise (ValidationException
                                   "Invalid URL: unable to resolve host")
                        else Raise e
                    | Return infos =>
                        match resolved infos with
                        | [] => Raise (ValidationException
                                         "Invalid URL: unable to resolve host")
                        | ips =>
                            if forallb _is_allowed_ip ips then Return raw
                            else Raise (ValidationException
                                          "URL resolves to a non-public IP")
                        end
                    end
                end
            end
    end.

(** The loop of [fetch] with [n] rounds left: the URL and the response it
    ends with, and the requests made, each with its reply. *)
Fixpoint follow (n : nat) (current : string) (last : option response)
    (log : list (string * get_reply))
  : result (string * option response) * list (string * get_reply) :=
  match n with
  | O => (Return (current, last), log)
  | S n' =>
      let reply := get (length log) current in
      let log := (log ++ [(current, reply)])%list in
      match reply with
      | GetRaised e => (Raise e, log)
      | GetResponse r =>
          if is_redirect (status_code r) then
            match location r with
            | Some ((String _ _) as loc) =>
                match _validate_fetch_url (urljoin current loc) with
                | Raise e => (Raise e, log)
                | Return next => follow n' next (Some r) log
                end
            | _ =>
                (Raise (UpstreamException
                          ("Failed to fetch resource: " ++ str_Z (status_code r))
                          (Some (status_code r))), log)
            end
          else (Return (current, Some r), log)
      end
  end.

(** [current.split('/')[-1].split('?')[0] or 'download']. *)
Definition filename_of (current : string) : string :=
  let name := hd EmptyString (split "?" (List.last (split "/" current) EmptyString)) in
  if truthy name then name else "download".

(** The [try] block of [fetch]. *)
Definition attempt (url : string)
  : result (string * string * string) * list (string * get_reply) :=
  match _validate_fetch_url url with
  | Raise e => (Raise e, [])
  | Return current =>
      match follow 4 current None [] with
      | (Raise e, log) => (Raise e, log)
      | (Return (_, None), log) =>
          (Raise (UpstreamException "Failed to fetch resource" None), log)
      | (Return (current, Some r), log) =>
          if 400 <=? status_code r then
            (Raise (UpstreamException
                      ("Failed to fetch resource: " ++ str_Z (status_code r))
                      (Some (status_code r))), log)
          else
            (Return (filename_of current,
                     b64encode (content r),
                     hd EmptyString
                        (split ";" (default DEFAULT_MIME (content_type r)))),
             log)
      end
  end.

(** [BaseService.fetch]: [(filename, b64, content_type)], every
    [Exception] that is no [AppException] wrapped. *)
Definition fetch (url : string)
  : result (string * string * string) * list (string * get_reply) :=
  match attempt url with
  | (Return r, log) => (Return r, log)
  | (Raise e, log) =>
      if is_Exception e then
        if is_AppException e then (Raise e, log)
        else (Raise (UpstreamException
                       ("Resource fetch failed: " ++ str_exn e) None), log)
      else (Raise e, log)
  end.

(** The addresses that the host of a URL stands for: the host itself when
    it is an IP address, what it resolves to otherwise. *)
Definition addresses (raw : string) : list IP :=
  match urlparse raw with
  | Raise _ => []
  | Return parsed =>
      let host := strip (default EmptyString (hostname parsed)) in
      match ip_address host with
      | Some ip => [ip]
      | None =>
          match port parsed with
          | Raise _ => []
          | Return p =>
              let port :=
                match p with
                | Some n => if n =? 0 then
                              (if String.eqb (scheme parsed) "https" then 443 else 80)
                            else n
                | None => if String.eqb (scheme parsed) "https" then 443 else 80
                end in
              match getaddrinfo host port with
              | Raise _ => []
              | Return infos => resolved infos
              end
          end
      end
  end.

(** The scheme of a URL, when it parses. *)
Definition scheme_of (raw : string) : option string :=
  match urlparse raw with
  | Raise _ => None
  | Return parsed => Some (scheme parsed)
  end.

(** The host of a URL, when it parses. *)
Definition host_of (raw : string) : option string :=
  match urlparse raw with
  | Raise _ => None
  | Return parsed => Some (strip (default EmptyString (hostname parsed)))
  end.

(** The requests of a fetch, from the [k]-th on: each asks for the
    current URL and holds what the network answered; a further request
    follows only a redirect with a location, and asks for what
    [_validate_fetch_url] made of that location joined to the URL before. *)
Fixpoint chain (k : nat) (current : string) (requests : list (string * get_reply))
  : Prop :=
  match requests with
  | [] => True
  | (u, reply) :: rest =>
      u = current /\ reply = get k current
      /\ match rest with
         | [] => True
         | (next, _) :: _ =>
             (exists r loc,
                 reply = GetResponse r
                 /\ is_redirect (status_code r) = true
                 /\ location r = Some loc
                 /\ _validate_fetch_url (urljoin current loc) = Return next)
             /\ chain (S k) next rest
         end
  end.

(** A URL of scheme http or https whose host is not [localhost] and is,
    or resolves to, global addresses only, and to one at least. *)
Definition public (raw : string) : Prop :=
  (exists s, scheme_of raw = Some s /\ (s = "http" \/ s = "https"))
  /\ (exists h, host_of raw = Some h /\ h <> EmptyString /\ lower h <> "localhost")
  /\ addresses raw <> []
  /\ forallb is_global (addresses raw) = true.

End Fetch.

End BaseService.

(** ** tests/test_asset_fetch_ssrf.py: the library and the network of the tests *)

Module test_asset_fetch_ssrf.

Import BaseService.

(** The addresses of the tests: the two literal hosts, and the one that
    [_fake_getaddrinfo] gives. *)
Inductive address : Type :=
| Loopback
| Private
| Public.

(** [urlparse] on the URLs of the tests. *)
Definition urlparse (raw : string) : result parsed :=
  if String.eqb raw "http://127.0.0.1/secret" then
    Return (mk_parsed "http" (Some "127.0.0.1") (Return None))
  else if String.eqb raw "http://example.internal/a.png" then
    Return (mk_parsed "http" (Some "example.internal") (Return None))
  else if String.eqb raw "https://1.1.1.1/file.txt" then
    Return (mk_parsed "https" (Some "1.1.1.1") (Return None))
  else Raise (ValueError "not a URL of the tests").

Definition ip_address (host : string) : option address :=
  if String.eqb host "127.0.0.1" then Some Loopback
  else if String.eqb host "10.0.0.10" then Some Private
  else if String.eqb host "1.1.1.1" then Some Public
  else None.

Definition is_global (ip : address) : bool :=
  match ip with
  | Public => true
  | _ => false
  end.

Definition _fake_getaddrinfo (host : string) (port : Z)
  : result (list (option string)) :=
  if String.eqb host "example.internal" then Return [Some "10.0.0.10"]
  else Raise (OtherException "AssertionError").

(** [_NoNetworkSession.get] and [_FakeSession.get]. *)
Definition _NoNetworkSession (n : nat) (url : string) : get_reply :=
  GetRaised (OtherException "AssertionError").

Definition _FakeSession (resp : response) (n : nat) (url : string) : get_reply :=
  GetResponse resp.

(** [fetch] as the tests run it: the URLs have no space around them and
    no upper case, private fetches are off. *)
Definition fetch (get : nat -> string -> get_reply) (url : string)
  : result (string * string * string) * list (string * get_reply) :=
  BaseService.fetch (fun s => s) (fun s => s) urlparse (fun _ loc => loc)
    ip_address is_global _fake_getaddrinfo (fun content => content) false get url.

End test_asset_fetch_ssrf.

(** ** assets.py: the local cache of the download service *)

Module DownloadService.

(** The file name of [_cache_path(file_path, media_type)] inside its
    directory: [file_path.lstrip('/').replace('/', '-')]. *)
Definition _cache_path (file_path : string) : string :=
  files.replace files.SLASH files.DASH (files.lstrip files.SLASH file_path).

(** An entry of [all_files]: [(f, stat.st_mtime, stat.st_size)]. *)
Record entry : Type := mk_entry {
  f : string;
  st_mtime : Q;
  st_size : Z
}.





Section Cleanup.

(** Whether [f.unlink()] deletes the file or raises; and the product
    [limit_mb * 0.8] as the floats give it. *)
Variable unlink : entry -> bool.
Variable times_0_8 : Q -> Q.



End Cleanup.


End DownloadService.
(** ** assets.py: listing the assets of an account *)

(** What [session.get] on the list endpoint yields: an exception, or a
    response with its status and, read as JSON, its [assets] and its
    [nextPageToken]. *)
Inductive list_reply (A : Type) : Type :=
| ListRaised (e : exn)
| ListResponse (status_code : Z) (json : result (list A * option string)).
Arguments ListRaised {A} e.
Arguments ListResponse {A} status_code json.

(** How the generator [iter_assets] ends: the last page had no next
    token, a page token came back a second time, an exception left it, or
    the rounds allowed to the model were used up. *)
Inductive iter_end : Type :=
| Finished
| Repeated
| IterRaised (e : exn)
| Unfinished.

Module ListService.

Section Listing.

Context {A : Type}.

(** The network: the answer to the [n]-th request of a listing, made
    with or without a [pageToken]. *)
Variable get : nat -> option string -> list_reply A.

(** [iter_assets] with [fuel] rounds of its [while True] left: the pages
    yielded, the [pageToken] of each request made, and how it ends. *)
Fixpoint iter_assets (fuel : nat) (page_token : option string)
    (seen_tokens : gset string) (requests : list (option string))
    (pages : list (list A))
  : list (list A) * list (option string) * iter_end :=
  match fuel with
  | O => (pages, requests, Unfinished)
  | S fuel' =>
      let repeated :=
        match page_token with
        | Some t => bool_decide (t ∈ seen_tokens)
        | None => false
        end in
      if repeated then (pages, requests, Repeated)
      else
        let seen_tokens :=
          match page_token with
          | Some t => seen_tokens ∪ {[t]}
          | None => seen_tokens
          end in
        let reply := get (length requests) page_token in
        let requests := (requests ++ [page_token])%list in
        match reply with
        | ListRaised e => (pages, requests, IterRaised e)
        | ListResponse status_code json =>
            if negb (status_code =? 200) then
              (pages, requests,
               IterRaised (UpstreamException
                             ("List assets failed: " ++ str_Z status_code)
                             (Some status_code)))
            else
              match json with
              | Raise e => (pages, requests, IterRaised e)
              | Return (page_assets, next) =>
                  let pages := (pages ++ [page_assets])%list in
                  match next with
                  | Some ((String _ _) as t) =>
                      iter_assets fuel' (Some t) seen_tokens requests pages
                  | _ => (pages, requests, Finished)
                  end
              end
        end
  end.

(** What the [except] clause of [list] and of [count] makes of an
    exception. *)
Definition wrapped {B : Type} (e : exn) : result B :=
  if is_Exception e then
    if is_AppException e then Raise e
    else Raise (UpstreamException ("List assets error: " ++ str_exn e) None)
  else Raise e.

(** [ListService.list] and [ListService.count]; [None] when the rounds
    allowed were used up. *)
Definition list (fuel : nat) : option (result (list A)) :=
  match iter_assets fuel None ∅ [] [] with
  | (_, _, Unfinished) => None
  | (_, _, IterRaised e) => Some (wrapped e)
  | (pages, _, _) => Some (Return (concat pages))
  end.

Definition count (fuel : nat) : option (result nat) :=
  match iter_assets fuel None ∅ [] [] with
  | (_, _, Unfinished) => None
  | (_, _, IterRaised e) => Some (wrapped e)
  | (pages, _, _) => Some (Return (foldl (fun total page => total + length page)%nat 0%nat pages))
  end.

(** Every page token that the endpoint ever hands out lies in [T]. *)
Definition tokens_within (T : gset string) : Prop :=
  forall n param status_code page next,
    get n param = ListResponse status_code (Return (page, Some next)) -> next ∈ T.

End Listing.

End ListService.

(** * Properties *)

Open Scope list_scope.

(** ** The usage cooldown *)

Section CooldownFacts.

Import usage.

Lemma remaining_positive_iff (cooldown_until now : Q) :
  Qle_bool (_get_sync_cooldown_remaining cooldown_until now) 0 = false
  <-> (now < cooldown_until)%Q.
Proof.
  unfold _get_sync_cooldown_remaining. split.
  - intros Hb.
    destruct (Qlt_le_dec now cooldown_until) as [Hlt | Hle]; [exact Hlt |].
    assert (Hmax : (Qmax 0 (cooldown_until - now) <= 0)%Q).
    { apply Q.max_lub; lra. }
    apply Qle_bool_iff in Hmax. congruence.
  - intros Hlt.
    destruct (Qle_bool (Qmax 0 (cooldown_until - now)) 0) eqn:Hb; [| reflexivity].
    apply Qle_bool_iff in Hb.
    pose proof (Q.le_max_r 0 (cooldown_until - now)) as Hr. lra.
Qed.

Lemma arm_other_status status_code cfg now cooldown_until :
  status_code <> 404 ->
  _arm_sync_cooldown status_code cfg now cooldown_until = cooldown_until.
Proof.
  intros Hne. unfold _arm_sync_cooldown.
  destruct (Z.eqb_spec status_code 404) as [-> | _]; [contradiction | reflexivity].
Qed.

Lemma arm_cases status_code cfg now cooldown_until :
  _arm_sync_cooldown status_code cfg now cooldown_until = cooldown_until
  \/ (status_code = 404
      /\ 0 < _get_sync_backoff_seconds cfg
      /\ (cooldown_until < now + inject_Z (_get_sync_backoff_seconds cfg))%Q
      /\ _arm_sync_cooldown status_code cfg now cooldown_until
         = (now + inject_Z (_get_sync_backoff_seconds cfg))%Q).
Proof.
  unfold _arm_sync_cooldown.
  destruct (Z.eqb_spec status_code 404) as [-> | Hne]; simpl; [| now left].
  destruct (Z.leb_spec (_get_sync_backoff_seconds cfg) 0) as [Hle | Hgt]; [now left |].
  destruct (Qle_bool (now + inject_Z (_get_sync_backoff_seconds cfg)) cooldown_until)
    eqn:Hb; [now left |].
  right. repeat split; try assumption.
  apply Qnot_le_lt. intros Hle. apply Qle_bool_iff in Hle. congruence.
Qed.

Lemma arm_monotone status_code cfg now cooldown_until :
  (cooldown_until <= _arm_sync_cooldown status_code cfg now cooldown_until)%Q.
Proof.
  destruct (arm_cases status_code cfg now cooldown_until)
    as [-> | (_ & _ & Hlt & ->)]; lra.
Qed.

Lemma arm_all_monotone cfg attempts cooldown_until :
  (cooldown_until <= arm_all cfg attempts cooldown_until)%Q.
Proof.
  unfold arm_all. revert cooldown_until.
  induction attempts as [| a attempts IH]; intros cooldown_until; simpl.
  - lra.
  - eapply Qle_trans; [apply (arm_monotone (fst a) cfg (snd a)) | apply IH].
Qed.

Lemma arm_404_covers cfg now cooldown_until :
  0 < _get_sync_backoff_seconds cfg ->
  (now + inject_Z (_get_sync_backoff_seconds cfg)
   <= _arm_sync_cooldown 404 cfg now cooldown_until)%Q.
Proof.
  intros Hpos. unfold _arm_sync_cooldown. simpl.
  destruct (Z.leb_spec (_get_sync_backoff_seconds cfg) 0) as [Hle | _]; [lia |].
  destruct (Qle_bool (now + inject_Z (_get_sync_backoff_seconds cfg)) cooldown_until)
    eqn:Hb.
  - now apply Qle_bool_iff.
  - lra.
Qed.

Section Runs.

Variable post : nat -> string -> string -> http_reply.
Variables token model_name : string.

(** One run of the request function posts once, never moves the deadline
    back, and arms the cooldown when it raises the error of a 404. *)
Lemma do_request_run (w : world) :
  let out := do_request post token model_name w in
  posted (snd out) = S (posted w)
  /\ usage_sync_backoff_seconds (snd out) = usage_sync_backoff_seconds w
  /\ (_USAGE_SYNC_COOLDOWN_UNTIL w <= _USAGE_SYNC_COOLDOWN_UNTIL (snd out))%Q
  /\ (forall message,
        fst out = Raise (UpstreamException message (Some 404)) ->
        exists json elapsed,
          post (posted w) token model_name = HttpResponse 404 json elapsed
          /\ snd out = arm 404 (after_post elapsed w)).
Proof.
  cbv zeta. unfold do_request.
  destruct (post (posted w) token model_name) as [status_code json elapsed | error elapsed].
  2:{ cbn. repeat split; try lra. intros message [=]. }
  destruct (Z.eqb_spec status_code 200) as [-> | H200].
  { destruct json; cbn; repeat split; try lra; intros message [=]. }
  destruct (Z.eqb_spec status_code 404) as [-> | H404]; cbn [fst snd].
  - unfold arm, after_post.
    cbn [posted usage_sync_backoff_seconds _USAGE_SYNC_COOLDOWN_UNTIL clock].
    repeat split; [apply arm_monotone |].
    intros message _. exists json, elapsed. split; reflexivity.
  - cbn. repeat split; try lra. intros message [= _ Hs]. contradiction.
Qed.

(** However often a retry helper runs the request function, it posts at
    least once, keeps the configuration, and never moves the deadline
    back. *)
Lemma retries_run (w : world) (out : result usage_data * world) :
  retries (do_request post token model_name) w out ->
  (posted w < posted (snd out))%nat
  /\ usage_sync_backoff_seconds (snd out) = usage_sync_backoff_seconds w
  /\ (_USAGE_SYNC_COOLDOWN_UNTIL w <= _USAGE_SYNC_COOLDOWN_UNTIL (snd out))%Q.
Proof.
  induction 1 as [w | w w1 e delay out Hrun _ IH].
  - destruct (do_request_run w) as (Hposted & Hcfg & Hmono & _).
    rewrite Hposted. repeat split; [lia | exact Hcfg | exact Hmono].
  - destruct (do_request_run w) as (Hposted & Hcfg & Hmono & _).
    rewrite Hrun in Hposted, Hcfg, Hmono. cbn [snd] in *.
    destruct IH as (IHposted & IHcfg & IHmono). cbn [sleep posted
      usage_sync_backoff_seconds _USAGE_SYNC_COOLDOWN_UNTIL] in *.
    repeat split; [lia | congruence | lra].
Qed.

(** The outcome of a retry helper is that of a run of the request
    function: when it is the error of a 404, the cooldown was armed at
    the time the helper ends. *)
Lemma retries_last_404 (w : world) (out : result usage_data * world) (message : string) :
  retries (do_request post token model_name) w out ->
  0 < _get_sync_backoff_seconds (usage_sync_backoff_seconds w) ->
  fst out = Raise (UpstreamException message (Some 404)) ->
  (clock (snd out)
   + inject_Z (_get_sync_backoff_seconds (usage_sync_backoff_seconds w))
   <= _USAGE_SYNC_COOLDOWN_UNTIL (snd out))%Q.
Proof.
  induction 1 as [w | w w1 e delay out Hrun _ IH]; intros Hpos Hout.
  - destruct (do_request_run w) as (_ & _ & _ & Harm).
    destruct (Harm message Hout) as (json & elapsed & _ & ->).
    cbn. apply arm_404_covers. exact Hpos.
  - destruct (do_request_run w) as (_ & Hcfg & _).
    rewrite Hrun in Hcfg. cbn [snd] in Hcfg.
    cbn [sleep usage_sync_backoff_seconds] in IH. rewrite Hcfg in IH.
    exact (IH Hpos Hout).
Qed.

(** Against an endpoint that answers 404 to everything, a retry helper
    ends with the error of a 404. *)
Lemma retries_always_404 (w : world) (out : result usage_data * world) :
  (forall n, exists json elapsed,
      post n token model_name = HttpResponse 404 json elapsed) ->
  retries (do_request post token model_name) w out ->
  fst out = Raise (UpstreamException "Failed to get usage stats: 404" (Some 404)).
Proof.
  intros Halways. induction 1 as [w | w w1 e delay out _ _ IH]; [| exact IH].
  unfold do_request. destruct (Halways (posted w)) as (json & elapsed & ->).
  reflexivity.
Qed.

End Runs.

End CooldownFacts.

(** C6: a 404 answer of the quota endpoint arms the process-wide cooldown
    for the configured duration: the query raises the upstream error, the
    stored deadline lies at least the configured number of seconds after
    the time of arming, and every query issued while the deadline is ahead
    of the clock ([UsageService.get], with or without retry) returns the
    empty result in an unchanged world, so without posting anything.  On
    the default path, where the request runs under [retry_on_status], the
    same holds of every retry helper: the query posts, a 404 answer to its
    first request arms the cooldown from the time of that answer, whatever
    the helper does afterwards; a query that ends with the error of a 404
    leaves the cooldown armed from the time it ends; and against an
    endpoint that answers 404 to everything the query ends with that
    error. *)
Theorem quota_404_arms_cooldown_and_get_skips_remote
    (post : nat -> string -> string -> http_reply)
    (retry_on_status :
       Eff usage.world usage_data -> (exn -> option Z) -> Eff usage.world usage_data)
    (token model_name : string) (w : usage.world) :
  (forall json elapsed,
      post (usage.posted w) token model_name = HttpResponse 404 json elapsed ->
      0 < usage._get_sync_backoff_seconds (usage.usage_sync_backoff_seconds w) ->
      (usage._USAGE_SYNC_COOLDOWN_UNTIL w <= usage.clock w)%Q ->
      let ttl := usage._get_sync_backoff_seconds (usage.usage_sync_backoff_seconds w) in
      let out := usage.get post retry_on_status token model_name false w in
      let w' := snd out in
      fst out = Raise (UpstreamException "Failed to get usage stats: 404" (Some 404))
      /\ usage.posted w' = S (usage.posted w)
      /\ (usage.clock w' + inject_Z ttl <= usage._USAGE_SYNC_COOLDOWN_UNTIL w')%Q
      /\ forall (t : Q) (retry : bool) (token' model_name' : string),
          (t < usage.clock w' + inject_Z ttl)%Q ->
          let later :=
            usage.mk_world t (usage._USAGE_SYNC_COOLDOWN_UNTIL w')
              (usage.usage_sync_backoff_seconds w') (usage.posted w') in
          usage.get post retry_on_status token' model_name' retry later
          = (Return [], later))
  /\ ((forall f extract_status v,
          usage.retries f v (retry_on_status f extract_status v)) ->
      0 < usage._get_sync_backoff_seconds (usage.usage_sync_backoff_seconds w) ->
      (usage._USAGE_SYNC_COOLDOWN_UNTIL w <= usage.clock w)%Q ->
      let ttl := usage._get_sync_backoff_seconds (usage.usage_sync_backoff_seconds w) in
      let out := usage.get post retry_on_status token model_name true w in
      let w' := snd out in
      let skipped_until (deadline : Q) :=
        forall (t : Q) (retry : bool) (token' model_name' : string),
          (t < deadline)%Q ->
          let later :=
            usage.mk_world t (usage._USAGE_SYNC_COOLDOWN_UNTIL w')
              (usage.usage_sync_backoff_seconds w') (usage.posted w') in
          usage.get post retry_on_status token' model_name' retry later
          = (Return [], later) in
      (usage.posted w < usage.posted w')%nat
      /\ (forall json elapsed,
            post (usage.posted w) token model_name = HttpResponse 404 json elapsed ->
            (usage.clock w + elapsed + inject_Z ttl
             <= usage._USAGE_SYNC_COOLDOWN_UNTIL w')%Q
            /\ skipped_until (usage.clock w + elapsed + inject_Z ttl)%Q)
      /\ (forall message,
            fst out = Raise (UpstreamException message (Some 404)) ->
            (usage.clock w' + inject_Z ttl <= usage._USAGE_SYNC_COOLDOWN_UNTIL w')%Q
            /\ skipped_until (usage.clock w' + inject_Z ttl)%Q)
      /\ ((forall n, exists json elapsed,
              post n token model_name = HttpResponse 404 json elapsed) ->
          fst out
          = Raise (UpstreamException "Failed to get usage stats: 404" (Some 404))))
  /\ (forall retry,
         (usage.clock w < usage._USAGE_SYNC_COOLDOWN_UNTIL w)%Q ->
         usage.get post retry_on_status token model_name retry w = (Return [], w)).
Proof.
  assert (Hskip : forall tok mdl retry (v : usage.world),
             (usage.clock v < usage._USAGE_SYNC_COOLDOWN_UNTIL v)%Q ->
             usage.get post retry_on_status tok mdl retry v = (Return [], v)).
  { intros tok mdl retry v Hlt. unfold usage.get.
    apply remaining_positive_iff in Hlt. rewrite Hlt. reflexivity. }
  split; [| split; [| intros retry; apply Hskip]].
  - intros json elapsed Hpost Hpos Hidle ttl out w'.
    assert (Hrun : out
                   = (Raise (UpstreamException "Failed to get usage stats: 404" (Some 404)),
                      usage.arm 404 (usage.after_post elapsed w))).
    { subst out. unfold usage.get.
      destruct (Qle_bool
                  (usage._get_sync_cooldown_remaining
                     (usage._USAGE_SYNC_COOLDOWN_UNTIL w) (usage.clock w)) 0) eqn:Hb.
      - simpl. unfold usage.do_request. rewrite Hpost. reflexivity.
      - apply remaining_positive_iff in Hb. lra. }
    subst w'. rewrite Hrun. simpl.
    assert (Hcover :
              (usage.clock w + elapsed + inject_Z ttl
               <= usage._arm_sync_cooldown 404 (usage.usage_sync_backoff_seconds w)
                    (usage.clock w + elapsed) (usage._USAGE_SYNC_COOLDOWN_UNTIL w))%Q).
    { apply arm_404_covers. exact Hpos. }
    repeat split; try assumption.
    intros t retry token' model_name' Ht.
    apply Hskip. simpl. lra.
  - intros Hretry Hpos Hidle ttl out w' skipped_until.
    assert (Hout : usage.retries (usage.do_request post token model_name) w out).
    { subst out. unfold usage.get.
      destruct (Qle_bool
                  (usage._get_sync_cooldown_remaining
                     (usage._USAGE_SYNC_COOLDOWN_UNTIL w) (usage.clock w)) 0) eqn:Hb.
      - cbn [negb]. apply Hretry.
      - apply remaining_positive_iff in Hb. lra. }
    assert (Hlater : forall deadline : Q,
               (deadline <= usage._USAGE_SYNC_COOLDOWN_UNTIL w')%Q ->
               skipped_until deadline).
    { intros deadline Hle t retry token' model_name' Ht later.
      apply Hskip. subst later. cbn. lra. }
    destruct (retries_run post token model_name w out Hout) as (Hposted & Hcfg & Hmono).
    split; [exact Hposted |]. split; [| split].
    + intros json elapsed Hpost.
      assert (Hfirst :
                (usage.clock w + elapsed + inject_Z ttl
                 <= usage._USAGE_SYNC_COOLDOWN_UNTIL w')%Q).
      { inversion Hout as [v Hv Hlast | v w1 e delay out0 Hrun Hrest Hv Hout0].
        - subst w'. rewrite <- Hlast. unfold usage.do_request. rewrite Hpost.
          cbn. apply arm_404_covers. exact Hpos.
        - unfold usage.do_request in Hrun. rewrite Hpost in Hrun. cbn in Hrun.
          injection Hrun as _ <-.
          destruct (retries_run post token model_name _ _ Hrest) as (_ & _ & Hkeep).
          cbn in Hkeep. subst w'.
          eapply Qle_trans; [| exact Hkeep].
          apply arm_404_covers. exact Hpos. }
      split; [exact Hfirst | exact (Hlater _ Hfirst)].
    + intros message Hraised.
      pose proof (retries_last_404 post token model_name w out message Hout Hpos Hraised)
        as Hlast.
      split; [exact Hlast | exact (Hlater _ Hlast)].
    + intros Halways. exact (retries_always_404 post token model_name w out Halways Hout).
Qed.

Lemma quota_404_arms_cooldown_and_get_skips_remote_witness :
  let post := fun (_ : nat) (_ _ : string) => HttpResponse 404 (Some []) 1 in
  let retry :=
    fun (f : Eff usage.world usage_data) (_ : exn -> option Z) (v : usage.world) =>
      match f v with
      | (Raise _, v1) => f (usage.sleep 2 v1)
      | done => done
      end in
  let w := usage.mk_world 1000 0 (CfgInt 60) 0 in
  let armed := usage.mk_world 1030 1061 (CfgInt 60) 1 in
  snd (usage.get post retry "tok-demo" "grok-3" false w)
  = usage.mk_world 1001 1061 (CfgInt 60) 1
  /\ usage.get post retry "tok-demo" "grok-3" true armed = (Return [], armed)
  /\ usage.get post retry "tok-demo" "grok-3" true w
     = (Raise (UpstreamException "Failed to get usage stats: 404" (Some 404)),
        usage.mk_world 1004 1064 (CfgInt 60) 2)
  /\ (usage.clock (snd (usage.get post retry "tok-demo" "grok-3" true w)) + 60
      <= usage._USAGE_SYNC_COOLDOWN_UNTIL
           (snd (usage.get post retry "tok-demo" "grok-3" true w)))%Q.
Proof.
  intros post retry w armed.
  destruct (quota_404_arms_cooldown_and_get_skips_remote post retry
              "tok-demo" "grok-3" w) as (Harm & Hdefault & _).
  destruct (Harm (Some []) 1%Q eq_refl) as (_ & _ & _ & Hlater).
  - reflexivity.
  - vm_compute. discriminate.
  - split; [reflexivity |].
    split; [apply (Hlater 1030%Q true "tok-demo" "grok-3"); reflexivity |].
    split; [vm_compute; reflexivity |].
    destruct Hdefault as (_ & _ & Hlast & _).
    + intros f extract_status v. subst retry. cbv beta.
      destruct (f v) as [[data | e] v1] eqn:Hrun.
      * rewrite <- Hrun. apply usage.retries_last.
      * eapply usage.retries_again; [exact Hrun | apply usage.retries_last].
    + reflexivity.
    + vm_compute. discriminate.
    + destruct (Hlast "Failed to get usage stats: 404"%string) as [Hcover _].
      * vm_compute. reflexivity.
      * exact Hcover.
Defined.

(** C10: the usage-sync cooldown is armed by the status 404 alone; a
    configured back-off of zero or less never arms it; an attempt whose new
    deadline is not later than the stored one leaves it unchanged; and the
    stored deadline never decreases, over one arming or over any run of
    armings committed in any order. *)
Theorem cooldown_armed_only_by_404_and_never_shortened
    (status_code : Z) (cfg : config_value) (now cooldown_until : Q) :
  let armed := usage._arm_sync_cooldown status_code cfg now cooldown_until in
  (status_code <> 404 -> armed = cooldown_until)
  /\ (armed <> cooldown_until ->
      status_code = 404
      /\ armed = (now + inject_Z (usage._get_sync_backoff_seconds cfg))%Q)
  /\ (forall z, z <= 0 ->
        usage._arm_sync_cooldown status_code (CfgInt z) now cooldown_until
        = cooldown_until)
  /\ ((now + inject_Z (usage._get_sync_backoff_seconds cfg) <= cooldown_until)%Q ->
      armed = cooldown_until)
  /\ (cooldown_until <= armed)%Q
  /\ (forall attempts : list (Z * Q),
        (cooldown_until <= usage.arm_all cfg attempts cooldown_until)%Q).
Proof.
  intros armed. subst armed.
  pose proof (arm_cases status_code cfg now cooldown_until) as Hcases.
  repeat split.
  - apply arm_other_status.
  - destruct Hcases as [Heq | (H404 & _ & _ & _)]; [congruence | exact H404].
  - destruct Hcases as [Heq | (_ & _ & _ & Heq)]; [congruence | exact Heq].
  - intros z Hz.
    destruct (arm_cases status_code (CfgInt z) now cooldown_until)
      as [Heq | (_ & Hpos & _)]; [exact Heq |].
    unfold usage._get_sync_backoff_seconds in Hpos. lia.
  - intros Hle. destruct Hcases as [Heq | (_ & _ & Hlt & _)]; [exact Heq | lra].
  - apply arm_monotone.
  - intros attempts. apply arm_all_monotone.
Qed.

Lemma cooldown_armed_only_by_404_and_never_shortened_witness :
  usage._arm_sync_cooldown 500 (CfgInt 60) 1000 0 = 0%Q
  /\ usage._arm_sync_cooldown 404 (CfgInt 0) 1000 0 = 0%Q
  /\ usage._arm_sync_cooldown 404 (CfgInt 60) 1000 2000 = 2000%Q.
Proof.
  split; [| split].
  - destruct (cooldown_armed_only_by_404_and_never_shortened 500 (CfgInt 60) 1000 0)
      as [Hother _].
    apply Hother. lia.
  - destruct (cooldown_armed_only_by_404_and_never_shortened 404 (CfgInt 60) 1000 0)
      as (_ & _ & Hzero & _).
    apply Hzero. lia.
  - destruct (cooldown_armed_only_by_404_and_never_shortened 404 (CfgInt 60) 1000 2000)
      as (_ & _ & _ & Hkeep & _).
    apply Hkeep. vm_compute. discriminate.
Defined.

(** ** The stream wrapper *)

Section StreamFacts.

Context {M T RID Response Chunk Aggregate : Type}.
Variable D : collaborators M T RID Response Chunk Aggregate.

Lemma drain_spec (chunks : list Chunk) (ending : option exn) (c : consumer)
    (i : nat) (w : world M T RID Chunk) :
  drain chunks ending c i w
  = match c with
    | ReadAll =>
        (match ending with None => Return tt | Some e => Raise e end,
         mk_chat_world (mgr w) (stats w) (log w ++ (EvYield <$> chunks))
           (upstream_calls w))
    | ThrowAt n e =>
        if ((i <=? n) && (n <? i + length chunks))%nat then
          (Raise e,
           mk_chat_world (mgr w) (stats w)
             (log w ++ (EvYield <$> take (S (n - i)) chunks))
             (upstream_calls w))
        else
          (match ending with None => Return tt | Some e' => Raise e' end,
           mk_chat_world (mgr w) (stats w) (log w ++ (EvYield <$> chunks))
             (upstream_calls w))
    end.
Proof.
  revert i w. induction chunks as [| chunk rest IH]; intros i w.
  - cbn [drain length fmap list_fmap]. rewrite app_nil_r.
    destruct w as [m s l u]; cbn [mgr stats log upstream_calls].
    destruct c as [| n e]; [destruct ending; reflexivity |].
    destruct (Nat.leb_spec i n), (Nat.ltb_spec n (i + 0)); cbn [andb]; try lia;
      destruct ending; reflexivity.
  - cbn [drain length]. unfold emit; cbn [mgr stats log upstream_calls].
    destruct c as [| n e].
    + rewrite IH; cbn [mgr stats log upstream_calls].
      rewrite fmap_cons, <- app_assoc. reflexivity.
    + destruct (Nat.eqb_spec n i) as [-> | Hne].
      * destruct (Nat.leb_spec i i), (Nat.ltb_spec i (i + S (length rest)));
          cbn [andb]; try lia.
        rewrite Nat.sub_diag. reflexivity.
      * rewrite IH; cbn [mgr stats log upstream_calls].
        destruct (Nat.leb_spec (S i) n), (Nat.ltb_spec n (S i + length rest)),
          (Nat.leb_spec i n), (Nat.ltb_spec n (i + S (length rest)));
          cbn [andb]; try lia;
          try (replace (n - i)%nat with (S (n - S i)) by lia; rewrite firstn_cons);
          rewrite fmap_cons, <- app_assoc; reflexivity.
Qed.

Lemma drain_from_start (processor : list Chunk * option exn) (c : consumer)
    (w : world M T RID Chunk) :
  drain (fst processor) (snd processor) c 0 w
  = (match stream_exit processor c with None => Return tt | Some e => Raise e end,
     mk_chat_world (mgr w) (stats w)
       (log w ++ (EvYield <$> delivered processor c)) (upstream_calls w)).
Proof.
  rewrite drain_spec. unfold stream_exit, delivered.
  destruct c as [| n e]; [reflexivity |].
  simpl. rewrite Nat.sub_0_r.
  destruct (n <? length (fst processor))%nat eqn:Hn; [reflexivity |].
  apply Nat.ltb_ge in Hn. rewrite take_ge by lia. reflexivity.
Qed.

(** C4: run against any consumer, the wrapped stream releases the
    reservation on every exit: whether the processor is exhausted, raises,
    or the consumer throws into the generator, the last call made is the
    release of this token's reservation, and the manager is left as that
    release leaves it.  [sync_usage(consume_on_fail=true, is_usage=true)]
    is called exactly when the stream ends naturally, and a success stat is
    recorded only then (after [sync_usage] has returned); on every other
    exit a failed stat is recorded instead.  The request statistics are
    left as that one record leaves them: the success record on a natural
    end whose [sync_usage] returned, the failure record on every other
    exit, and untouched when [sync_usage] raised.  An error raised by the release
    (or by the bookkeeping) is swallowed: the generator ends as its body
    did. *)
Theorem wrapped_stream_settles_on_every_exit
    (processor : list Chunk * option exn) (tok : string) (rid : RID)
    (model_name : string) (c : consumer) (w : world M T RID Chunk) :
  let out := _wrapped_stream D processor tok rid model_name c w in
  let synced := sync_usage (token_mgr D) tok model_name true true (mgr w) in
  let bookkeeping :=
    match stream_exit processor c with
    | None =>
        EvSyncUsage tok model_name true true
        :: (if returned (fst synced) then [EvRecordRequest model_name true] else [])
    | Some _ => [EvRecordRequest model_name false]
    end in
  let settled :=
    match stream_exit processor c with
    | None => snd synced
    | Some _ => mgr w
    end in
  log (snd out)
  = log w ++ (EvYield <$> delivered processor c) ++ bookkeeping
    ++ [EvRelease tok rid]
  /\ mgr (snd out) = snd (release_token_reservation (token_mgr D) tok rid settled)
  /\ stats (snd out)
     = match stream_exit processor c with
       | None =>
           if returned (fst synced)
           then snd (record_request D model_name true (stats w))
           else stats w
       | Some _ => snd (record_request D model_name false (stats w))
       end
  /\ (errors_only D ->
      fst out
      = match stream_exit processor c with
        | None => Return tt
        | Some e => Raise e
        end).
Proof.
  cbv zeta. unfold _wrapped_stream. rewrite drain_from_start.
  unfold settle, try_finally, swallow, eff_bind, do_sync_usage, do_record_request,
    do_release, on_mgr, on_stats, emit.
  cbn [mgr stats log upstream_calls fst snd].
  destruct (stream_exit processor c) as [e |];
    repeat (cbn [mgr stats log upstream_calls fst snd returned];
      match goal with
      | |- context [let '(_, _) := ?x in _] =>
          match x with
          | record_request _ _ _ _ => destruct x as [[? | ?] ?] eqn:?
          | release_token_reservation _ _ _ _ => destruct x as [[? | ?] ?] eqn:?
          | sync_usage _ _ _ _ _ _ => destruct x as [[? | ?] ?] eqn:?
          end
      | |- context [if is_Exception ?e then _ else _] =>
          destruct (is_Exception e) eqn:?
      end);
    cbn [mgr stats log upstream_calls fst snd returned];
    (split; [rewrite <- ?app_assoc; reflexivity |
             split; [reflexivity | split; [reflexivity |]]]);
    intros (Hrel & Hsync & Hrec); try reflexivity; exfalso;
    repeat match goal with
      | H : _ = (Raise ?e, _), Hf : is_Exception ?e = false |- _ =>
          first [ rewrite (Hrel _ _ _ _ (f_equal fst H)) in Hf
                | rewrite (Hsync _ _ _ _ _ _ (f_equal fst H)) in Hf
                | rewrite (Hrec _ _ _ _ (f_equal fst H)) in Hf ];
          discriminate
      end.
Qed.

End StreamFacts.

(** ** The retry loop *)

Section RetryFacts.

Context {M T RID Response Chunk Aggregate : Type}.
Variable D : collaborators M T RID Response Chunk Aggregate.

(** The world once a reservation has been made. *)
Lemma attempts_reserved (attempt : Z) (rest : list Z) (model : string)
    (request : ChatRequest) (excluded : gset string)
    (vars : loop_vars RID Response) (w : world M T RID Chunk)
    (tok : string) (rid : RID) (m1 : M) :
  reserve_token_for_model (token_mgr D) model excluded (mgr w)
  = (Some (tok, rid), m1) ->
  truthy tok = true ->
  forall e w2,
    chat_openai D tok request
      (mk_chat_world m1 (stats w)
         (log w ++ [EvReserve model excluded (Some (tok, rid))])
         (upstream_calls w))
    = (Raise e, w2) ->
    attempts D (attempt :: rest) model request excluded vars w
    = match e with
      | UpstreamException message status =>
          (swallow (do_release D tok rid) ;;;
           do_record_fail D tok (match status with Some s => s | None => 0 end)
             (str_exn e) ;;;
           if match status with
              | Some s => negb (s =? 200) && (attempt <? get_max_retry D)
              | None => false
              end
           then
             sleep ((1 # 2) * inject_Z (attempt + 1))%Q ;;;
             attempts D rest model request ({[tok]} ∪ excluded)
               (mk_loop_vars (Some tok) (Some rid) (Some e) (response vars))
           else eff_raise e) w2
      | _ =>
          if is_AppException e then
            (swallow (do_release D tok rid) ;;;
             swallow (do_record_request D model false) ;;;
             eff_raise e) w2
          else (Raise e, w2)
      end.
Proof.
  intros Hres Htok e w2 Hchat.
  cbn [attempts]. unfold eff_bind at 1. unfold do_reserve.
  rewrite Hres. rewrite Htok. cbn [negb]. rewrite Hchat.
  destruct e; reflexivity.
Qed.

Lemma completions_raises_loop_error (model : string) (messages : list message)
    (stream : option bool) (thinking : option string)
    (w w' : world M T RID Chunk) (e : exn) :
  let think :=
    match thinking with
    | Some t =>
        if String.eqb t "enabled" then Some true
        else if String.eqb t "disabled" then Some false
        else None
    | None => None
    end in
  let is_stream := match stream with Some b => b | None => grok_stream D end in
  attempts D (py_range (get_max_retry D + 1)) model
    (mk_ChatRequest model messages (Some is_stream) think) ∅
    (mk_loop_vars None None None None) w
  = (Raise e, w') ->
  completions D model messages stream thinking w = (Raise e, w').
Proof.
  intros think is_stream Hloop. unfold completions, eff_bind.
  fold think. fold is_stream. rewrite Hloop. reflexivity.
Qed.

(** C1 (as amended): at every attempt of a chat completion, when the
    upstream call raises an upstream error, the orchestrator releases the
    reservation and records the failure against the token (with the status,
    or 0 when there is none).  If the error carries an integer status other
    than 200 and attempts remain, it adds the token to the exclude set,
    sleeps 0.5 s times the attempt number and goes on to the next attempt,
    which reserves under the enlarged exclude set, whatever the status was;
    a manager that honours the exclude set then hands out a different
    token.  If the error carries no status (a failure to connect), or no
    attempt remains, the same error is raised out of the loop at once, and
    completions raises to its caller whatever the loop raises. *)
Theorem upstream_failure_switches_token
    (attempt : Z) (rest : list Z) (model : string) (request : ChatRequest)
    (excluded : gset string) (vars : loop_vars RID Response)
    (w w2 : world M T RID Chunk) (tok : string) (rid : RID) (m1 : M)
    (message : string) (status : option Z) :
  reserve_token_for_model (token_mgr D) model excluded (mgr w)
  = (Some (tok, rid), m1) ->
  truthy tok = true ->
  chat_openai D tok request
    (mk_chat_world m1 (stats w)
       (log w ++ [EvReserve model excluded (Some (tok, rid))])
       (upstream_calls w))
  = (Raise (UpstreamException message status), w2) ->
  (forall e,
      fst (release_token_reservation (token_mgr D) tok rid (mgr w2)) = Raise e ->
      is_Exception e = true) ->
  let code := match status with Some s => s | None => 0 end in
  let settled :=
    mk_chat_world
      (record_fail (token_mgr D) tok code message
         (snd (release_token_reservation (token_mgr D) tok rid (mgr w2))))
      (stats w2)
      (log w2 ++ [EvRelease tok rid; EvRecordFail tok code message])
      (upstream_calls w2) in
  (forall s,
      status = Some s -> s <> 200 -> attempt < get_max_retry D ->
      attempts D (attempt :: rest) model request excluded vars w
      = attempts D rest model request ({[tok]} ∪ excluded)
          (mk_loop_vars (Some tok) (Some rid)
             (Some (UpstreamException message status)) (response vars))
          (emit (EvSleep ((1 # 2) * inject_Z (attempt + 1))%Q) settled))
  /\ (status = None \/ get_max_retry D <= attempt ->
      attempts D (attempt :: rest) model request excluded vars w
      = (Raise (UpstreamException message status), settled))
  /\ (honours_exclude (token_mgr D) ->
      forall m tok' rid' m',
        reserve_token_for_model (token_mgr D) model ({[tok]} ∪ excluded) m
        = (Some (tok', rid'), m') ->
        tok' <> tok)
  /\ (forall messages stream thinking w0 w' e,
        attempts D (py_range (get_max_retry D + 1)) model
          (mk_ChatRequest model messages
             (Some match stream with Some b => b | None => grok_stream D end)
             match thinking with
             | Some t =>
                 if String.eqb t "enabled" then Some true
                 else if String.eqb t "disabled" then Some false
                 else None
             | None => None
             end) ∅
          (mk_loop_vars None None None None) w0
        = (Raise e, w') ->
        fst (completions D model messages stream thinking w0) = Raise e).
Proof.
  intros Hres Htok Hchat Hrel code settled.
  pose proof (attempts_reserved attempt rest model request excluded vars w
                tok rid m1 Hres Htok _ _ Hchat) as Hstep.
  cbn [str_exn] in Hstep.
  assert (Hsettle :
            forall (k : Eff (world M T RID Chunk) (loop_vars RID Response)),
              (swallow (do_release D tok rid) ;;;
               do_record_fail D tok code message ;;; k) w2
              = k settled).
  { intros k. unfold eff_bind, swallow, do_release, do_record_fail, on_mgr, emit.
    cbn [mgr stats log upstream_calls]. subst settled.
    destruct (release_token_reservation (token_mgr D) tok rid (mgr w2))
      as [[b | e] m2] eqn:Hcall; cbn [mgr stats log upstream_calls fst snd].
    - rewrite <- app_assoc. reflexivity.
    - rewrite (Hrel e eq_refl). cbn [mgr stats log upstream_calls].
      rewrite <- app_assoc. reflexivity. }
  fold code in Hstep. rewrite Hsettle in Hstep. clear Hsettle.
  split; [| split; [| split]].
  - intros s Hstatus Hs Hleft. rewrite Hstep. rewrite Hstatus.
    destruct (Z.eqb_spec s 200) as [? | _]; [contradiction |].
    destruct (Z.ltb_spec attempt (get_max_retry D)) as [_ | ?]; [| lia].
    reflexivity.
  - intros Hstop. rewrite Hstep.
    destruct status as [s |]; [| reflexivity].
    destruct Hstop as [? | Hlast]; [discriminate |].
    destruct (Z.ltb_spec attempt (get_max_retry D)) as [? | _]; [lia |].
    rewrite andb_false_r. reflexivity.
  - intros Hhonour m tok' rid' m' Hnext ->.
    apply (Hhonour _ _ _ _ _ _ Hnext). set_solver.
  - intros messages stream thinking w0 w' e Hloop.
    rewrite (completions_raises_loop_error model messages stream thinking w0 w' e Hloop).
    reflexivity.
Qed.

Lemma py_range_head (n : Z) :
  0 <= n -> exists rest, py_range (n + 1) = 0 :: rest.
Proof.
  intros Hn. unfold py_range.
  replace (Z.to_nat (n + 1)) with (S (Z.to_nat n)) by lia.
  cbn [seq map]. eauto.
Qed.

Lemma chat_openai_invalid (tok : string) (request : ChatRequest) (msg : string)
    (w : world M T RID Chunk) :
  validation_error D (model request) (messages request) = Some msg ->
  chat_openai D tok request w = (Raise (ValidationException msg), w).
Proof.
  unfold validation_error, chat_openai.
  destruct (ModelService_get D (model request)) as [model_info |].
  - destruct (MessageExtractor.extract (messages request) (is_video model_info))
      as [e | [text attachments]]; [| discriminate].
    destruct e; try discriminate. intros [= ->]. reflexivity.
  - intros [= ->]. reflexivity.
Qed.

(** C5 (as amended): for a request whose validation fails (the model is
    unknown, or the content is not supported for the model), completions
    first asks the manager for a reservation.  When a token is reserved,
    the validation error is raised to the caller from the first attempt,
    with no retry: the only calls made are that one reservation, its
    release, and the recording of a failed request; the upstream is not
    called and no failure is recorded against the token.  When no token
    can be reserved, a 429 rate-limit error is raised instead of the
    validation error. *)
Theorem validation_failure_reserves_then_releases
    (model : string) (messages : list message) (stream : option bool)
    (thinking : option string) (w : world M T RID Chunk) (msg : string) :
  validation_error D model messages = Some msg ->
  0 <= get_max_retry D ->
  errors_only D ->
  let out := completions D model messages stream thinking w in
  let reserved := reserve_token_for_model (token_mgr D) model ∅ (mgr w) in
  let recorded := snd (record_request D model false (stats w)) in
  match fst reserved with
  | Some (tok, rid) =>
      truthy tok = true ->
      out
      = (Raise (ValidationException msg),
         mk_chat_world
           (snd (release_token_reservation (token_mgr D) tok rid (snd reserved)))
           recorded
           (log w ++ [EvReserve model ∅ (Some (tok, rid)); EvRelease tok rid;
                      EvRecordRequest model false])
           (upstream_calls w))
  | None =>
      out
      = (Raise (AppException "No available tokens. Please try again later."
                  "rate_limit_exceeded" 429),
         mk_chat_world (snd reserved) recorded
           (log w ++ [EvReserve model ∅ None; EvRecordRequest model false])
           (upstream_calls w))
  end.
Proof.
  intros Hinvalid Hretry (Hrel & _ & Hrec) out reserved recorded.
  subst out reserved recorded.
  unfold completions.
  destruct (py_range_head (get_max_retry D) Hretry) as [rest ->].
  destruct (reserve_token_for_model (token_mgr D) model ∅ (mgr w))
    as [[[tok rid] |] m1] eqn:Hres; cbn [fst snd].
  - intros Htok. unfold eff_bind at 1.
    erewrite attempts_reserved; [| exact Hres | exact Htok |
      apply chat_openai_invalid; exact Hinvalid].
    cbn [is_AppException].
    unfold eff_bind, swallow, eff_raise, do_release, do_record_request, on_mgr,
      on_stats, emit.
    cbn [mgr stats log upstream_calls].
    destruct (release_token_reservation (token_mgr D) tok rid m1)
      as [[b | e1] m2] eqn:Hcall; cbn [mgr stats log upstream_calls fst snd];
      [| rewrite (Hrel _ _ _ _ (f_equal fst Hcall));
         cbn [mgr stats log upstream_calls fst snd]];
      (destruct (record_request D model false (stats w))
         as [[u | e2] s2] eqn:Hstat; cbn [mgr stats log upstream_calls fst snd];
       [| rewrite (Hrec _ _ _ _ (f_equal fst Hstat));
          cbn [mgr stats log upstream_calls fst snd]]);
      rewrite <- ?app_assoc; reflexivity.
  - unfold eff_bind at 1. cbn [attempts]. unfold eff_bind at 1, do_reserve.
    rewrite Hres. unfold eff_ret. cbn [token].
    unfold eff_bind, swallow, eff_raise, do_record_request, on_stats, emit.
    cbn [mgr stats log upstream_calls].
    destruct (record_request D model false (stats w))
      as [[u | e2] s2] eqn:Hstat; cbn [mgr stats log upstream_calls fst snd];
      [| rewrite (Hrec _ _ _ _ (f_equal fst Hstat));
         cbn [mgr stats log upstream_calls fst snd]];
      rewrite <- ?app_assoc; reflexivity.
Qed.

End RetryFacts.

(** ** The retry test, replayed *)

Section RetryTest.

Import test_chat_retry.

Lemma dummy_honours_exclude : honours_exclude _DummyTokenManager.manager.
Proof.
  intros model exclude m tok rid m' Hres Hin.
  cbn in Hres. unfold _DummyTokenManager.reserve_token_for_model in Hres.
  destruct (List.find _ _DummyTokenManager.tokens) as [t |] eqn:Hfind;
    [| discriminate].
  injection Hres as -> _ _.
  apply find_some in Hfind as [_ Hfree].
  apply negb_true_iff, bool_decide_eq_false in Hfree. apply Hfree.
  unfold _DummyTokenManager.sorted. rewrite merge_sort_Permutation.
  now apply elem_of_elements.
Qed.

(** test_non_200_should_switch_token_even_if_not_in_retry_codes: with
    [max_retry = 1] and an upstream that always answers 500, two
    reservations are made, the second excluding the first token; both are
    released and both failures recorded; one sleep of 0.5 s; the last
    error is raised. *)
Example test_non_200_should_switch_token_even_if_not_in_retry_codes :
  let out := completions (patched always_500) "grok-3" user_hello (Some false) None start in
  fst out = Raise failed_500
  /\ _DummyTokenManager.select_calls (mgr (snd out))
     = [("grok-3", []); ("grok-3", [token_a])]
  /\ _DummyTokenManager.fail_calls (mgr (snd out))
     = [(token_a, 500, "Grok API request failed: 500"%string);
        (token_b, 500, "Grok API request failed: 500"%string)]
  /\ _DummyTokenManager.release_calls (mgr (snd out))
     = [(token_a, "req-1"%string); (token_b, "req-2"%string)]
  /\ log (snd out)
     = [EvReserve "grok-3" ∅ (Some (token_a, "req-1"%string));
        EvUpstream token_a;
        EvRelease token_a "req-1"%string;
        EvRecordFail token_a 500 "Grok API request failed: 500";
        EvSleep (1 # 2);
        EvReserve "grok-3" {[token_a]} (Some (token_b, "req-2"%string));
        EvUpstream token_b;
        EvRelease token_b "req-2"%string;
        EvRecordFail token_b 500 "Grok API request failed: 500"].
Proof. vm_compute. repeat split. Qed.

Lemma upstream_failure_switches_token_witness :
  let D := patched always_500 in
  let request := mk_ChatRequest "grok-3" user_hello (Some false) None in
  let vars := mk_loop_vars (RID := string) (Response := list processor.upstream_event)
                None None None None in
  exists w',
    attempts D [0; 1] "grok-3" request ∅ vars start
    = attempts D [1] "grok-3" request ({[token_a]} ∪ ∅)
        (mk_loop_vars (Some token_a) (Some "req-1"%string) (Some failed_500) None) w'
    /\ log w'
       = [EvReserve "grok-3" ∅ (Some (token_a, "req-1"%string));
          EvUpstream token_a;
          EvRelease token_a "req-1"%string;
          EvRecordFail token_a 500 "Grok API request failed: 500";
          EvSleep ((1 # 2) * inject_Z (0 + 1))].
Proof.
  intros D request vars.
  epose proof (upstream_failure_switches_token D 0 [1] "grok-3" request ∅ vars
                 start _ token_a "req-1"%string _
                 "Grok API request failed: 500"%string (Some 500)
                 eq_refl eq_refl eq_refl _) as [Hretry _].
  eexists. split.
  - apply (Hretry 500); [reflexivity | discriminate | reflexivity].
  - reflexivity.
  Unshelve.
  intros e He. discriminate He.
Defined.

(** C1, where the claim fails: with one retry left and two tokens in the
    pool, an upstream call that fails to connect (an upstream error without
    a status) ends the request at once; no token is excluded, nothing is
    slept and no second reservation is made. *)
Lemma connection_failure_is_not_retried :
  let D := patched always_unreachable in
  let out := completions D "grok-3" user_hello (Some false) None start in
  0 < get_max_retry D
  /\ fst out = Raise (UpstreamException "Chat connection failed: connection refused" None)
  /\ log (snd out)
     = [EvReserve "grok-3" ∅ (Some (token_a, "req-1"%string));
        EvUpstream token_a;
        EvRelease token_a "req-1"%string;
        EvRecordFail token_a 0 "Chat connection failed: connection refused"].
Proof. vm_compute. repeat split. Qed.

(** C5, where the claim fails: a request for an unknown model takes a
    reservation from the manager before it is rejected. *)
Lemma validation_failure_consumes_a_reservation :
  let D := patched always_500 in
  let out := completions D "no-such-model" user_hello (Some false) None start in
  validation_error D "no-such-model" user_hello = Some "Unknown model: no-such-model"%string
  /\ fst out = Raise (ValidationException "Unknown model: no-such-model")
  /\ _DummyTokenManager.select_calls (mgr (snd out)) = [("no-such-model"%string, [])]
  /\ log (snd out)
     = [EvReserve "no-such-model" ∅ (Some (token_a, "req-1"%string));
        EvRelease token_a "req-1"%string;
        EvRecordRequest "no-such-model" false].
Proof. vm_compute. repeat split. Qed.

Lemma validation_failure_reserves_then_releases_witness :
  let D := patched always_500 in
  let audio := [mk_message "user" (ContentList [ItemText "dub this"; ItemInputAudio "UklGRg=="])] in
  completions D "grok-imagine-1.0-video" audio (Some false) None start
  = (Raise (ValidationException "视频模型不支持 input_audio 类型"),
     mk_chat_world
       (_DummyTokenManager.mk_state [("grok-imagine-1.0-video"%string, [])]
          [(token_a, "req-1"%string)] [])
       tt
       [EvReserve "grok-imagine-1.0-video" ∅ (Some (token_a, "req-1"%string));
        EvRelease token_a "req-1"%string;
        EvRecordRequest "grok-imagine-1.0-video" false]
       0%nat).
Proof.
  intros D audio.
  assert (Herr : errors_only D).
  { repeat split; intros; discriminate. }
  pose proof (validation_failure_reserves_then_releases D
                "grok-imagine-1.0-video" audio (Some false) None start
                "视频模型不支持 input_audio 类型"%string eq_refl) as Hrun.
  specialize (Hrun ltac:(cbn; lia) Herr).
  cbv zeta in Hrun. cbn in Hrun. exact (Hrun eq_refl).
Defined.

Lemma wrapped_stream_settles_on_every_exit_witness :
  let D := patched hello in
  let processor :=
    (processor.stream_process translator "test" "grok-3" 0
       [processor.Structural "llmInfo"; processor.ContentToken "Hello";
        processor.ContentToken " world"], None) in
  let out := _wrapped_stream D processor token_a "req-1"%string "grok-3"
               (ThrowAt 0 CancelledError) start in
  fst out = Raise CancelledError
  /\ exists first,
      log (snd out)
      = [EvYield first; EvRecordRequest "grok-3" false; EvRelease token_a "req-1"%string].
Proof.
  intros D processor out.
  destruct (wrapped_stream_settles_on_every_exit D processor token_a
              "req-1"%string "grok-3" (ThrowAt 0 CancelledError) start)
    as (Hlog & _ & _ & Hexit).
  split.
  - apply Hexit. repeat split; intros; discriminate.
  - eexists. exact Hlog.
Defined.

End RetryTest.

(** ** The token pool *)

Section PoolFacts.

Import TokenPool.

Lemma eligible_true_iff (exclude : gset string) (now : Z) (r : TokenRecord) :
  eligible exclude now r = true
  <-> status r = ACTIVE
      /\ (token r ∉ exclude)
      /\ inflight_until r <= now
      /\ (quota r < 0 \/ 0 < quota r).
Proof.
  unfold eligible. rewrite !andb_true_iff, orb_true_iff, negb_true_iff.
  rewrite bool_decide_eq_false, Z.leb_le, !Z.ltb_lt.
  destruct (status r); cbn; intuition congruence.
Qed.

(** [select] returns the earliest eligible record, and none only when no
    record is eligible. *)
Lemma select_spec (exclude : gset string) (now : Z) (pool : TokenPool) :
  match select exclude now pool with
  | Some r =>
      exists i,
        pool !! i = Some r
        /\ eligible exclude now r = true
        /\ forall j r', (j < i)%nat -> pool !! j = Some r' ->
                        eligible exclude now r' = false
  | None => forall r, r ∈ pool -> eligible exclude now r = false
  end.
Proof.
  induction pool as [| r0 rest IH]; cbn [select].
  - intros r Hin. inversion Hin.
  - destruct (eligible exclude now r0) eqn:Hr0.
    + exists 0%nat. repeat split; [assumption |]. intros j r' Hj. lia.
    + destruct (select exclude now rest) as [r |].
      * destruct IH as (i & Hi & Hok & Hbefore).
        exists (S i). repeat split; [exact Hi | exact Hok |].
        intros [| j] r' Hj Hlook.
        -- cbn in Hlook. congruence.
        -- apply (Hbefore j r'); [lia | exact Hlook].
      * intros r Hin. apply elem_of_cons in Hin as [-> | Hin]; [exact Hr0 | now apply IH].
Qed.

Lemma select_some_of_eligible (exclude : gset string) (now : Z)
    (pool : TokenPool) (r : TokenRecord) :
  r ∈ pool -> eligible exclude now r = true ->
  exists r', select exclude now pool = Some r'.
Proof.
  intros Hin Hok. pose proof (select_spec exclude now pool) as Hspec.
  destruct (select exclude now pool) as [r' |]; [eauto |].
  rewrite (Hspec r Hin) in Hok. discriminate.
Qed.

Lemma update_lookup (tok : string) (f : TokenRecord -> TokenRecord)
    (pool : TokenPool) (i : nat) :
  update tok f pool !! i
  = (fun r => if String.eqb (token r) tok then f r else r) <$> pool !! i.
Proof. unfold update. apply list_lookup_fmap. Qed.

Lemma elem_of_update (tok : string) (f : TokenRecord -> TokenRecord)
    (pool : TokenPool) (r' : TokenRecord) :
  r' ∈ update tok f pool ->
  exists r, r ∈ pool /\ r' = if String.eqb (token r) tok then f r else r.
Proof.
  unfold update. intros Hin. apply list_elem_of_fmap in Hin as (r & -> & Hr). eauto.
Qed.

(** A record stamped until after [now] cannot be selected at [now]. *)
Lemma stamped_not_eligible (exclude : gset string) (now until : Z)
    (rid : option nat) (r : TokenRecord) :
  now < until -> eligible exclude now (set_inflight until rid r) = false.
Proof.
  intros Hlt. destruct (eligible exclude now (set_inflight until rid r)) eqn:Hok;
    [| reflexivity].
  apply eligible_true_iff in Hok as (_ & _ & Hle & _). cbn in Hle. lia.
Qed.

Lemma select_skips_stamped (exclude : gset string) (now until : Z) (rid : nat)
    (tok : string) (pool : TokenPool) (r : TokenRecord) :
  now < until ->
  select exclude now (update tok (set_inflight until (Some rid)) pool) = Some r ->
  token r <> tok.
Proof.
  intros Hlt Hsel Htok.
  pose proof (select_spec exclude now (update tok (set_inflight until (Some rid)) pool))
    as Hspec.
  rewrite Hsel in Hspec. destruct Hspec as (i & Hi & Hok & _).
  apply list_elem_of_lookup_2 in Hi.
  apply elem_of_update in Hi as (r0 & _ & Hr).
  destruct (String.eqb_spec (token r0) tok) as [Heq | Hne].
  - subst r. rewrite stamped_not_eligible in Hok by exact Hlt. discriminate.
  - subst r. contradiction.
Qed.

End PoolFacts.

(** ** The token manager: reservation *)

Section ReservationFacts.

Import TokenPool TokenManager.

Variable pool_for_model : string -> string.
Variable reservation_ttl : Z.

Local Abbreviation reserve := (reserve_token_for_model pool_for_model reservation_ttl).

Lemma reserve_some_inv (now : Z) (model : string) (exclude : gset string)
    (st : state) (tok : string) (rid : nat) (st' : state) :
  reserve now model exclude st = (Some (tok, rid), st') ->
  exists pool r,
    pools st !! pool_for_model model = Some pool
    /\ select exclude now pool = Some r
    /\ tok = token r
    /\ rid = next_reservation st
    /\ st' = mk_state
               (<[pool_for_model model :=
                    update (token r)
                      (set_inflight (now + reservation_ttl) (Some rid)) pool]>
                  (pools st))
               (last_reload st) (S rid).
Proof.
  unfold reserve_token_for_model.
  destruct (pools st !! pool_for_model model) as [pool |]; [| discriminate].
  destruct (select exclude now pool) as [r |] eqn:Hsel; [| discriminate].
  intros [= <- <- <-]. exists pool, r. repeat split; [exact Hsel].
Qed.

Lemma reserve_none_inv (now : Z) (model : string) (exclude : gset string)
    (st st' : state) :
  reserve now model exclude st = (None, st') ->
  st' = st
  /\ forall pool, pools st !! pool_for_model model = Some pool ->
                  select exclude now pool = None.
Proof.
  unfold reserve_token_for_model.
  destruct (pools st !! pool_for_model model) as [pool |].
  - destruct (select exclude now pool) as [r |] eqn:Hsel; [discriminate |].
    intros [= <-]. split; [reflexivity |]. intros pool' [= <-]. exact Hsel.
  - intros [= <-]. split; [reflexivity |]. intros pool' [=].
Qed.

Lemma reserve_keeps_supply (now : Z) (model : string) (exclude : gset string)
    (st : state) :
  fresh_supply st -> fresh_supply (snd (reserve now model exclude st)).
Proof.
  intros Hwf.
  destruct (reserve now model exclude st) as [[[tok rid] |] st'] eqn:Hres; cbn [snd].
  - apply reserve_some_inv in Hres as (pool & r & Hpool & _ & _ & -> & ->).
    intros name pool' r' rid' Hlook Hin Hid. cbn [pools next_reservation] in *.
    destruct (decide (pool_for_model model = name)) as [<- | Hne].
    + rewrite lookup_insert_eq in Hlook. injection Hlook as <-.
      apply elem_of_update in Hin as (r0 & Hr0 & ->).
      destruct (String.eqb (token r0) (token r)).
      * cbn in Hid. injection Hid as <-. lia.
      * specialize (Hwf _ _ _ _ Hpool Hr0 Hid). lia.
    + rewrite lookup_insert_ne in Hlook by exact Hne.
      specialize (Hwf _ _ _ _ Hlook Hin Hid). lia.
  - apply reserve_none_inv in Hres as [-> _]. exact Hwf.
Qed.

Local Abbreviation run := (reserve_run pool_for_model reservation_ttl).

(** A reservation stays as it is through a run of later calls made before
    its time box ran out: the record keeps its stamp, no such call on the
    pool returns its token, and none returns its id. *)
Lemma reserve_run_keeps (name tok : string) (until : Z) (rid : nat) (i : nat)
    (r0 : TokenRecord) (calls : list (Z * string * gset string)) :
  token r0 = tok ->
  Forall (fun c => fst (fst c) < until) calls ->
  forall st,
    (exists pool,
        pools st !! name = Some pool
        /\ pool !! i = Some r0
        /\ forall r', r' ∈ pool -> token r' = tok -> until <= inflight_until r') ->
    (rid < next_reservation st)%nat ->
    (exists pool_end,
        pools (snd (run calls st)) !! name = Some pool_end
        /\ pool_end !! i = Some r0)
    /\ forall k now2 model2 exclude2 tok2 rid2,
        calls !! k = Some (now2, model2, exclude2) ->
        fst (run calls st) !! k = Some (Some (tok2, rid2)) ->
        rid2 <> rid /\ (pool_for_model model2 = name -> tok2 <> tok).
Proof.
  intros Htok Hcalls. induction Hcalls as [| [[now2 model2] exclude2] rest Hnow _ IH];
    intros st Hinv Hrid.
  { cbn [reserve_run snd fst]. split.
    - destruct Hinv as (pool & Hpool & Hi & _). eauto.
    - intros k ? ? ? ? ? Hk. rewrite lookup_nil in Hk. discriminate. }
  cbn [fst] in Hnow. cbn [reserve_run].
  destruct (reserve now2 model2 exclude2 st) as [got st1] eqn:Hcall.
  assert (Hnext : (exists pool,
                      pools st1 !! name = Some pool
                      /\ pool !! i = Some r0
                      /\ forall r', r' ∈ pool -> token r' = tok ->
                                    until <= inflight_until r')
                  /\ (rid < next_reservation st1)%nat
                  /\ forall tok2 rid2,
                      got = Some (tok2, rid2) ->
                      rid2 <> rid /\ (pool_for_model model2 = name -> tok2 <> tok)).
  { destruct got as [[tok2 rid2] |].
    2:{ apply reserve_none_inv in Hcall as [-> _].
        split; [exact Hinv | split; [exact Hrid |]]. intros ? ? [=]. }
    apply reserve_some_inv in Hcall as (pool2 & r2 & Hpool2 & Hsel2 & -> & -> & ->).
    cbn [pools next_reservation].
    destruct Hinv as (pool & Hpool & Hi & Hstamped).
    destruct (decide (pool_for_model model2 = name)) as [Hsame | Hother].
    - rewrite Hsame in *. rewrite Hpool in Hpool2. injection Hpool2 as <-.
      pose proof (select_spec exclude2 now2 pool) as Hspec. rewrite Hsel2 in Hspec.
      destruct Hspec as (i2 & Hi2 & Hok & _).
      apply eligible_true_iff in Hok as (_ & _ & Hidle & _).
      assert (Hne : token r2 <> tok).
      { intros Heq. apply list_elem_of_lookup_2 in Hi2.
        specialize (Hstamped r2 Hi2 Heq). lia. }
      split; [| split; [lia |]].
      + eexists. split; [apply lookup_insert_eq |]. split.
        * rewrite update_lookup, Hi. cbn [fmap option_fmap option_map].
          destruct (String.eqb_spec (token r0) (token r2)) as [Heq | _];
            [congruence | reflexivity].
        * intros r' Hin Hr'. apply elem_of_update in Hin as (r & Hr & ->).
          destruct (String.eqb_spec (token r) (token r2)) as [Heq | _].
          -- cbn [set_inflight token] in Hr'. congruence.
          -- exact (Hstamped r Hr Hr').
      + intros tok2 rid2 [= <- <-]. split; [lia |]. intros _. exact Hne.
    - split; [| split; [lia |]].
      + exists pool. rewrite lookup_insert_ne by exact Hother. auto.
      + intros tok2 rid2 [= <- <-]. split; [lia |]. intros Hsame. contradiction. }
  destruct Hnext as (Hinv1 & Hrid1 & Hhead).
  destruct (IH st1 Hinv1 Hrid1) as [Hend Hrest].
  destruct (run rest st1) as [gots st2]. cbn [fst snd] in *.
  split; [exact Hend |].
  intros [| k] n m x tok2 rid2 Hk Hgot.
  - cbn in Hk, Hgot. injection Hk as <- <- <-. injection Hgot as ->.
    exact (Hhead tok2 rid2 eq_refl).
  - exact (Hrest k n m x tok2 rid2 Hk Hgot).
Qed.

(** C2 (as amended): [reserve_token_for_model] returns the earliest-inserted
    record of the model's pool that is ACTIVE, not excluded, not in flight
    at [now] and whose quota is unlimited or positive, and stamps it until
    [now + reservation_ttl] with a reservation id fresh from the supply;
    when it returns none, no record of the pool is eligible and nothing
    changes.  The call touches nothing else: the other pools, the other
    records of the pool and the time of the last reload stay as they
    were.  Through every run of later reservation calls with no release
    between them, each made before [now + reservation_ttl], the record
    keeps its stamp, no call on the same pool returns the same token, and
    no call returns the same id: no two reservations are in force for
    one token at once. *)
Theorem reserve_selects_first_eligible_and_books_once
    (now : Z) (model : string) (exclude : gset string) (st : state) :
  let name := pool_for_model model in
  let out := reserve now model exclude st in
  match fst out with
  | Some (tok, rid) =>
      (exists pool i r,
          pools st !! name = Some pool
          /\ pool !! i = Some r
          /\ token r = tok
          /\ status r = ACTIVE
          /\ (tok ∉ exclude)
          /\ inflight_until r <= now
          /\ (quota r < 0 \/ 0 < quota r)
          /\ (forall j r', (j < i)%nat -> pool !! j = Some r' ->
                           eligible exclude now r' = false)
          /\ (exists pool',
                 pools (snd out) !! name = Some pool'
                 /\ pool' !! i
                    = Some (set_inflight (now + reservation_ttl) (Some rid) r)
                 /\ length pool' = length pool
                 /\ (forall j r', pool !! j = Some r' -> token r' <> tok ->
                                  pool' !! j = Some r')
                 /\ (NoDup (token <$> pool) ->
                     forall j, j <> i -> pool' !! j = pool !! j))
          /\ (forall calls,
                 Forall (fun c => fst (fst c) < now + reservation_ttl) calls ->
                 exists pool_end,
                   pools (snd (run calls (snd out))) !! name = Some pool_end
                   /\ pool_end !! i
                      = Some (set_inflight (now + reservation_ttl) (Some rid) r)))
      /\ rid = next_reservation st
      /\ (forall name', name' <> name -> pools (snd out) !! name' = pools st !! name')
      /\ last_reload (snd out) = last_reload st
      /\ next_reservation (snd out) = S rid
      /\ (fresh_supply st ->
          fresh_supply (snd out)
          /\ forall name' pool' r',
              pools st !! name' = Some pool' -> r' ∈ pool' ->
              inflight_reservation_id r' <> Some rid)
      /\ (forall now2 model2 exclude2 tok2 rid2,
             pool_for_model model2 = name ->
             now2 < now + reservation_ttl ->
             fst (reserve now2 model2 exclude2 (snd out)) = Some (tok2, rid2) ->
             tok2 <> tok /\ rid2 <> rid)
      /\ (forall calls,
             Forall (fun c => fst (fst c) < now + reservation_ttl) calls ->
             forall k now2 model2 exclude2 tok2 rid2,
               calls !! k = Some (now2, model2, exclude2) ->
               fst (run calls (snd out)) !! k = Some (Some (tok2, rid2)) ->
               rid2 <> rid /\ (pool_for_model model2 = name -> tok2 <> tok))
  | None =>
      snd out = st
      /\ forall pool r,
          pools st !! name = Some pool -> r ∈ pool ->
          eligible exclude now r = false
  end.
Proof.
  intros name out. subst out.
  pose proof (reserve_keeps_supply now model exclude st) as Hkeep.
  destruct (reserve now model exclude st) as [[[tok rid] |] st'] eqn:Hres;
    cbn [fst snd] in *.
  - apply reserve_some_inv in Hres as (pool & r & Hpool & Hsel & -> & -> & ->).
    pose proof (select_spec exclude now pool) as Hspec. rewrite Hsel in Hspec.
    destruct Hspec as (i & Hi & Hok & Hbefore).
    apply eligible_true_iff in Hok as (Hactive & Hfree & Hidle & Hquota).
    set (until := now + reservation_ttl).
    set (rid := next_reservation st).
    set (st' := mk_state
                  (<[name := update (token r) (set_inflight until (Some rid)) pool]>
                     (pools st)) (last_reload st) (S rid)).
    assert (Hstamp : update (token r) (set_inflight until (Some rid)) pool !! i
                     = Some (set_inflight until (Some rid) r)).
    { rewrite update_lookup, Hi. cbn. rewrite String.eqb_refl. reflexivity. }
    assert (Hrun : forall calls,
               Forall (fun c => fst (fst c) < until) calls ->
               (exists pool_end,
                   pools (snd (run calls st')) !! name = Some pool_end
                   /\ pool_end !! i = Some (set_inflight until (Some rid) r))
               /\ forall k now2 model2 exclude2 tok2 rid2,
                   calls !! k = Some (now2, model2, exclude2) ->
                   fst (run calls st') !! k = Some (Some (tok2, rid2)) ->
                   rid2 <> rid /\ (pool_for_model model2 = name -> tok2 <> token r)).
    { intros calls Hcalls.
      apply (reserve_run_keeps name (token r) until rid i
               (set_inflight until (Some rid) r) calls eq_refl Hcalls st').
      - eexists. subst st'. cbn [pools]. split; [apply lookup_insert_eq |].
        split; [exact Hstamp |].
        intros r' Hin Hr'. apply elem_of_update in Hin as (r0 & _ & ->).
        destruct (String.eqb_spec (token r0) (token r)) as [_ | Hne].
        + cbn. lia.
        + contradiction.
      - subst st'. cbn. lia. }
    split; [| split; [reflexivity | split; [| split; [reflexivity |
      split; [reflexivity | split; [| split]]]]]].
    + exists pool, i, r. repeat split; try assumption.
      * eexists. cbn [pools]. split; [apply lookup_insert_eq |].
        split; [exact Hstamp |]. split; [| split].
        -- unfold update. apply length_fmap.
        -- intros j r' Hj Hne. rewrite update_lookup, Hj. cbn.
           destruct (String.eqb_spec (token r') (token r)) as [Heq | _];
             [contradiction | reflexivity].
        -- intros Hdup j Hji. rewrite update_lookup.
           destruct (pool !! j) as [r' |] eqn:Hj; [| reflexivity]. cbn.
           destruct (String.eqb_spec (token r') (token r)) as [Heq | _];
             [| reflexivity].
           exfalso. apply Hji.
           apply (NoDup_lookup (token <$> pool) j i (token r)); [exact Hdup | |].
           ++ rewrite list_lookup_fmap, Hj. cbn. now rewrite Heq.
           ++ rewrite list_lookup_fmap, Hi. reflexivity.
      * intros calls Hcalls. exact (proj1 (Hrun calls Hcalls)).
    + intros name' Hne. subst st'. cbn [pools].
      rewrite lookup_insert_ne by (intros Heq; apply Hne; symmetry; exact Heq).
      reflexivity.
    + intros Hwf. split; [now apply Hkeep |].
      intros name' pool' r' Hlook Hin Hid.
      specialize (Hwf _ _ _ _ Hlook Hin Hid). lia.
    + intros now2 model2 exclude2 tok2 rid2 Hsame Hlt Hres2.
      destruct (reserve now2 model2 exclude2 _) as [got st2] eqn:Hcall.
      cbn [fst] in Hres2. subst got.
      apply reserve_some_inv in Hcall as (pool2 & r2 & Hpool2 & Hsel2 & -> & -> & _).
      cbn [pools next_reservation] in *. fold name in Hpool2. rewrite Hsame in Hpool2.
      subst name. rewrite lookup_insert_eq in Hpool2. injection Hpool2 as <-.
      split; [| subst rid; lia].
      eapply select_skips_stamped; [exact Hlt | exact Hsel2].
    + intros calls Hcalls. exact (proj2 (Hrun calls Hcalls)).
  - apply reserve_none_inv in Hres as [-> Hnone]. split; [reflexivity |].
    intros pool r Hpool Hin.
    pose proof (select_spec exclude now pool) as Hspec.
    rewrite (Hnone pool Hpool) in Hspec. now apply Hspec.
Qed.

End ReservationFacts.

(** ** The token manager: release *)

Section ReleaseFacts.

Import TokenPool TokenManager.

Lemma holds_true_iff (tok : string) (rid : nat) (r : TokenRecord) :
  holds tok rid r = true
  <-> token r = tok /\ inflight_reservation_id r = Some rid.
Proof.
  unfold holds. rewrite andb_true_iff, String.eqb_eq, bool_decide_eq_true.
  reflexivity.
Qed.

Lemma clear_releases (tok : string) (rid : nat) (r : TokenRecord) :
  holds tok rid (clear tok rid r) = false.
Proof.
  unfold clear. destruct (holds tok rid r) eqn:Hr; [| exact Hr].
  unfold holds. cbn. rewrite andb_false_r. reflexivity.
Qed.

Lemma clear_idle (tok : string) (rid : nat) (pool : TokenPool) :
  (forall r, r ∈ pool -> holds tok rid r = false) ->
  clear tok rid <$> pool = pool.
Proof.
  induction pool as [| r rest IH]; intros Hidle; [reflexivity |].
  rewrite fmap_cons. f_equal.
  - unfold clear. rewrite Hidle by apply list_elem_of_here. reflexivity.
  - apply IH. intros r' Hin. apply Hidle. now apply list_elem_of_further.
Qed.

Lemma released_iff (tok : string) (rid : nat) (st : state) :
  fst (release_token_reservation tok rid st) = true
  <-> exists name pool r,
        pools st !! name = Some pool
        /\ r ∈ pool
        /\ token r = tok
        /\ inflight_reservation_id r = Some rid.
Proof.
  unfold release_token_reservation. cbn [fst]. rewrite existsb_exists. split.
  - intros ([name pool] & Hin & Hpool). cbn [snd] in Hpool.
    apply existsb_exists in Hpool as (r & Hr & Hholds).
    apply holds_true_iff in Hholds as [Htok Hid].
    exists name, pool, r. repeat split; try assumption.
    + apply elem_of_map_to_list. now apply list_elem_of_In.
    + now apply list_elem_of_In.
  - intros (name & pool & r & Hpool & Hr & Htok & Hid).
    exists (name, pool). split.
    + apply list_elem_of_In. now apply elem_of_map_to_list.
    + cbn [snd]. apply existsb_exists. exists r. split.
      * now apply list_elem_of_In.
      * apply holds_true_iff. now split.
Qed.

Lemma release_lookup (tok : string) (rid : nat) (st : state) (name : string) :
  pools (snd (release_token_reservation tok rid st)) !! name
  = (fun pool : TokenPool => clear tok rid <$> pool) <$> pools st !! name.
Proof. unfold release_token_reservation. cbn [snd pools]. apply lookup_fmap. Qed.

(** A release that finds no matching reservation changes nothing. *)
Lemma release_stale (tok : string) (rid : nat) (st : state) :
  fst (release_token_reservation tok rid st) = false ->
  snd (release_token_reservation tok rid st) = st.
Proof.
  intros Hfalse.
  assert (Hidle : forall name pool r,
             pools st !! name = Some pool -> r ∈ pool -> holds tok rid r = false).
  { intros name pool r Hpool Hr.
    destruct (holds tok rid r) eqn:Hholds; [| reflexivity].
    apply holds_true_iff in Hholds as [Htok Hid].
    assert (Htrue : fst (release_token_reservation tok rid st) = true).
    { apply released_iff. exists name, pool, r. now repeat split. }
    congruence. }
  unfold release_token_reservation. cbn [snd]. destruct st as [ps lr nr].
  cbn [pools last_reload next_reservation] in *. f_equal.
  apply map_eq. intros name. rewrite lookup_fmap.
  destruct (ps !! name) as [pool |] eqn:Hpool; [| reflexivity].
  cbn. f_equal. apply clear_idle. intros r Hr. exact (Hidle name pool r Hpool Hr).
Qed.

Lemma release_twice (tok : string) (rid : nat) (st : state) :
  fst (release_token_reservation tok rid
         (snd (release_token_reservation tok rid st))) = false.
Proof.
  destruct (fst (release_token_reservation tok rid
                   (snd (release_token_reservation tok rid st)))) eqn:Hagain;
    [| reflexivity].
  apply released_iff in Hagain as (name & pool & r & Hpool & Hr & Htok & Hid).
  rewrite release_lookup in Hpool.
  destruct (pools st !! name) as [pool0 |]; [| discriminate].
  cbn in Hpool. injection Hpool as <-.
  apply list_elem_of_fmap in Hr as (r0 & -> & _).
  pose proof (clear_releases tok rid r0) as Hnot.
  assert (Hyes : holds tok rid (clear tok rid r0) = true)
    by (apply holds_true_iff; now split).
  congruence.
Qed.

Lemma cleared_eligible (exclude exclude2 : gset string) (now now2 : Z)
    (r : TokenRecord) :
  eligible exclude now r = true ->
  0 <= now2 -> token r ∉ exclude2 ->
  eligible exclude2 now2 (set_inflight 0 None r) = true.
Proof.
  intros Hok Hnow Hfree. apply eligible_true_iff in Hok as (Ha & _ & _ & Hq).
  apply eligible_true_iff. cbn. repeat split; assumption.
Qed.

(** The pool after a reservation of [r] and its release. *)
Lemma released_pool_lookup (until : Z) (rid : nat) (r : TokenRecord)
    (pool : TokenPool) (i : nat) (ri : TokenRecord) :
  pool !! i = Some ri ->
  (clear (token r) rid
     <$> update (token r) (set_inflight until (Some rid)) pool) !! i
  = Some (if String.eqb (token ri) (token r)
          then set_inflight 0 None ri
          else clear (token r) rid ri).
Proof.
  intros Hi. rewrite list_lookup_fmap, update_lookup, Hi. cbn.
  destruct (String.eqb (token ri) (token r)) eqn:Heq; [| reflexivity].
  unfold clear, holds. cbn. rewrite Heq. rewrite bool_decide_eq_true_2 by reflexivity.
  reflexivity.
Qed.

Lemma reselect_after_release (exclude : gset string) (now until : Z)
    (rid : nat) (pool : TokenPool) (r : TokenRecord) :
  0 <= now ->
  select exclude now pool = Some r ->
  exists r',
    select exclude now
      (clear (token r) rid
         <$> update (token r) (set_inflight until (Some rid)) pool)
    = Some r'
    /\ token r' = token r.
Proof.
  intros Hnow Hsel.
  pose proof (select_spec exclude now pool) as Hspec. rewrite Hsel in Hspec.
  destruct Hspec as (i & Hi & Hok & Hbefore).
  set (pool'' := clear (token r) rid
                   <$> update (token r) (set_inflight until (Some rid)) pool).
  assert (Hat : pool'' !! i = Some (set_inflight 0 None r)).
  { subst pool''. rewrite (released_pool_lookup until rid r pool i r Hi).
    rewrite String.eqb_refl. reflexivity. }
  assert (Hfree : token r ∉ exclude)
    by (apply eligible_true_iff in Hok; tauto).
  assert (Hnew : eligible exclude now (set_inflight 0 None r) = true)
    by (eapply cleared_eligible; eauto).
  destruct (select_some_of_eligible exclude now pool'' _
              (list_elem_of_lookup_2 _ _ _ Hat) Hnew) as [r' Hsel'].
  exists r'. split; [exact Hsel' |].
  pose proof (select_spec exclude now pool'') as Hspec'. rewrite Hsel' in Hspec'.
  destruct Hspec' as (k & Hk & Hok' & Hbefore').
  destruct (lt_eq_lt_dec k i) as [[Hlt | ->] | Hgt].
  - destruct (pool !! k) as [rk |] eqn:Hrk.
    + subst pool''. rewrite (released_pool_lookup until rid r pool k rk Hrk) in Hk.
      injection Hk as <-.
      destruct (String.eqb_spec (token rk) (token r)) as [Heq | Hne];
        [exact Heq |].
      unfold clear in Hok'.
      replace (holds (token r) rid rk) with false in Hok'.
      * rewrite (Hbefore k rk Hlt Hrk) in Hok'. discriminate.
      * symmetry. unfold holds.
        destruct (String.eqb_spec (token rk) (token r)); [contradiction | reflexivity].
    + apply lookup_ge_None in Hrk. apply lookup_lt_Some in Hi. lia.
  - rewrite Hat in Hk. injection Hk as <-. reflexivity.
  - rewrite (Hbefore' i _ Hgt Hat) in Hnew. discriminate.
Qed.

End ReleaseFacts.

Section ReleaseThenReserve.

Import TokenPool TokenManager.

Variable pool_for_model : string -> string.
Variable reservation_ttl : Z.

Local Abbreviation reserve := (reserve_token_for_model pool_for_model reservation_ttl).

(** C7: [release_token_reservation(token, id)] returns True exactly when
    some record of that token stores this reservation id, and clears the
    inflight fields of that record and of no other.  With a stale id it
    returns False and leaves the state as it was; called a second time with
    the same id it is such a no-op; it never fails.  After the release of a
    reservation just made, the token can be selected again at once: the
    same reservation request returns it, and at any time a reservation that
    does not exclude it finds a token. *)
Theorem release_clears_matching_reservation_only
    (tok : string) (rid : nat) (st : state) :
  let out := release_token_reservation tok rid st in
  (fst out = true
   <-> exists name pool r,
         pools st !! name = Some pool /\ r ∈ pool
         /\ token r = tok /\ inflight_reservation_id r = Some rid)
  /\ (forall name pool i r,
         pools st !! name = Some pool -> pool !! i = Some r ->
         exists pool',
           pools (snd out) !! name = Some pool'
           /\ pool' !! i
              = Some (if holds tok rid r then set_inflight 0 None r else r))
  /\ (fst out = false -> snd out = st)
  /\ release_token_reservation tok rid (snd out) = (false, snd out)
  /\ (forall now model exclude st0,
         0 <= now ->
         reserve now model exclude st0 = (Some (tok, rid), st) ->
         fst out = true
         /\ (exists rid', fst (reserve now model exclude (snd out)) = Some (tok, rid'))
         /\ forall now2 exclude2,
             0 <= now2 -> tok ∉ exclude2 ->
             is_Some (fst (reserve now2 model exclude2 (snd out)))).
Proof.
  intros out. subst out.
  split; [apply released_iff |].
  split.
  { intros name pool i r Hpool Hi. eexists. split.
    - rewrite release_lookup, Hpool. reflexivity.
    - rewrite list_lookup_fmap, Hi. reflexivity. }
  split; [apply release_stale |].
  split.
  { pose proof (release_twice tok rid st) as Hfalse.
    pose proof (release_stale tok rid _ Hfalse) as Hsame.
    destruct (release_token_reservation tok rid
                (snd (release_token_reservation tok rid st))) as [b st']
      eqn:Hcall.
    cbn [fst snd] in *. congruence. }
  intros now model exclude st0 Hnow Hres.
  apply reserve_some_inv in Hres as (pool & r & Hpool & Hsel & -> & -> & ->).
  pose proof (select_spec exclude now pool) as Hspec. rewrite Hsel in Hspec.
  destruct Hspec as (i & Hi & Hok & _).
  set (st := mk_state _ _ _).
  assert (Hpool' :
            pools (snd (release_token_reservation (token r) (next_reservation st0) st))
              !! pool_for_model model
            = Some (clear (token r) (next_reservation st0)
                      <$> update (token r)
                            (set_inflight (now + reservation_ttl)
                               (Some (next_reservation st0))) pool)).
  { rewrite release_lookup. subst st. cbn [pools].
    rewrite lookup_insert_eq. reflexivity. }
  split; [| split].
  - apply released_iff. eexists _, _, _. split; [| split; [| split]].
    + subst st. cbn [pools]. apply lookup_insert_eq.
    + eapply list_elem_of_lookup_2. rewrite update_lookup, Hi. reflexivity.
    + cbn. rewrite String.eqb_refl. reflexivity.
    + cbn. rewrite String.eqb_refl. reflexivity.
  - destruct (reselect_after_release exclude now (now + reservation_ttl)
                (next_reservation st0) pool r Hnow Hsel) as (r' & Hsel' & Htok).
    eexists. unfold reserve_token_for_model. rewrite Hpool', Hsel'. cbn [fst].
    rewrite Htok. reflexivity.
  - intros now2 exclude2 Hnow2 Hfree.
    pose proof (released_pool_lookup (now + reservation_ttl) (next_reservation st0)
                  r pool i r Hi) as Hat.
    rewrite String.eqb_refl in Hat.
    destruct (select_some_of_eligible exclude2 now2 _ _
                (list_elem_of_lookup_2 _ _ _ Hat)
                (cleared_eligible exclude exclude2 now now2 r Hok Hnow2 Hfree))
      as [r' Hsel'].
    unfold reserve_token_for_model. rewrite Hpool', Hsel'. cbn [fst]. eauto.
Qed.

End ReleaseThenReserve.

(** ** The token manager: usage *)

Section UsageFacts.

Import TokenPool TokenManager.

Variable draws_heavy : string -> bool.


Lemma drawn_set_drawn (heavy : bool) (v : Z) (r : TokenRecord) :
  drawn heavy (set_drawn heavy v r) = v.
Proof. destruct heavy; reflexivity. Qed.



End UsageFacts.

(** ** The protocol translator *)

Section TranslatorFacts.

Import processor.

Variable cfg : config.

Lemma chunks_share_id (rid model : string) (now : Z) (first : bool)
    (events : list upstream_event) (c : chunk) :
  c ∈ chunks cfg rid model now first events -> id c = rid.
Proof.
  revert first. induction events as [| ev rest IH]; intros first Hin; cbn [chunks] in Hin.
  - inversion Hin.
  - destruct (parse cfg ev) as [text | text |].
    + apply elem_of_cons in Hin as [-> | Hin]; [reflexivity | eauto].
    + apply elem_of_cons in Hin as [-> | Hin]; [reflexivity | eauto].
    + eauto.
Qed.

Lemma has_content_skips_structural (pre post : list upstream_event) (kind : string) :
  has_content cfg (pre ++ Structural kind :: post) = has_content cfg (pre ++ post).
Proof.
  unfold has_content. rewrite !existsb_app. reflexivity.
Qed.

Lemma chunks_skip_structural (rid model : string) (now : Z) (first : bool)
    (pre post : list upstream_event) (kind : string) :
  chunks cfg rid model now first (pre ++ Structural kind :: post)
  = chunks cfg rid model now first (pre ++ post).
Proof.
  revert first. induction pre as [| ev pre IH]; intros first; cbn [app chunks].
  - reflexivity.
  - rewrite has_content_skips_structural.
    destruct (parse cfg ev); rewrite IH; reflexivity.
Qed.

Lemma contents_of_stream (nonce model : string) (now : Z)
    (events : list upstream_event) :
  contents (stream_process cfg nonce model now events)
  = omap delta_content (chunks cfg (response_id nonce) model now true events).
Proof.
  unfold stream_process, contents.
  generalize (chunks cfg (response_id nonce) model now true events) as cs.
  induction cs as [| c cs IH]; [reflexivity |].
  cbn. cbn in IH. rewrite IH. reflexivity.
Qed.

Lemma chunk_contents (rid model : string) (now : Z) (first : bool)
    (events : list upstream_event) :
  omap delta_content (chunks cfg rid model now first events)
  = content_tokens cfg events.
Proof.
  revert first. induction events as [| ev rest IH]; intros first; [reflexivity |].
  cbn [chunks]. unfold content_tokens at 1. cbn [omap list_omap].
  destruct (parse cfg ev) as [text | text |];
    cbn [omap list_omap delta_content delta]; rewrite IH; reflexivity.
Qed.

Lemma parse_nonempty (ev : upstream_event) (text : string) :
  parse cfg ev = Content text \/ parse cfg ev = Reasoning text ->
  truthy text = true.
Proof.
  destruct ev as [t | t | reference | m | kind]; cbn [parse].
  - destruct (truthy t) eqn:Ht; intros [H | H]; try discriminate H.
    injection H as <-. exact Ht.
  - destruct (truthy t) eqn:Ht; [| intros [H | H]; discriminate H].
    destruct (thinking cfg); intros [H | H]; try discriminate H;
      injection H as <-; exact Ht.
  - destruct (truthy (image_content cfg reference)) eqn:Ht;
      intros [H | H]; try discriminate H.
    injection H as <-. exact Ht.
  - intros [H | H]; discriminate H.
  - intros [H | H]; discriminate H.
Qed.

Lemma chunk_carries_text (rid model : string) (now : Z) (first : bool)
    (events : list upstream_event) (c : chunk) :
  c ∈ chunks cfg rid model now first events ->
  (exists ev text,
      ev ∈ events /\ parse cfg ev = Content text /\ truthy text = true
      /\ delta_content c = Some text /\ delta_reasoning_content c = None)
  \/ (exists ev text,
         ev ∈ events /\ parse cfg ev = Reasoning text /\ truthy text = true
         /\ delta_content c = None /\ delta_reasoning_content c = Some text).
Proof.
  revert first. induction events as [| ev rest IH]; intros first Hin; cbn [chunks] in Hin.
  - inversion Hin.
  - destruct (parse cfg ev) as [text | text |] eqn:Hev.
    + apply elem_of_cons in Hin as [-> | Hin].
      * left. exists ev, text.
        split; [apply list_elem_of_here |]. split; [exact Hev |].
        split; [apply (parse_nonempty ev); now left |]. split; reflexivity.
      * destruct (IH _ Hin) as [(e & t & He & Hp) | (e & t & He & Hp)];
          [left | right]; exists e, t; (split; [now apply list_elem_of_further | exact Hp]).
    + apply elem_of_cons in Hin as [-> | Hin].
      * right. exists ev, text.
        split; [apply list_elem_of_here |]. split; [exact Hev |].
        split; [apply (parse_nonempty ev); now right |]. split; reflexivity.
      * destruct (IH _ Hin) as [(e & t & He & Hp) | (e & t & He & Hp)];
          [left | right]; exists e, t; (split; [now apply list_elem_of_further | exact Hp]).
    + destruct (IH _ Hin) as [(e & t & He & Hp) | (e & t & He & Hp)];
        [left | right]; exists e, t; (split; [now apply list_elem_of_further | exact Hp]).
Qed.

Lemma chunks_skip_silent (rid model : string) (now : Z) (first : bool)
    (pre post : list upstream_event) :
  Forall (fun ev => parse cfg ev = Nothing) pre ->
  chunks cfg rid model now first (pre ++ post) = chunks cfg rid model now first post.
Proof.
  induction 1 as [| ev pre Hev _ IH]; [reflexivity |].
  cbn [app chunks]. rewrite Hev. exact IH.
Qed.

Lemma content_tokens_skip (pre post : list upstream_event) :
  Forall (fun ev => forall t, parse cfg ev <> Content t) pre ->
  content_tokens cfg (pre ++ post) = content_tokens cfg post.
Proof.
  induction 1 as [| ev pre Hev _ IH]; [reflexivity |].
  unfold content_tokens in *. cbn [app omap list_omap].
  destruct (parse cfg ev) as [t | t |] eqn:Hp; [| exact IH ..].
  now destruct (Hev t).
Qed.

Lemma chunks_first_role (rid model : string) (now : Z) (first : bool)
    (events : list upstream_event) (c : chunk) (rest : list chunk) :
  chunks cfg rid model now first events = c :: rest ->
  delta_role c = (if first then Some "assistant"%string else None)
  /\ Forall (fun c' => delta_role c' = None) rest.
Proof.
  assert (Hlater : forall evs c',
             c' ∈ chunks cfg rid model now false evs -> delta_role c' = None).
  { induction evs as [| ev evs IH]; intros c' Hin; cbn [chunks] in Hin.
    - inversion Hin.
    - destruct (parse cfg ev);
        [apply elem_of_cons in Hin as [-> | Hin]; [reflexivity | eauto] ..
        | eauto]. }
  revert first. induction events as [| ev evs IH]; intros first Heq;
    cbn [chunks] in Heq; [discriminate |].
  destruct (parse cfg ev).
  - injection Heq as <- <-. split; [reflexivity |].
    apply Forall_forall. intros c' Hin. eapply Hlater. exact Hin.
  - injection Heq as <- <-. split; [reflexivity |].
    apply Forall_forall. intros c' Hin. eapply Hlater. exact Hin.
  - eauto.
Qed.

Lemma prefix_append (s t : string) : String.prefix s (s ++ t)%string = true.
Proof.
  induction s as [| a s IH]; [destruct t; reflexivity |].
  simpl. destruct (ascii_dec a a) as [_ | Hne]; [exact IH | contradiction].
Qed.

(** C8: in streaming mode every emitted chunk carries one and the same
    response id, which starts with [chatcmpl-]; the stream is those chunks
    followed by the literal [DONE] marker, which is its last event and is
    no chunk; in collecting mode the one aggregate object carries such an
    id, the same for the whole response. *)
Theorem stream_chunks_share_one_chatcmpl_id
    (count : string -> nat) (nonce model : string) (now : Z) (prompt : nat)
    (events : list upstream_event) :
  let out := stream_process cfg nonce model now events in
  let rid := response_id nonce in
  String.prefix "chatcmpl-" rid = true
  /\ (exists cs, out = (Data <$> cs) ++ [DONE] /\ Forall (fun c => id c = rid) cs)
  /\ (forall c, Data c ∈ out -> id c = rid)
  /\ last out = Some (Literal "[DONE]")
  /\ (forall c, Data c <> DONE)
  /\ agg_id (collect_process cfg count nonce model now prompt events) = rid.
Proof.
  intros out rid. subst out rid. unfold stream_process.
  split; [apply prefix_append |]. split; [| split; [| split; [| split]]].
  - eexists. split; [reflexivity |].
    apply Forall_forall. intros c Hc. eapply chunks_share_id. exact Hc.
  - intros c Hin. apply elem_of_app in Hin as [Hin | Hin].
    + apply list_elem_of_fmap in Hin as (c' & [= <-] & Hc').
      eapply chunks_share_id. exact Hc'.
    + apply list_elem_of_singleton in Hin. discriminate.
  - apply last_snoc.
  - intros c. discriminate.
  - reflexivity.
Qed.

(** C9: a purely structural event adds no chunk, wherever it stands in the
    upstream sequence; the content deltas of the stream are exactly the
    content texts the parser takes from the events, in order, so the first
    chunk with content carries the first upstream content token (a token
    event contributes its text as it is); and no chunk is an empty
    preamble: each carries the text of an upstream event, as content or as
    reasoning, and that text is not empty.  The first chunk of a stream
    names the role and no later one does, so the role never travels
    without text; the first content delta is the first content token
    when no event ahead of it carries content; and when the events ahead
    of it carry nothing, as in [metadata, Hello, world], the first event
    of the stream is the chunk with the role and that token as its
    content. *)
Theorem structural_events_emit_nothing_and_first_chunk_has_first_token
    (nonce model : string) (now : Z) (events : list upstream_event) :
  let out := stream_process cfg nonce model now events in
  (forall pre post kind,
      stream_process cfg nonce model now (pre ++ Structural kind :: post)
      = stream_process cfg nonce model now (pre ++ post))
  /\ contents out = content_tokens cfg events
  /\ head (contents out) = head (content_tokens cfg events)
  /\ (forall text, truthy text = true -> parse cfg (ContentToken text) = Content text)
  /\ (forall kind, parse cfg (Structural kind) = Nothing)
  /\ (forall c, Data c ∈ out ->
        (exists ev text,
            ev ∈ events /\ parse cfg ev = Content text
            /\ delta_content c = Some text)
        \/ (exists ev text,
               ev ∈ events /\ parse cfg ev = Reasoning text
               /\ delta_content c = None
               /\ delta_reasoning_content c = Some text))
  /\ (forall c, Data c ∈ out ->
        (exists text,
            text <> EmptyString
            /\ delta_content c = Some text /\ delta_reasoning_content c = None)
        \/ (exists text,
               text <> EmptyString
               /\ delta_content c = None /\ delta_reasoning_content c = Some text))
  /\ Forall (fun text => text <> EmptyString) (contents out)
  /\ (forall c rest,
        out = Data c :: rest ->
        delta_role c = Some "assistant"%string
        /\ forall c', Data c' ∈ rest -> delta_role c' = None)
  /\ (forall pre text post,
        events = pre ++ ContentToken text :: post ->
        truthy text = true ->
        Forall (fun ev => forall t, parse cfg ev <> Content t) pre ->
        head (contents out) = Some text)
  /\ (forall pre text post,
        events = pre ++ ContentToken text :: post ->
        truthy text = true ->
        Forall (fun ev => parse cfg ev = Nothing) pre ->
        exists c rest,
          out = Data c :: rest
          /\ delta_role c = Some "assistant"%string
          /\ delta_content c = Some text
          /\ delta_reasoning_content c = None).
Proof.
  intros out. subst out.
  assert (Hcarry : forall c,
             Data c ∈ stream_process cfg nonce model now events ->
             c ∈ chunks cfg (response_id nonce) model now true events).
  { intros c Hin. unfold stream_process in Hin.
    apply elem_of_app in Hin as [Hin | Hin].
    - apply list_elem_of_fmap in Hin as (c' & [= <-] & Hc'). exact Hc'.
    - apply list_elem_of_singleton in Hin. discriminate. }
  assert (Hfull : forall text, truthy text = true -> text <> EmptyString)
    by (intros text Ht ->; discriminate Ht).
  split; [| split; [| split; [| split; [| split; [| split; [| split;
    [| split; [| split; [| split]]]]]]]]].
  - intros pre post kind. unfold stream_process.
    rewrite chunks_skip_structural. reflexivity.
  - rewrite contents_of_stream. apply chunk_contents.
  - rewrite contents_of_stream, chunk_contents. reflexivity.
  - intros text Htext. cbn. rewrite Htext. reflexivity.
  - reflexivity.
  - intros c Hin.
    destruct (chunk_carries_text _ _ _ _ _ _ (Hcarry c Hin))
      as [(ev & text & Hev & Hp & _ & Hc & _) | (ev & text & Hev & Hp & _ & Hc)];
      [left | right]; exists ev, text; repeat split; tauto.
  - intros c Hin.
    destruct (chunk_carries_text _ _ _ _ _ _ (Hcarry c Hin))
      as [(ev & text & _ & _ & Ht & Hc) | (ev & text & _ & _ & Ht & Hc)];
      [left | right]; exists text; (split; [exact (Hfull _ Ht) | exact Hc]).
  - rewrite contents_of_stream, chunk_contents.
    apply Forall_forall. intros text Hin. unfold content_tokens in Hin.
    apply list_elem_of_omap in Hin as (ev & _ & Hev).
    destruct (parse cfg ev) as [t | t |] eqn:Hp; try discriminate Hev.
    injection Hev as ->. apply Hfull, (parse_nonempty ev). now left.
  - intros c rest Hout. unfold stream_process in Hout.
    destruct (chunks cfg (response_id nonce) model now true events)
      as [| c0 cs] eqn:Hcs; [discriminate Hout |].
    cbn in Hout. injection Hout as <- <-.
    destruct (chunks_first_role _ _ _ _ _ _ _ Hcs) as [Hrole Hrest].
    split; [exact Hrole |].
    intros c' Hin. apply elem_of_app in Hin as [Hin | Hin].
    + apply list_elem_of_fmap in Hin as (c1 & [= <-] & Hc1).
      rewrite Forall_forall in Hrest. exact (Hrest _ Hc1).
    + apply list_elem_of_singleton in Hin. discriminate.
  - intros pre text post -> Htext Hpre.
    rewrite contents_of_stream, chunk_contents, (content_tokens_skip _ _ Hpre).
    unfold content_tokens. cbn [omap list_omap parse]. rewrite Htext. reflexivity.
  - intros pre text post -> Htext Hpre. unfold stream_process.
    rewrite (chunks_skip_silent _ _ _ _ _ _ Hpre). cbn [chunks parse].
    rewrite Htext. eexists _, _. split; [reflexivity |].
    repeat split.
Qed.

End TranslatorFacts.

(** ** The manager and translator tests, replayed *)

Section ManagerTests.

Import TokenPool TokenManager test_token_manager.

(** test_reserve_token_avoids_duplicate_until_release. *)
Example test_reserve_token_avoids_duplicate_until_release :
  let '(got1, st1) := reserve_token_for_model pool_for_model ttl now "grok-3" ∅ two_tokens in
  let '(got2, st2) := reserve_token_for_model pool_for_model ttl now "grok-3" ∅ st1 in
  let '(released, st3) := release_token_reservation "tok-a" 0 st2 in
  let '(got3, _) := reserve_token_for_model pool_for_model ttl now "grok-3" ∅ st3 in
  got1 = Some ("tok-a"%string, 0%nat)
  /\ got2 = Some ("tok-b"%string, 1%nat)
  /\ pools st1 !! "ssoBasic"%string
     = Some [set_inflight (now + ttl) (Some 0%nat) token_a; token_b]
  /\ released = true
  /\ pools st3 !! "ssoBasic"%string
     = Some [token_a; set_inflight (now + ttl) (Some 1%nat) token_b]
  /\ got3 = Some ("tok-a"%string, 2%nat).
Proof. vm_compute. repeat split. Qed.

(** C2, where the claim fails: a reservation is a time box.  In the pool
    of the test, a second call with no release in between, made once
    [reservation_ttl] seconds have gone by, returns the token of the first
    call again, under a new id; the record then holds the second
    reservation only. *)
Lemma reservation_expires_without_release :
  let first := reserve_token_for_model pool_for_model ttl now "grok-3" ∅ two_tokens in
  let second :=
    reserve_token_for_model pool_for_model ttl (now + ttl) "grok-3" ∅ (snd first) in
  fst first = Some ("tok-a"%string, 0%nat)
  /\ fst second = Some ("tok-a"%string, 1%nat)
  /\ ~ (forall tok1 rid1 tok2 rid2,
          fst first = Some (tok1, rid1) -> fst second = Some (tok2, rid2) ->
          tok2 <> tok1).
Proof.
  intros first second.
  assert (Hfirst : fst first = Some ("tok-a"%string, 0%nat)) by (vm_compute; reflexivity).
  assert (Hsecond : fst second = Some ("tok-a"%string, 1%nat)) by (vm_compute; reflexivity).
  split; [exact Hfirst | split; [exact Hsecond |]].
  intros Hnever. exact (Hnever _ _ _ _ Hfirst Hsecond eq_refl).
Qed.

Lemma reserve_selects_first_eligible_and_books_once_witness :
  let calls := [(now + 5, "grok-3"%string, (∅ : gset string));
                (now + 119, "grok-3"%string, ∅);
                (now + 119, "grok-3"%string, ∅)] in
  let first := reserve_token_for_model pool_for_model ttl now "grok-3" ∅ two_tokens in
  fst (reserve_run pool_for_model ttl calls (snd first))
  = [Some ("tok-b"%string, 1%nat); None; None]
  /\ (exists tok2 rid2,
         fst (reserve_token_for_model pool_for_model ttl (now + 5) "grok-3" ∅ (snd first))
         = Some (tok2, rid2)
         /\ tok2 <> "tok-a"%string /\ rid2 <> 0%nat)
  /\ (forall k now2 model2 exclude2 tok2 rid2,
         calls !! k = Some (now2, model2, exclude2) ->
         fst (reserve_run pool_for_model ttl calls (snd first)) !! k
         = Some (Some (tok2, rid2)) ->
         rid2 <> 0%nat /\ tok2 <> "tok-a"%string).
Proof.
  intros calls first.
  pose proof (reserve_selects_first_eligible_and_books_once pool_for_model ttl
                now "grok-3" ∅ two_tokens) as Hspec.
  cbv zeta in Hspec.
  change (fst (reserve_token_for_model pool_for_model ttl now "grok-3" ∅ two_tokens))
    with (Some ("tok-a"%string, 0%nat)) in Hspec.
  destruct Hspec as (_ & _ & _ & _ & _ & _ & Honce & Hrun).
  split; [vm_compute; reflexivity | split].
  - exists "tok-b"%string, 1%nat. split; [reflexivity |].
    apply (Honce (now + 5) "grok-3"%string ∅ "tok-b"%string 1%nat eq_refl);
      reflexivity.
  - intros k now2 model2 exclude2 tok2 rid2 Hk Hgot.
    assert (Hcalls : Forall (fun c => fst (fst c) < now + ttl) calls).
    { subst calls. repeat constructor. }
    destruct (Hrun calls Hcalls k now2 model2 exclude2 tok2 rid2 Hk Hgot)
      as [Hrid Htok].
    split; [exact Hrid | exact (Htok eq_refl)].
Defined.

Lemma release_clears_matching_reservation_only_witness :
  let st1 := snd (reserve_token_for_model pool_for_model ttl now "grok-3" ∅ two_tokens) in
  let out := release_token_reservation "tok-a" 0 st1 in
  fst out = true
  /\ (exists rid',
         fst (reserve_token_for_model pool_for_model ttl now "grok-3" ∅ (snd out))
         = Some ("tok-a"%string, rid'))
  /\ release_token_reservation "tok-a" 0 (snd out) = (false, snd out).
Proof.
  intros st1 out.
  destruct (release_clears_matching_reservation_only pool_for_model ttl
              "tok-a" 0 st1) as (_ & _ & _ & Hagain & Hreselect).
  destruct (Hreselect now "grok-3"%string ∅ two_tokens) as (Htrue & Hsame & _).
  - unfold now. lia.
  - reflexivity.
  - split; [exact Htrue | split; [exact Hsame | exact Hagain]].
Defined.

(** test_sync_usage_consumes_locally_before_remote_sync: quota 10 becomes 9
    at once, with one use counted; the correction that resolves with
    [remainingTokens = 7] makes it 7 and counts no further use. *)
Example test_sync_usage_consumes_locally_before_remote_sync :
  let '(ok, st1, task) := sync_usage draws_heavy "tok-1" "grok-3" true true one_token in
  let st2 :=
    match task with
    | Some t => resolve draws_heavy t (Return [("remainingTokens"%string, 7)]) st1
    | None => st1
    end in
  ok = true
  /\ (quota <$> pools st1 !! "ssoBasic"%string ≫= head) = Some 9
  /\ (use_count <$> pools st1 !! "ssoBasic"%string ≫= head) = Some 1
  /\ (quota <$> pools st2 !! "ssoBasic"%string ≫= head) = Some 7
  /\ (use_count <$> pools st2 !! "ssoBasic"%string ≫= head) = Some 1.
Proof. vm_compute. repeat split. Qed.


End ManagerTests.

Section TranslatorTests.

Import processor.

Local Abbreviation cfg := test_chat_retry.translator.

(** test_stream_processor_emits_stable_chatcmpl_id and
    test_stream_processor_first_chunk_contains_content_from_upstream: the
    fingerprint event yields nothing, the first chunk carries [Hello], all
    chunks carry one [chatcmpl-] id and the stream ends with [DONE]. *)
Example test_stream_processor_first_chunk_contains_content_from_upstream :
  stream_process cfg "7f3a" "grok-4-mini-thinking-tahoe" 0
    [Structural "llmInfo"; ContentToken "Hello"; ContentToken " world"]
  = [Data (mk_chunk "chatcmpl-7f3a" "chat.completion.chunk" 0
             "grok-4-mini-thinking-tahoe" (Some "assistant"%string)
             (Some "Hello"%string) None None);
     Data (mk_chunk "chatcmpl-7f3a" "chat.completion.chunk" 0
             "grok-4-mini-thinking-tahoe" None
             (Some " world"%string) None (Some "stop"%string));
     Literal "[DONE]"].
Proof. reflexivity. Qed.

(** test_collect_processor_returns_non_empty_chatcmpl_id. *)
Example test_collect_processor_returns_non_empty_chatcmpl_id :
  agg_id (collect_process cfg String.length "7f3a" "grok-4-mini-thinking-tahoe" 0 0
            [TerminalMetadata "hi"])
  = "chatcmpl-7f3a"%string.
Proof. reflexivity. Qed.

End TranslatorTests.
(** ** The retry loop as a whole *)

Section LoopFacts.

Context {M T RID Response Chunk Aggregate : Type}.
Variable D : collaborators M T RID Response Chunk Aggregate.

(** [chat_openai] leaves the manager and the statistics alone and posts at
    most once; it returns only after it has posted. *)
Lemma chat_openai_effect (tok : string) (request : ChatRequest)
    (w : world M T RID Chunk) :
  exists pre,
    posted_once tok pre
    /\ snd (chat_openai D tok request w)
       = mk_chat_world (mgr w) (stats w) (log w ++ pre)
           (upstream_calls w + length pre)
    /\ (returned (fst (chat_openai D tok request w)) = true ->
        pre = [EvUpstream tok]).
Proof.
  assert (Hsame : w = mk_chat_world (mgr w) (stats w) (log w ++ [])
                        (upstream_calls w + length (@nil (event RID Chunk)))).
  { destruct w as [m s l u]. cbn. rewrite app_nil_r, Nat.add_0_r. reflexivity. }
  assert (Hquiet : forall e : exn,
             exists pre : list (event RID Chunk),
               posted_once tok pre
               /\ w = mk_chat_world (mgr w) (stats w) (log w ++ pre)
                        (upstream_calls w + length pre)
               /\ (returned (@Raise (Response * bool * string) e) = true ->
                   pre = [EvUpstream tok])).
  { intros e. exists []. split; [now left |]. split; [exact Hsame |].
    intros [=]. }
  unfold chat_openai.
  destruct (ModelService_get D (model request)) as [model_info |];
    [| apply Hquiet].
  destruct (MessageExtractor.extract (messages request) (is_video model_info))
    as [e | [text attachments]].
  { destruct e; apply Hquiet. }
  destruct (upload_all D tok attachments [] []) as [ids | e]; [| apply Hquiet].
  exists [EvUpstream tok]. split; [now right |].
  unfold eff_bind, chat, eff_ret.
  destruct (post D (upstream_calls w) tok) as [error | status_code body];
    [| destruct (negb (status_code =? 200))];
    cbn [fst snd length]; rewrite Nat.add_1_r; repeat split.
Qed.

Lemma swallow_release_log (tok : string) (rid : RID) (w : world M T RID Chunk) :
  exists r m,
    swallow (do_release D tok rid) w
    = (r, mk_chat_world m (stats w) (log w ++ [EvRelease tok rid])
            (upstream_calls w))
    /\ (r = Return tt \/ exists e, r = Raise e /\ is_Exception e = false).
Proof.
  unfold swallow, do_release, on_mgr, emit. cbn [mgr stats log upstream_calls].
  destruct (release_token_reservation (token_mgr D) tok rid (mgr w))
    as [[b | e] m]; [| destruct (is_Exception e) eqn:He]; eauto 7.
Qed.

Lemma swallow_record_request_log (model : string) (ok : bool)
    (w : world M T RID Chunk) :
  exists r s,
    swallow (do_record_request D model ok) w
    = (r, mk_chat_world (mgr w) s (log w ++ [EvRecordRequest model ok])
            (upstream_calls w))
    /\ (r = Return tt \/ exists e, r = Raise e /\ is_Exception e = false).
Proof.
  unfold swallow, do_record_request, on_stats, emit.
  cbn [mgr stats log upstream_calls].
  destruct (record_request D model ok (stats w))
    as [[u | e] s]; [| destruct (is_Exception e) eqn:He]; eauto 7.
Qed.

Lemma idle_after_failure (tok : string) (rid : RID) (e : exn) :
  idle (mk_loop_vars (Response := Response) (Some tok) (Some rid) (Some e) None).
Proof. split; [reflexivity | right; discriminate]. Qed.

(** Every run of the loop, from idle loop variables, appends a trace of
    one of the shapes of [loop_trace], and ends as that trace says. *)
Lemma attempts_trace (range : list Z) (model : string) (request : ChatRequest) :
  forall (excluded : gset string) (vars : loop_vars RID Response)
         (w : world M T RID Chunk),
    idle vars ->
    exists new fin,
      log (snd (attempts D range model request excluded vars w)) = log w ++ new
      /\ loop_trace D model range excluded new fin
      /\ ends_as D fin (fst (attempts D range model request excluded vars w)).
Proof.
  induction range as [| attempt rest IH]; intros excluded vars w Hidle.
  { exists [], Exhausted. cbn. rewrite app_nil_r.
    split; [reflexivity |]. split; [constructor | exact Hidle]. }
  remember (attempts D (attempt :: rest) model request excluded vars w) as out
    eqn:Hout.
  cbn [attempts] in Hout. unfold eff_bind at 1 in Hout. unfold do_reserve in Hout.
  destruct (reserve_token_for_model (token_mgr D) model excluded (mgr w))
    as [[[tok rid] |] m1] eqn:Hres.
  2:{ subst out. exists [EvReserve model excluded None], Refused. cbn.
      split; [reflexivity |].
      split; [apply trace_no_token | split; [reflexivity | apply Hidle]]. }
  destruct (truthy tok) eqn:Htok; cbn [negb] in Hout.
  2:{ subst out.
      exists [EvReserve model excluded (Some (tok, rid))], (Dropped tok rid). cbn.
      split; [reflexivity |].
      split; [econstructor; eassumption |].
      split; [reflexivity | split; [exact Htok | apply Hidle]]. }
  set (w1 := mk_chat_world m1 (stats w)
               (log w ++ [EvReserve model excluded (Some (tok, rid))])
               (upstream_calls w)) in Hout.
  destruct (chat_openai_effect tok request w1) as (pre & Hpre & Hw2 & Hret).
  destruct (chat_openai D tok request w1) as [[[[resp s] mn] | e] w2] eqn:Hchat;
    cbn [fst snd] in Hw2, Hret; subst w2.
  { subst out. rewrite (Hret eq_refl).
    exists [EvReserve model excluded (Some (tok, rid)); EvUpstream tok], (Held tok rid).
    cbn. rewrite <- app_assoc. split; [reflexivity |].
    split; [econstructor; eassumption |]. repeat split. now eexists. }
  clear Hret.
  assert (Hleak :
            out = (Raise e,
                   mk_chat_world (mgr w1) (stats w1) (log w1 ++ pre)
                     (upstream_calls w1 + length pre)) ->
            is_AppException e = false ->
            exists new fin,
              log (snd out) = log w ++ new
              /\ loop_trace D model (attempt :: rest) excluded new fin
              /\ ends_as D fin (fst out)).
  { intros -> Hnot.
    exists (EvReserve model excluded (Some (tok, rid)) :: pre), (Leaked tok rid).
    cbn. rewrite <- app_assoc. split; [reflexivity |].
    split; [econstructor; eassumption |].
    split; [exact Hnot |]. exists tok, request, w1. rewrite Hchat. reflexivity. }
  assert (Happ :
            out = (swallow (do_release D tok rid) ;;;
                   swallow (do_record_request D model false) ;;;
                   eff_raise e)
                    (mk_chat_world (mgr w1) (stats w1) (log w1 ++ pre)
                       (upstream_calls w1 + length pre)) ->
            exists new fin,
              log (snd out) = log w ++ new
              /\ loop_trace D model (attempt :: rest) excluded new fin
              /\ ends_as D fin (fst out)).
  { intros Hrun. unfold eff_bind at 1 in Hrun.
    destruct (swallow_release_log tok rid
                (mk_chat_world (mgr w1) (stats w1) (log w1 ++ pre)
                   (upstream_calls w1 + length pre))) as (r & m2 & Hrel & _).
    rewrite Hrel in Hrun. clear Hrel. cbn [mgr stats log upstream_calls] in Hrun.
    destruct r as [[] | e1].
    - unfold eff_bind at 1 in Hrun.
      match type of Hrun with
      | context [swallow (do_record_request D model false) ?w3] =>
          destruct (swallow_record_request_log model false w3) as (r2 & s2 & Hrec & _)
      end.
      rewrite Hrec in Hrun. clear Hrec. cbn [mgr stats log upstream_calls] in Hrun.
      exists (EvReserve model excluded (Some (tok, rid))
              :: pre ++ EvRelease tok rid :: [EvRecordRequest model false]), Failed.
      destruct r2; rewrite Hrun; cbn; rewrite <- !app_assoc;
        (split; [reflexivity |
                 split; [econstructor; eauto; right; left; reflexivity | exact I]]).
    - rewrite Hrun.
      exists (EvReserve model excluded (Some (tok, rid))
              :: pre ++ EvRelease tok rid :: []), Failed.
      cbn. rewrite <- !app_assoc. split; [reflexivity |].
      split; [econstructor; eauto; left; reflexivity | exact I]. }
  destruct e as [message status | message | message code status_code
                 | message | name | |];
    cbn [is_AppException] in Hout;
    try (apply Happ; exact Hout); try (apply Hleak; [exact Hout | reflexivity]).
  clear Hleak Happ. cbn [str_exn] in Hout.
  unfold eff_bind at 1 in Hout.
  destruct (swallow_release_log tok rid
              (mk_chat_world (mgr w1) (stats w1) (log w1 ++ pre)
                 (upstream_calls w1 + length pre))) as (r & m2 & Hrel & _).
  rewrite Hrel in Hout. clear Hrel. cbn [mgr stats log upstream_calls] in Hout.
  destruct r as [[] | e1].
  2:{ subst out.
      exists (EvReserve model excluded (Some (tok, rid))
              :: pre ++ EvRelease tok rid :: []), Failed.
      cbn. rewrite <- !app_assoc. split; [reflexivity |].
      split; [econstructor; eauto; left; reflexivity | exact I]. }
  unfold eff_bind at 1, do_record_fail in Hout.
  cbn [mgr stats log upstream_calls] in Hout.
  set (code := match status with Some s => s | None => 0 end) in *.
  destruct (match status with
            | Some s => negb (s =? 200) && (attempt <? get_max_retry D)
            | None => false
            end) eqn:Hretry.
  2:{ subst out.
      exists (EvReserve model excluded (Some (tok, rid))
              :: pre ++ EvRelease tok rid :: [EvRecordFail tok code message]), Failed.
      cbn. rewrite <- !app_assoc. split; [reflexivity |].
      split; [econstructor; eauto; right; right; eauto | exact I]. }
  assert (Hleft : attempt < get_max_retry D).
  { destruct status as [s |]; [| discriminate].
    apply andb_true_iff in Hretry as [_ Hlt]. now apply Z.ltb_lt. }
  unfold eff_bind at 1, sleep, emit in Hout.
  cbn [mgr stats log upstream_calls] in Hout.
  destruct Hidle as [Hnone _]. rewrite Hnone in Hout.
  match type of Hout with
  | out = attempts D rest model request ?ex ?v ?w3 =>
      destruct (IH ex v w3 (idle_after_failure tok rid _))
        as (new & fin & Hlog & Htrace & Hends)
  end.
  rewrite <- Hout in Hlog, Hends. cbn [log] in Hlog.
  exists (EvReserve model excluded (Some (tok, rid))
          :: pre ++ [EvRelease tok rid; EvRecordFail tok code message;
                     EvSleep ((1 # 2) * inject_Z (attempt + 1))%Q] ++ new), fin.
  split.
  - rewrite Hlog. subst w1. cbn [log]. rewrite <- !app_assoc. reflexivity.
  - split; [econstructor; eauto | exact Hends].
Qed.

Lemma count_app {A : Type} (p : A -> bool) (l1 l2 : list A) :
  count p (l1 ++ l2) = (count p l1 + count p l2)%nat.
Proof. unfold count. rewrite List.filter_app, length_app. reflexivity. Qed.

Lemma reservations_app (l1 l2 : list (event RID Chunk)) :
  reservations (l1 ++ l2) = reservations l1 ++ reservations l2.
Proof. apply omap_app. Qed.

Lemma releases_app (l1 l2 : list (event RID Chunk)) :
  releases (l1 ++ l2) = releases l1 ++ releases l2.
Proof. apply omap_app. Qed.

Lemma sleeps_app (l1 l2 : list (event RID Chunk)) :
  sleeps (l1 ++ l2) = sleeps l1 ++ sleeps l2.
Proof. apply omap_app. Qed.

Lemma record_requests_app (l1 l2 : list (event RID Chunk)) :
  record_requests (l1 ++ l2) = record_requests l1 ++ record_requests l2.
Proof. apply omap_app. Qed.

(** What [chat_openai] logs is neither a reservation, a release, a sleep
    nor a statistic. *)
Lemma posted_once_quiet (tok : string) (pre : list (event RID Chunk)) :
  posted_once tok pre ->
  reservations pre = [] /\ releases pre = [] /\ sleeps pre = []
  /\ record_requests pre = [] /\ existsb is_refusal pre = false
  /\ count is_reserve pre = 0%nat /\ count is_sleep pre = 0%nat
  /\ (count is_upstream pre <= 1)%nat.
Proof. intros [-> | ->]; cbn; repeat split; lia. Qed.

Lemma report_quiet (model tok : string) (post : list (event RID Chunk)) :
  failure_report model tok post ->
  reservations post = [] /\ releases post = [] /\ sleeps post = []
  /\ (record_requests post = [] \/ record_requests post = [(model, false)])
  /\ existsb is_refusal post = false
  /\ count is_reserve post = 0%nat /\ count is_sleep post = 0%nat
  /\ count is_upstream post = 0%nat.
Proof.
  intros [-> | [-> | (code & reason & ->)]]; cbn; repeat split; auto.
Qed.

Lemma yields_quiet (chunks : list Chunk) :
  reservations (RID := RID) (EvYield <$> chunks) = []
  /\ releases (RID := RID) (EvYield <$> chunks) = [].
Proof. induction chunks as [| chunk rest [IH1 IH2]]; split; cbn; auto. Qed.

Lemma bookkeeping_quiet (post : list (event RID Chunk)) :
  forallb is_bookkeeping post = true ->
  reservations post = [] /\ releases post = [].
Proof.
  induction post as [| ev post IH]; [split; reflexivity |].
  cbn [forallb]. intros Hall. apply andb_true_iff in Hall as [Hev Hall].
  destruct (IH Hall) as [H1 H2].
  destruct ev; try discriminate; cbn; split; assumption.
Qed.

Ltac trace_cases H :=
  induction H as [excl | a rest excl | a rest excl tok rid m m' Hres Htok
                  | a rest excl tok rid m m' Hres Htok
                  | a rest excl tok rid m m' pre code reason new fin Hres Htok Hpre
                      Hleft Htrace IH
                  | a rest excl tok rid m m' pre post Hres Htok Hpre Hpost
                  | a rest excl tok rid m m' pre Hres Htok Hpre].

Lemma trace_counts (model : string) (range : list Z) (excluded : gset string)
    (new : list (event RID Chunk)) (fin : loop_end RID) :
  loop_trace D model range excluded new fin ->
  (count is_reserve new <= length range)%nat
  /\ (count is_upstream new <= count is_reserve new)%nat
  /\ (count is_sleep new
      <= length (List.filter (fun a : Z => (a <? get_max_retry D)%Z) range))%nat.
Proof.
  intros H. trace_cases H; try (cbn; repeat split; lia).
  - destruct IH as (Hr & Hu & Hs).
    destruct (posted_once_quiet tok pre Hpre) as (_ & _ & _ & _ & _ & Hpr & Hps & Hpu).
    change (EvReserve model excl (Some (tok, rid)) :: pre ++ ?l)
      with ([EvReserve model excl (Some (tok, rid))] ++ pre ++ l).
    rewrite !count_app. cbn [List.filter length].
    destruct (Z.ltb_spec a (get_max_retry D)) as [_ | ?]; [| lia].
    cbn [length]. cbn. lia.
  - destruct (posted_once_quiet tok pre Hpre) as (_ & _ & _ & _ & _ & Hpr & Hps & Hpu).
    destruct (report_quiet model tok post Hpost) as (_ & _ & _ & _ & _ & Hqr & Hqs & Hqu).
    change (EvReserve model excl (Some (tok, rid)) :: pre ++ EvRelease tok rid :: post)
      with ([EvReserve model excl (Some (tok, rid))] ++ pre
            ++ [EvRelease tok rid] ++ post).
    rewrite !count_app. cbn. lia.
  - destruct (posted_once_quiet tok pre Hpre) as (_ & _ & _ & _ & _ & Hpr & Hps & Hpu).
    change (EvReserve model excl (Some (tok, rid)) :: pre)
      with ([EvReserve model excl (Some (tok, rid))] ++ pre).
    rewrite !count_app. cbn. lia.
Qed.

Lemma posts_follow_app (l1 l2 : list (event RID Chunk)) :
  (forall pending, posts_follow pending l2 = true) ->
  forall pending,
    posts_follow pending l1 = true -> posts_follow pending (l1 ++ l2) = true.
Proof.
  intros Hl2. induction l1 as [| ev l1 IH]; intros pending Hl1; [apply Hl2 |].
  destruct ev; cbn [app posts_follow] in *; try (apply IH; exact Hl1).
  destruct pending as [t |]; [| discriminate].
  apply andb_true_iff in Hl1 as [Ht Hl1]. rewrite Ht. cbn. apply IH. exact Hl1.
Qed.

Lemma posts_follow_quiet (l : list (event RID Chunk)) :
  count is_upstream l = 0%nat ->
  count is_reserve l = 0%nat ->
  forall pending, posts_follow pending l = true.
Proof.
  induction l as [| ev l IH]; intros Hu Hr pending; [reflexivity |].
  destruct ev; cbn in Hu, Hr; try discriminate; cbn [posts_follow];
    apply IH; assumption.
Qed.

Lemma posted_once_follows (tok : string) (pre : list (event RID Chunk)) :
  posted_once tok pre -> posts_follow (Some tok) pre = true.
Proof.
  intros [-> | ->]; [reflexivity |]. cbn. rewrite String.eqb_refl. reflexivity.
Qed.

(** In the log of a retry loop every chat post follows a reservation that
    was granted, is made with its token, and is the only one made under
    it. *)
Lemma trace_posts (model : string) (range : list Z) (excluded : gset string)
    (new : list (event RID Chunk)) (fin : loop_end RID) :
  loop_trace D model range excluded new fin ->
  (forall pending, posts_follow pending new = true)
  /\ (count is_upstream new <= length (reservations new))%nat.
Proof.
  intros H. trace_cases H; try (split; [intros pending |]; cbn; lia || reflexivity).
  - split; [intros pending |]; cbn; [| lia]. rewrite String.eqb_refl. reflexivity.
  - destruct IH as [IHposts IHcount].
    destruct (posted_once_quiet tok pre Hpre) as (Hpres & _ & _ & _ & _ & _ & _ & Hpu).
    split.
    + intros pending. cbn [posts_follow fmap option_fmap option_map fst].
      apply posts_follow_app; [| exact (posted_once_follows tok pre Hpre)].
      intros p. cbn. apply IHposts.
    + change (EvReserve model excl (Some (tok, rid)) :: pre ++ ?l)
        with ([EvReserve model excl (Some (tok, rid))] ++ pre ++ l).
      rewrite !count_app, !reservations_app, !length_app, Hpres. cbn. lia.
  - destruct (posted_once_quiet tok pre Hpre) as (Hpres & _ & _ & _ & _ & _ & _ & Hpu).
    destruct (report_quiet model tok post Hpost)
      as (Hqres & _ & _ & _ & _ & Hqr & _ & Hqu).
    split.
    + intros pending. cbn [posts_follow fmap option_fmap option_map fst].
      apply posts_follow_app; [| exact (posted_once_follows tok pre Hpre)].
      intros p. cbn [posts_follow]. apply posts_follow_quiet; assumption.
    + change (EvReserve model excl (Some (tok, rid)) :: pre ++ EvRelease tok rid :: post)
        with ([EvReserve model excl (Some (tok, rid))] ++ pre
              ++ [EvRelease tok rid] ++ post).
      rewrite !count_app, !reservations_app, !length_app, Hpres, Hqres, Hqu. cbn. lia.
  - destruct (posted_once_quiet tok pre Hpre) as (Hpres & _ & _ & _ & _ & _ & _ & Hpu).
    split.
    + intros pending. cbn [posts_follow fmap option_fmap option_map fst].
      exact (posted_once_follows tok pre Hpre).
    + change (EvReserve model excl (Some (tok, rid)) :: pre)
        with ([EvReserve model excl (Some (tok, rid))] ++ pre).
      rewrite !count_app, !reservations_app, !length_app, Hpres. cbn. lia.
Qed.

Lemma trace_balance (model : string) (range : list Z) (excluded : gset string)
    (new : list (event RID Chunk)) (fin : loop_end RID) :
  loop_trace D model range excluded new fin ->
  reservations new = releases new ++ outstanding fin.
Proof.
  intros H. trace_cases H; try reflexivity.
  - destruct (posted_once_quiet tok pre Hpre) as (Hpr & Hpl & _).
    change (EvReserve model excl (Some (tok, rid)) :: pre ++ ?l)
      with ([EvReserve model excl (Some (tok, rid))] ++ pre ++ l).
    rewrite !reservations_app, !releases_app, Hpr, Hpl, IH. reflexivity.
  - destruct (posted_once_quiet tok pre Hpre) as (Hpr & Hpl & _).
    destruct (report_quiet model tok post Hpost) as (Hqr & Hql & _).
    change (EvReserve model excl (Some (tok, rid)) :: pre ++ EvRelease tok rid :: post)
      with ([EvReserve model excl (Some (tok, rid))] ++ pre
            ++ [EvRelease tok rid] ++ post).
    rewrite !reservations_app, !releases_app, Hpr, Hpl, Hqr, Hql. reflexivity.
  - destruct (posted_once_quiet tok pre Hpre) as (Hpr & Hpl & _).
    change (EvReserve model excl (Some (tok, rid)) :: pre)
      with ([EvReserve model excl (Some (tok, rid))] ++ pre).
    rewrite !reservations_app, !releases_app, Hpr, Hpl. reflexivity.
Qed.

Lemma trace_distinct (model : string) (range : list Z) (excluded : gset string)
    (new : list (event RID Chunk)) (fin : loop_end RID) :
  honours_exclude (token_mgr D) ->
  loop_trace D model range excluded new fin ->
  NoDup (fst <$> reservations new)
  /\ forall t, t ∈ fst <$> reservations new -> t ∉ excluded.
Proof.
  intros Hhonour H. trace_cases H;
    try (pose proof (Hhonour _ _ _ _ _ _ Hres) as Hfree).
  - cbn. split; [constructor | intros t Ht; inversion Ht].
  - cbn. split; [constructor | intros t Ht; inversion Ht].
  - cbn. split; [apply NoDup_singleton |].
    intros t Ht. apply list_elem_of_singleton in Ht as ->. exact Hfree.
  - cbn. split; [apply NoDup_singleton |].
    intros t Ht. apply list_elem_of_singleton in Ht as ->. exact Hfree.
  - destruct IH as [Hnodup Hout].
    destruct (posted_once_quiet tok pre Hpre) as (Hpr & _).
    change (EvReserve model excl (Some (tok, rid)) :: pre ++ ?l)
      with ([EvReserve model excl (Some (tok, rid))] ++ pre ++ l).
    rewrite !reservations_app, Hpr. cbn. split.
    + apply NoDup_cons. split; [| exact Hnodup].
      intros Hin. apply (Hout tok Hin).
      apply elem_of_union_l, elem_of_singleton. reflexivity.
    + intros t Ht. apply elem_of_cons in Ht as [-> | Ht]; [exact Hfree |].
      intros Hexcl. apply (Hout t Ht). apply elem_of_union_r. exact Hexcl.
  - destruct (posted_once_quiet tok pre Hpre) as (Hpr & _).
    destruct (report_quiet model tok post Hpost) as (Hqr & _).
    change (EvReserve model excl (Some (tok, rid)) :: pre ++ EvRelease tok rid :: post)
      with ([EvReserve model excl (Some (tok, rid))] ++ pre
            ++ [EvRelease tok rid] ++ post).
    rewrite !reservations_app, Hpr, Hqr. cbn. split; [apply NoDup_singleton |].
    intros t Ht. apply list_elem_of_singleton in Ht as ->. exact Hfree.
  - destruct (posted_once_quiet tok pre Hpre) as (Hpr & _).
    change (EvReserve model excl (Some (tok, rid)) :: pre)
      with ([EvReserve model excl (Some (tok, rid))] ++ pre).
    rewrite !reservations_app, Hpr. cbn. split; [apply NoDup_singleton |].
    intros t Ht. apply list_elem_of_singleton in Ht as ->. exact Hfree.
Qed.

(** The delays of a run over consecutive attempts are consecutive steps of
    the back-off. *)
Lemma trace_sleeps (model : string) (range : list Z) (excluded : gset string)
    (new : list (event RID Chunk)) (fin : loop_end RID) :
  loop_trace D model range excluded new fin ->
  forall s k : nat,
    range = map Z.of_nat (seq s k) ->
    sleeps new = backoff <$> map Z.of_nat (seq s (length (sleeps new))).
Proof.
  intros H. trace_cases H; intros s k Hrange; try reflexivity.
  - destruct (posted_once_quiet tok pre Hpre) as (_ & _ & Hps & _).
    change (EvReserve model excl (Some (tok, rid)) :: pre ++ ?l)
      with ([EvReserve model excl (Some (tok, rid))] ++ pre ++ l).
    rewrite !sleeps_app, Hps.
    change (sleeps [EvReserve (Chunk := Chunk) model excl (Some (tok, rid))])
      with (@nil Q).
    change (sleeps [EvRelease (Chunk := Chunk) tok rid; EvRecordFail tok code reason;
                    EvSleep ((1 # 2) * inject_Z (a + 1))%Q])
      with [backoff a].
    cbn [app length].
    destruct k as [| k]; [discriminate |].
    cbn [seq map] in Hrange. injection Hrange as -> Hrest.
    cbn [seq map fmap list_fmap]. f_equal.
    apply (IH (S s) k Hrest).
  - destruct (posted_once_quiet tok pre Hpre) as (_ & _ & Hps & _).
    destruct (report_quiet model tok post Hpost) as (_ & _ & Hqs & _).
    change (EvReserve model excl (Some (tok, rid)) :: pre ++ EvRelease tok rid :: post)
      with ([EvReserve model excl (Some (tok, rid))] ++ pre
            ++ [EvRelease tok rid] ++ post).
    rewrite !sleeps_app, Hps, Hqs. reflexivity.
  - destruct (posted_once_quiet tok pre Hpre) as (_ & _ & Hps & _).
    change (EvReserve model excl (Some (tok, rid)) :: pre)
      with ([EvReserve model excl (Some (tok, rid))] ++ pre).
    rewrite !sleeps_app, Hps. reflexivity.
Qed.

(** Inside the loop a request statistic is recorded only on the way out
    with an exception, and then it is a failure of the requested model. *)
Lemma trace_stats (model : string) (range : list Z) (excluded : gset string)
    (new : list (event RID Chunk)) (fin : loop_end RID) :
  loop_trace D model range excluded new fin ->
  record_requests new = []
  \/ (fin = Failed /\ record_requests new = [(model, false)]).
Proof.
  intros H. trace_cases H; try (left; reflexivity).
  - destruct (posted_once_quiet tok pre Hpre) as (_ & _ & _ & Hps & _).
    change (EvReserve model excl (Some (tok, rid)) :: pre ++ ?l)
      with ([EvReserve model excl (Some (tok, rid))] ++ pre ++ l).
    rewrite !record_requests_app, Hps. exact IH.
  - destruct (posted_once_quiet tok pre Hpre) as (_ & _ & _ & Hps & _).
    destruct (report_quiet model tok post Hpost) as (_ & _ & _ & Hqs & _).
    change (EvReserve model excl (Some (tok, rid)) :: pre ++ EvRelease tok rid :: post)
      with ([EvReserve model excl (Some (tok, rid))] ++ pre
            ++ [EvRelease tok rid] ++ post).
    rewrite !record_requests_app, Hps. cbn.
    destruct Hqs as [-> | ->]; [left | right]; auto.
  - destruct (posted_once_quiet tok pre Hpre) as (_ & _ & _ & Hps & _).
    change (EvReserve model excl (Some (tok, rid)) :: pre)
      with ([EvReserve model excl (Some (tok, rid))] ++ pre).
    rewrite !record_requests_app, Hps. left. reflexivity.
Qed.

(** An empty reservation ends the loop, and is the last thing it logs. *)
Lemma trace_refusal (model : string) (range : list Z) (excluded : gset string)
    (new : list (event RID Chunk)) (fin : loop_end RID) :
  loop_trace D model range excluded new fin ->
  (fin = Refused /\ exists before excl, new = before ++ [EvReserve model excl None])
  \/ (fin <> Refused /\ existsb is_refusal new = false).
Proof.
  intros H. trace_cases H; try (right; split; [discriminate | reflexivity]).
  - left. split; [reflexivity |]. exists [], excl. reflexivity.
  - destruct (posted_once_quiet tok pre Hpre) as (_ & _ & _ & _ & Hps & _).
    destruct IH as [(-> & before & excl' & ->) | (Hne & Hnone)].
    + left. split; [reflexivity |].
      exists (EvReserve model excl (Some (tok, rid))
              :: pre ++ [EvRelease tok rid; EvRecordFail tok code reason;
                         EvSleep ((1 # 2) * inject_Z (a + 1))%Q] ++ before), excl'.
      cbn. rewrite <- !app_assoc. reflexivity.
    + right. split; [exact Hne |].
      cbn [existsb is_refusal orb]. rewrite !existsb_app, Hps, Hnone. reflexivity.
  - destruct (posted_once_quiet tok pre Hpre) as (_ & _ & _ & _ & Hps & _).
    destruct (report_quiet model tok post Hpost) as (_ & _ & _ & _ & Hqs & _).
    right. split; [discriminate |].
    cbn [existsb is_refusal orb]. rewrite existsb_app, Hps. cbn. exact Hqs.
  - destruct (posted_once_quiet tok pre Hpre) as (_ & _ & _ & _ & Hps & _).
    right. split; [discriminate |]. cbn. exact Hps.
Qed.

Lemma trace_dropped_falsy (model : string) (range : list Z) (excluded : gset string)
    (new : list (event RID Chunk)) (tok : string) (rid : RID) :
  loop_trace D model range excluded new (Dropped tok rid) ->
  exists exclude m m',
    reserve_token_for_model (token_mgr D) model exclude m = (Some (tok, rid), m')
    /\ truthy tok = false.
Proof.
  remember (Dropped tok rid) as fin eqn:Hfin.
  induction 1; try discriminate; eauto.
  injection Hfin as -> ->. eauto.
Qed.

Lemma swallow_settle_log (tok model_name : string) (w : world M T RID Chunk) :
  exists r m s bk,
    swallow (do_sync_usage D tok model_name true true ;;;
             do_record_request D model_name true) w
    = (r, mk_chat_world m s (log w ++ bk) (upstream_calls w))
    /\ (bk = [EvSyncUsage tok model_name true true]
        \/ bk = [EvSyncUsage tok model_name true true;
                 EvRecordRequest model_name true])
    /\ (r = Return tt \/ exists e, r = Raise e /\ is_Exception e = false).
Proof.
  unfold swallow, eff_bind, do_sync_usage, do_record_request, on_mgr, on_stats, emit.
  cbn [mgr stats log upstream_calls].
  destruct (sync_usage (token_mgr D) tok model_name true true (mgr w))
    as [[b | e] m]; cbn [mgr stats log upstream_calls].
  - destruct (record_request D model_name true (stats w)) as [[u | e] s];
      [| destruct (is_Exception e) eqn:He];
      eexists _, _, _, [EvSyncUsage tok model_name true true;
                        EvRecordRequest model_name true];
      rewrite <- app_assoc; (split; [reflexivity | split; [right; reflexivity |]]);
      eauto.
  - destruct (is_Exception e) eqn:He;
      eexists _, _, _, [EvSyncUsage tok model_name true true];
      (split; [reflexivity | split; [left; reflexivity |]]); eauto.
Qed.

(** What the wrapped stream logs: the chunks it yields, its bookkeeping,
    and the release last. *)
Lemma wrapped_stream_log (processor : list Chunk * option exn) (tok : string)
    (rid : RID) (model_name : string) (c : consumer) (w : world M T RID Chunk) :
  exists bk,
    log (snd (_wrapped_stream D processor tok rid model_name c w))
    = log w ++ (EvYield <$> delivered processor c) ++ bk ++ [EvRelease tok rid]
    /\ forallb is_bookkeeping bk = true.
Proof.
  unfold _wrapped_stream. rewrite drain_from_start.
  set (w1 := mk_chat_world (mgr w) (stats w)
               (log w ++ (EvYield <$> delivered processor c)) (upstream_calls w)).
  assert (Hsettle : forall completed,
             exists bk,
               log (snd (settle D completed tok rid model_name w1))
               = log w1 ++ bk ++ [EvRelease tok rid]
               /\ forallb is_bookkeeping bk = true).
  { intros completed. unfold settle, try_finally.
    destruct completed.
    - destruct (swallow_settle_log tok model_name w1)
        as (r & m & s & bk & -> & Hbk & _).
      match goal with
      | |- context [swallow (do_release D tok rid) ?w3] =>
          destruct (swallow_release_log tok rid w3) as (r2 & m2 & -> & _)
      end.
      exists bk. cbn [mgr stats log upstream_calls].
      split; [destruct r2; cbn; rewrite <- app_assoc; reflexivity |].
      destruct Hbk as [-> | ->]; reflexivity.
    - destruct (swallow_record_request_log model_name false w1)
        as (r & s & -> & _).
      match goal with
      | |- context [swallow (do_release D tok rid) ?w3] =>
          destruct (swallow_release_log tok rid w3) as (r2 & m2 & -> & _)
      end.
      exists [EvRecordRequest model_name false]. cbn [mgr stats log upstream_calls].
      split; [destruct r2; cbn; rewrite <- app_assoc; reflexivity | reflexivity]. }
  unfold try_finally at 1.
  destruct (Hsettle (match stream_exit processor c with
                     | None => true
                     | Some _ => false
                     end)) as (bk & Hlog & Hbk).
  exists bk. split; [| exact Hbk].
  destruct (stream_exit processor c) as [e |];
    match goal with
    | |- context [settle D ?b tok rid model_name w1] =>
        destruct (settle D b tok rid model_name w1) as [[[] | e2] w2]
    end; cbn [fst snd] in *; rewrite Hlog; subst w1; cbn [log];
    rewrite <- !app_assoc; reflexivity.
Qed.

(** What a whole completion appends to the log: the trace of its loop,
    then what it does on the way out. *)
Lemma completions_trace (model : string) (messages : list message)
    (stream : option bool) (thinking : option string)
    (w : world M T RID Chunk) :
  exists new fin tail,
    log (snd (completions D model messages stream thinking w))
    = log w ++ new ++ tail
    /\ loop_trace D model (py_range (get_max_retry D + 1)) ∅ new fin
    /\ completion_end D model
         (match stream with Some b => b | None => grok_stream D end) fin tail
         (fst (completions D model messages stream thinking w)).
Proof.
  remember (completions D model messages stream thinking w) as out eqn:Hout.
  unfold completions in Hout. unfold eff_bind at 1 in Hout.
  match type of Hout with
  | context [attempts D ?range model ?req ∅ ?v w] =>
      destruct (attempts_trace range model req ∅ v w)
        as (new & fin & Hlog & Htrace & Hends);
      [split; [reflexivity | left; reflexivity] |];
      destruct (attempts D range model req ∅ v w) as [[vars | e] w'] eqn:Hloop
  end; cbn [fst snd] in Hlog, Hends.
  2:{ subst out. exists new, fin, []. cbn [fst snd].
      rewrite !app_nil_r. split; [exact Hlog |]. split; [exact Htrace |].
      destruct fin; cbn in Hends; try contradiction; cbn; eauto. }
  exists new, fin.
  assert (Hstat :
            forall e0 : exn,
              out = (swallow (do_record_request D model false) ;;; eff_raise e0) w' ->
              log (snd out) = log w ++ new ++ [EvRecordRequest model false]
              /\ (fst out = Raise e0
                  \/ exists e, fst out = Raise e /\ is_Exception e = false)).
  { intros e0 Hrun. unfold eff_bind in Hrun.
    destruct (swallow_record_request_log model false w') as (r & s & Hrec & Hr).
    rewrite Hrec in Hrun. rewrite Hrun.
    destruct Hr as [-> | (e & -> & He)]; cbn; rewrite Hlog, <- !app_assoc;
      (split; [reflexivity | eauto]). }
  assert (Hraised :
            forall e0 : exn,
              fst out = Raise e0
              \/ (exists e, fst out = Raise e /\ is_Exception e = false) ->
              returned (fst out) = false).
  { intros e0 [-> | (e & -> & _)]; reflexivity. }
  destruct fin as [| | | tok rid | tok rid | tok rid]; cbn in Hends;
    try contradiction.
  - (* the range is used up *)
    destruct Hends as [_ Hidle].
    destruct (token vars) as [tok |] eqn:Htoken.
    + destruct Hidle as [? | Hpending]; [discriminate |].
      destruct (last_error vars) as [e |] eqn:Herr; [| contradiction].
      destruct (Hstat e Hout) as (Hl & He).
      exists [EvRecordRequest model false]. cbn. eauto.
    + destruct (Hstat _ Hout) as (Hl & He).
      exists [EvRecordRequest model false]. cbn. eauto.
  - (* the manager had no token *)
    destruct Hends as [Htoken _]. rewrite Htoken in Hout.
    destruct (Hstat _ Hout) as (Hl & He).
    exists [EvRecordRequest model false]. cbn. eauto.
  - (* a reservation is held by a successful call *)
    destruct Hends as (Htoken & Hrid & Herr & [[resp mn] Hresp]).
    rewrite Htoken, Herr, Hresp, Hrid in Hout.
    destruct (match stream with Some b => b | None => grok_stream D end).
    + subst out. exists []. cbn. rewrite !app_nil_r.
      split; [exact Hlog |]. split; [exact Htrace |]. eauto.
    + unfold try_finally in Hout. unfold eff_bind at 1 in Hout.
      destruct (CollectProcessor_process D mn tok
                  (_count_prompt_tokens (enc_len D) messages) resp)
        as [result | e].
      * unfold eff_bind at 1 in Hout.
        destruct (swallow_settle_log tok mn w') as (r & m & s & bk & Hset & Hbk & Hr).
        rewrite Hset in Hout. clear Hset.
        exists (bk ++ [EvRelease tok rid]).
        destruct Hr as [-> | (e1 & -> & He1)]; unfold eff_ret in Hout;
          match type of Hout with
          | context [swallow (do_release D tok rid) ?w3] =>
              destruct (swallow_release_log tok rid w3) as (r2 & m2 & Hrel & Hr2);
              rewrite Hrel in Hout; clear Hrel
          end;
          cbn [mgr stats log upstream_calls] in Hout;
          subst out; destruct Hr2 as [-> | (e2 & -> & He2)]; cbn [fst snd log];
          rewrite Hlog, <- !app_assoc;
          (split; [reflexivity | split; [exact Htrace |]]);
          exists bk; (split; [reflexivity |]); right; exists mn;
          (split; [exact Hbk |]); eauto.
      * destruct (swallow_release_log tok rid w') as (r2 & m2 & Hrel & Hr2).
        rewrite Hrel in Hout. clear Hrel.
        exists [EvRelease tok rid].
        subst out; destruct Hr2 as [-> | (e2 & -> & He2)]; cbn [fst snd log];
          rewrite Hlog, <- !app_assoc;
          (split; [reflexivity | split; [exact Htrace |]]);
          exists []; (split; [reflexivity |]); left; split; reflexivity.
  - (* a falsy token: the loop broke with no response bound *)
    destruct Hends as (Htoken & Hfalsy & Hresp).
    rewrite Htoken, Hresp in Hout.
    destruct (last_error vars) as [e |] eqn:Herr.
    + destruct (Hstat e Hout) as (Hl & He).
      exists [EvRecordRequest model false]. cbn. eauto 6.
    + subst out. exists []. cbn. rewrite !app_nil_r.
      split; [exact Hlog |]. split; [exact Htrace |]. split; [left |]; reflexivity.
Qed.

(** After its loop a completion reserves nothing, posts nothing and does
    not sleep; it releases only the reservation a collected result held. *)
Lemma tail_quiet (model : string) (is_stream : bool) (fin : loop_end RID)
    (tail : list (event RID Chunk))
    (r : result (completion RID Chunk Aggregate)) :
  completion_end D model is_stream fin tail r ->
  reservations tail = [] /\ sleeps tail = []
  /\ existsb is_refusal tail = false
  /\ count is_reserve tail = 0%nat /\ count is_upstream tail = 0%nat
  /\ count is_sleep tail = 0%nat
  /\ releases tail
     = match fin with
       | Held tok rid => if is_stream then [] else [(tok, rid)]
       | _ => []
       end.
Proof.
  destruct fin as [| | | tok rid | tok rid | tok rid]; cbn [completion_end].
  - intros [-> _]. repeat split.
  - intros [-> _]. repeat split.
  - intros [-> _]. repeat split.
  - destruct is_stream.
    + intros [-> _]. repeat split.
    + intros (bk & -> & [[-> _] | (mn & [-> | ->] & _)]); repeat split.
  - intros [-> _]. repeat split.
  - intros [[-> | ->] _]; repeat split.
Qed.

Lemma since_app (w w' : world M T RID Chunk) (new : list (event RID Chunk)) :
  log w' = log w ++ new -> since w w' = new.
Proof. intros Hlog. unfold since. rewrite Hlog. apply drop_app_length. Qed.

Lemma retriable_in_range (m : Z) (k : nat) :
  length (List.filter (fun a : Z => a <? m) (map Z.of_nat (seq 0 k)))
  = Nat.min k (Z.to_nat m).
Proof.
  induction k as [| k IH]; [reflexivity |].
  rewrite seq_S, map_app, List.filter_app, length_app, IH. cbn [seq map List.filter].
  destruct (Z.ltb_spec (Z.of_nat (0 + k)) m); cbn [length]; lia.
Qed.

(** X1: one completion asks the manager for a token at most
    [max_retry + 1] times and sleeps at most [max_retry] times.  It posts
    the chat request at most once per reservation it was given: every
    chat post follows a reservation that was granted, is made with its
    token, and is the only one made under it, so the posts are at most
    the reservations granted.  (The uploads of attachments are requests
    of their own, made under the same reservation; the log does not hold
    them and they are not counted here.) *)
Theorem completions_bounds_its_calls (model : string) (messages : list message)
    (stream : option bool) (thinking : option string)
    (w : world M T RID Chunk) :
  let calls := since w (snd (completions D model messages stream thinking w)) in
  (count is_reserve calls <= Z.to_nat (get_max_retry D + 1))%nat
  /\ (count is_upstream calls <= count is_reserve calls)%nat
  /\ (count is_sleep calls <= Z.to_nat (get_max_retry D))%nat
  /\ (count is_upstream calls <= length (reservations calls))%nat
  /\ posts_follow None calls = true.
Proof.
  destruct (completions_trace model messages stream thinking w)
    as (new & fin & tail & Hlog & Htrace & Hend).
  cbv zeta. rewrite (since_app _ _ _ Hlog).
  destruct (trace_counts _ _ _ _ _ Htrace) as (Hr & Hu & Hs).
  destruct (trace_posts _ _ _ _ _ Htrace) as (Hposts & Hgranted).
  destruct (tail_quiet _ _ _ _ _ Hend) as (Htres & _ & _ & Htr & Htu & Hts & _).
  rewrite !count_app, reservations_app, length_app, Htres, Htr, Htu, Hts.
  unfold py_range in Hr, Hs. rewrite length_map, length_seq in Hr.
  rewrite retriable_in_range in Hs.
  split; [lia |]. split; [lia |]. split; [lia |]. split; [cbn; lia |].
  apply posts_follow_app; [| apply Hposts].
  apply posts_follow_quiet; assumption.
Qed.

(** X2: under a manager that honours the exclude set, the tokens reserved
    during one completion are pairwise distinct: a failed token is never
    tried again within the request. *)
Theorem completions_never_retries_a_token (model : string)
    (messages : list message) (stream : option bool) (thinking : option string)
    (w : world M T RID Chunk) :
  honours_exclude (token_mgr D) ->
  NoDup (fst <$> reservations
                   (since w (snd (completions D model messages stream thinking w)))).
Proof.
  intros Hhonour.
  destruct (completions_trace model messages stream thinking w)
    as (new & fin & tail & Hlog & Htrace & Hend).
  rewrite (since_app _ _ _ Hlog).
  destruct (trace_distinct _ _ _ _ _ Hhonour Htrace) as [Hnodup _].
  destruct (tail_quiet _ _ _ _ _ Hend) as (Htr & _).
  rewrite !reservations_app, Htr, !app_nil_r. exact Hnodup.
Qed.

(** X3: with a manager that hands out non-empty tokens, a completion
    leaves its reservations balanced.  When it returns a collected result,
    every reservation it took has been released, in order; when it returns
    a stream, exactly the reservation of that stream is still held; when
    it raises, every reservation has been released unless the exception is
    no [AppException], in which case the last one is still held. *)
Theorem completions_balances_reservations (model : string)
    (messages : list message) (stream : option bool) (thinking : option string)
    (w : world M T RID Chunk) :
  tokens_truthy (token_mgr D) ->
  let out := completions D model messages stream thinking w in
  let calls := since w (snd out) in
  match fst out with
  | Return (Streaming _ tok rid _) =>
      reservations calls = releases calls ++ [(tok, rid)]
  | Return (Collected _) => reservations calls = releases calls
  | Raise e =>
      reservations calls = releases calls
      \/ (is_AppException e = false
          /\ exists held, reservations calls = releases calls ++ [held])
  end.
Proof.
  intros Htruthy out calls. subst out calls.
  destruct (completions_trace model messages stream thinking w)
    as (new & fin & tail & Hlog & Htrace & Hend).
  rewrite (since_app _ _ _ Hlog).
  pose proof (trace_balance _ _ _ _ _ Htrace) as Hbal.
  destruct (tail_quiet _ _ _ _ _ Hend) as (Htr & _ & _ & _ & _ & _ & Htl).
  rewrite !reservations_app, !releases_app, Htr, Htl, Hbal, !app_nil_r.
  destruct fin as [| | | tok rid | tok rid | tok rid];
    cbn [outstanding completion_end] in *; rewrite ?app_nil_r.
  - destruct Hend as [_ Hraise].
    destruct (fst (completions D model messages stream thinking w));
      [discriminate | left; reflexivity].
  - destruct Hend as [_ [-> | (e & -> & _)]]; left; reflexivity.
  - destruct Hend as [_ Hraise].
    destruct (fst (completions D model messages stream thinking w));
      [discriminate | left; reflexivity].
  - destruct (match stream with Some b => b | None => grok_stream D end).
    + destruct Hend as (_ & p & mn & ->). rewrite app_nil_r. reflexivity.
    + destruct Hend as (bk & _ & [[_ Hraise] | (mn & _ & [[a ->] | (e & -> & _)])]).
      * destruct (fst (completions D model messages stream thinking w));
          [discriminate | left; reflexivity].
      * reflexivity.
      * left. reflexivity.
  - destruct Hend as (_ & e & -> & Hnot & _). right. split; [exact Hnot |].
    exists (tok, rid). reflexivity.
  - exfalso. destruct (trace_dropped_falsy _ _ _ _ _ _ Htrace)
      as (ex & m & m' & Hres & Hfalsy).
    rewrite (Htruthy _ _ _ _ _ _ Hres) in Hfalsy. discriminate.
Qed.

(** X4: when a reservation comes back empty, the completion stops there:
    it makes no further call but to record the failed request, and it
    raises the 429 rate-limit error (or a cancellation that escapes the
    recording), whatever upstream error an earlier attempt left pending. *)
Theorem refused_reservation_is_rate_limited (model : string)
    (messages : list message) (stream : option bool) (thinking : option string)
    (w : world M T RID Chunk) :
  let out := completions D model messages stream thinking w in
  let calls := since w (snd out) in
  existsb is_refusal calls = true ->
  (exists before excluded,
      calls = before ++ [EvReserve model excluded None;
                         EvRecordRequest model false])
  /\ (fst out = Raise no_available_tokens
      \/ exists e, fst out = Raise e /\ is_Exception e = false).
Proof.
  intros out calls. subst out calls.
  destruct (completions_trace model messages stream thinking w)
    as (new & fin & tail & Hlog & Htrace & Hend).
  rewrite (since_app _ _ _ Hlog).
  destruct (tail_quiet _ _ _ _ _ Hend) as (_ & _ & Htail & _).
  rewrite existsb_app, Htail, orb_false_r. intros Hrefused.
  destruct (trace_refusal _ _ _ _ _ Htrace)
    as [(-> & before & excl & ->) | (_ & Hnone)]; [| congruence].
  destruct Hend as [-> Hout]. split; [| exact Hout].
  exists before, excl. rewrite <- app_assoc. reflexivity.
Qed.

(** X5: without a retry budget ([max_retry] below zero) a completion
    reserves nothing and posts nothing: it records the failed request and
    raises the 429 rate-limit error. *)
Theorem negative_budget_is_rate_limited (model : string)
    (messages : list message) (stream : option bool) (thinking : option string)
    (w : world M T RID Chunk) :
  get_max_retry D < 0 ->
  let out := completions D model messages stream thinking w in
  since w (snd out) = [EvRecordRequest model false]
  /\ mgr (snd out) = mgr w
  /\ upstream_calls (snd out) = upstream_calls w
  /\ (fst out = Raise no_available_tokens
      \/ exists e, fst out = Raise e /\ is_Exception e = false).
Proof.
  intros Hneg out. subst out. unfold completions.
  replace (py_range (get_max_retry D + 1)) with (@nil Z)
    by (unfold py_range; replace (Z.to_nat (get_max_retry D + 1)) with 0%nat by lia;
        reflexivity).
  cbv beta iota delta [attempts eff_bind eff_ret token].
  destruct (swallow_record_request_log model false w) as (r & s & -> & Hr).
  destruct Hr as [-> | (e & -> & He)]; cbn [fst snd mgr upstream_calls eff_raise];
    (split; [apply since_app; reflexivity |]); eauto 6.
Qed.

(** X6: a stream handed out by a completion holds exactly one
    reservation, its own, and running the stream against any consumer
    gives it back: over the completion and the stream together every
    reservation is released, the release of the stream's reservation being
    the last call made. *)
Theorem streamed_completion_settles_its_reservation (model : string)
    (messages : list message) (stream : option bool) (thinking : option string)
    (w : world M T RID Chunk) (p : list Chunk * option exn) (tok : string)
    (rid : RID) (model_name : string) (c : consumer) :
  fst (completions D model messages stream thinking w)
  = Return (Streaming p tok rid model_name) ->
  let w1 := snd (completions D model messages stream thinking w) in
  let w2 := snd (_wrapped_stream D p tok rid model_name c w1) in
  reservations (since w w1) = releases (since w w1) ++ [(tok, rid)]
  /\ reservations (since w w2) = releases (since w w2)
  /\ last (since w w2) = Some (EvRelease tok rid).
Proof.
  intros Hret w1 w2. subst w1 w2.
  destruct (completions_trace model messages stream thinking w)
    as (new & fin & tail & Hlog & Htrace & Hend).
  destruct (wrapped_stream_log p tok rid model_name c
              (snd (completions D model messages stream thinking w)))
    as (bk & Hlog2 & Hbk).
  rewrite Hlog, <- !app_assoc in Hlog2.
  rewrite (since_app _ _ _ Hlog), (since_app _ _ _ Hlog2).
  pose proof (trace_balance _ _ _ _ _ Htrace) as Hbal.
  destruct (tail_quiet _ _ _ _ _ Hend) as (Htr & _ & _ & _ & _ & _ & Htl).
  destruct (yields_quiet (delivered p c)) as [Hyr Hyl].
  destruct (bookkeeping_quiet bk Hbk) as [Hbr Hbl].
  assert (Hheld : fin = Held tok rid
                  /\ (match stream with Some b => b | None => grok_stream D end) = true).
  { rewrite Hret in Hend.
    destruct fin as [| | | tok' rid' | tok' rid' | tok' rid'];
      cbn [completion_end] in Hend.
    - destruct Hend as [_ ?]. discriminate.
    - destruct Hend as [_ [? | (e & ? & _)]]; discriminate.
    - destruct Hend as [_ ?]. discriminate.
    - destruct (match stream with Some b => b | None => grok_stream D end).
      + destruct Hend as (_ & p' & mn' & [= _ -> -> _]). split; reflexivity.
      + destruct Hend as (bk' & _ & [[_ ?] | (mn & _ & [[a ?] | (e & ? & _)])]);
          discriminate.
    - destruct Hend as (_ & e & ? & _). discriminate.
    - destruct Hend as [_ ?]. discriminate. }
  destruct Hheld as [-> Hstream]. rewrite Hstream in Htl.
  rewrite !reservations_app, !releases_app, Htr, Htl, Hyr, Hyl, Hbr, Hbl, Hbal.
  cbn [outstanding releases omap app]. rewrite !app_nil_r.
  split; [reflexivity |]. split; [reflexivity |].
  rewrite !app_assoc. apply last_snoc.
Qed.

(** X7: one completion records at most one request statistic, and the
    statistic agrees with the outcome.  A stream is handed out with no
    statistic recorded yet; a collected result comes with no failure
    recorded; a failure is recorded under the requested model and only
    when the completion raises; a success that is followed by a raise is
    followed by one that is no [Exception] (a cancellation). *)
Theorem completions_statistics_match_outcome (model : string)
    (messages : list message) (stream : option bool) (thinking : option string)
    (w : world M T RID Chunk) :
  let out := completions D model messages stream thinking w in
  let recorded := record_requests (since w (snd out)) in
  match fst out with
  | Return (Streaming _ _ _ _) => recorded = []
  | Return (Collected _) =>
      recorded = [] \/ exists model_name, recorded = [(model_name, true)]
  | Raise e =>
      recorded = [] \/ recorded = [(model, false)]
      \/ (is_Exception e = false
          /\ exists model_name, recorded = [(model_name, true)])
  end.
Proof.
  intros out recorded. subst out recorded.
  destruct (completions_trace model messages stream thinking w)
    as (new & fin & tail & Hlog & Htrace & Hend).
  rewrite (since_app _ _ _ Hlog), record_requests_app.
  destruct (trace_stats _ _ _ _ _ Htrace) as [-> | [-> ->]].
  2:{ destruct Hend as [-> Hraise].
      destruct (fst (completions D model messages stream thinking w));
        [discriminate | right; left; reflexivity]. }
  cbn [app].
  destruct fin as [| | | tok rid | tok rid | tok rid]; cbn [completion_end] in Hend.
  - destruct Hend as [-> Hraise].
    destruct (fst (completions D model messages stream thinking w));
      [discriminate | right; left; reflexivity].
  - destruct Hend as [-> [-> | (e & -> & _)]]; right; left; reflexivity.
  - destruct Hend as [-> Hraise].
    destruct (fst (completions D model messages stream thinking w));
      [discriminate | left; reflexivity].
  - destruct (match stream with Some b => b | None => grok_stream D end).
    + destruct Hend as (-> & p & mn & ->). reflexivity.
    + destruct Hend as (bk & -> & [[-> Hraise] | (mn & Hbk & Hout)]).
      * destruct (fst (completions D model messages stream thinking w));
          [discriminate | left; reflexivity].
      * rewrite record_requests_app.
        destruct Hbk as [-> | ->], Hout as [[a ->] | (e & -> & He)]; cbn; eauto 6.
  - destruct Hend as (-> & e & -> & _). left. reflexivity.
  - destruct Hend as [[-> | ->] Hraise];
      destruct (fst (completions D model messages stream thinking w));
      try discriminate; [left | right; left]; reflexivity.
Qed.

(** X8: the delays a completion sleeps between its attempts follow the
    linear back-off from its start: the first retry waits 0.5 s, the
    second 1 s, the k-th k/2 s, with no delay skipped or repeated. *)
Theorem completions_backoff_schedule (model : string)
    (messages : list message) (stream : option bool) (thinking : option string)
    (w : world M T RID Chunk) :
  let slept := sleeps (since w (snd (completions D model messages stream thinking w))) in
  slept = backoff <$> py_range (Z.of_nat (length slept)).
Proof.
  intros slept. subst slept.
  destruct (completions_trace model messages stream thinking w)
    as (new & fin & tail & Hlog & Htrace & Hend).
  rewrite (since_app _ _ _ Hlog), sleeps_app.
  destruct (tail_quiet _ _ _ _ _ Hend) as (_ & -> & _).
  rewrite app_nil_r. unfold py_range. rewrite Nat2Z.id.
  apply (trace_sleeps _ _ _ _ _ Htrace 0%nat _ eq_refl).
Qed.

End LoopFacts.

(** ** The retry loop on the test's manager double *)

Section LoopTests.

Import test_chat_retry.

Lemma dummy_tokens_truthy : tokens_truthy _DummyTokenManager.manager.
Proof.
  intros model exclude m tok rid m' Hres.
  cbn in Hres. unfold _DummyTokenManager.reserve_token_for_model in Hres.
  destruct (List.find _ _DummyTokenManager.tokens) as [t |] eqn:Hfind;
    [| discriminate].
  injection Hres as -> _ _.
  apply find_some in Hfind as [Hin _].
  destruct Hin as [<- | [<- | []]]; reflexivity.
Qed.

Lemma completions_never_retries_a_token_witness :
  let out := completions (patched always_500) "grok-3" user_hello (Some false) None start in
  honours_exclude (token_mgr (patched always_500))
  /\ NoDup (fst <$> reservations (since start (snd out))).
Proof.
  intros out. split; [exact dummy_honours_exclude |].
  apply (completions_never_retries_a_token (patched always_500)).
  exact dummy_honours_exclude.
Defined.

Lemma completions_balances_reservations_witness :
  let out := completions (patched hello) "grok-3" user_hello (Some false) None start in
  tokens_truthy (token_mgr (patched hello))
  /\ reservations (since start (snd out)) = releases (since start (snd out)).
Proof.
  intros out. split; [exact dummy_tokens_truthy |].
  exact (completions_balances_reservations (patched hello) "grok-3" user_hello
           (Some false) None start dummy_tokens_truthy).
Defined.

Lemma refused_reservation_is_rate_limited_witness :
  let D := with_max_retry 2 (patched always_500) in
  let out := completions D "grok-3" user_hello (Some false) None start in
  existsb is_refusal (since start (snd out)) = true
  /\ (fst out = Raise no_available_tokens
      \/ exists e, fst out = Raise e /\ is_Exception e = false).
Proof.
  intros D out.
  assert (Hrefused : existsb is_refusal (since start (snd out)) = true)
    by (vm_compute; reflexivity).
  split; [exact Hrefused |].
  exact (proj2 (refused_reservation_is_rate_limited D "grok-3" user_hello
                  (Some false) None start Hrefused)).
Defined.

Lemma negative_budget_is_rate_limited_witness :
  let D := with_max_retry (-1) (patched hello) in
  let out := completions D "grok-3" user_hello (Some false) None start in
  get_max_retry D < 0
  /\ since start (snd out) = [EvRecordRequest "grok-3" false].
Proof.
  intros D out.
  assert (Hneg : get_max_retry D < 0) by (cbn; lia).
  split; [exact Hneg |].
  exact (proj1 (negative_budget_is_rate_limited D "grok-3" user_hello
                  (Some false) None start Hneg)).
Defined.

Lemma streamed_completion_settles_its_reservation_witness :
  let D := patched hello in
  let p :=
    (processor.stream_process translator "test" "grok-3" 0
       [processor.Structural "llmInfo"; processor.ContentToken "Hello";
        processor.ContentToken " world"], @None exn) in
  let out := completions D "grok-3" user_hello (Some true) None start in
  let w2 := snd (_wrapped_stream D p token_a "req-1"%string "grok-3"
                   (ThrowAt 0 GeneratorExit) (snd out)) in
  fst out = Return (Streaming p token_a "req-1"%string "grok-3")
  /\ reservations (since start w2) = releases (since start w2)
  /\ last (since start w2) = Some (EvRelease token_a "req-1"%string).
Proof.
  intros D p out w2.
  assert (Hret : fst out = Return (Streaming p token_a "req-1"%string "grok-3"))
    by reflexivity.
  split; [exact Hret |].
  exact (proj2 (streamed_completion_settles_its_reservation D "grok-3" user_hello
                  (Some true) None start p token_a "req-1"%string "grok-3"
                  (ThrowAt 0 GeneratorExit) Hret)).
Defined.

End LoopTests.

(** ** The message extractor *)

Section ExtractorFacts.

Import MessageExtractor.

Lemma extract_items_accepts (items : list content_item) :
  forall parts attachments,
    exists r, extract_items false items parts attachments = inr r.
Proof.
  induction items as [| item rest IH]; intros parts attachments; cbn; [eauto |].
  destruct item; cbn; apply IH.
Qed.

Lemma extract_items_video (items : list content_item) :
  forall parts attachments,
    extract_items true items parts attachments
    = match omap rejection items with
      | e :: _ => inl e
      | [] => extract_items false items parts attachments
      end.
Proof.
  induction items as [| item rest IH]; intros parts attachments; [reflexivity |].
  destruct item; cbn; try apply IH; reflexivity.
Qed.

Lemma extract_items_attachments (items : list content_item) :
  forall parts attachments,
    exists parts',
      extract_items false items parts attachments
      = inr (parts', attachments ++ omap attachment items).
Proof.
  induction items as [| item rest IH]; intros parts attachments.
  - exists parts. cbn. rewrite app_nil_r. reflexivity.
  - destruct item as [text | url | data | url data | type]; cbn.
    + apply IH.
    + destruct (truthy url); [| apply IH].
      destruct (IH parts (attachments ++ [("image", url)])) as [parts' ->].
      exists parts'. rewrite <- app_assoc. reflexivity.
    + destruct (truthy data); [| apply IH].
      destruct (IH parts (attachments ++ [("audio", data)])) as [parts' ->].
      exists parts'. rewrite <- app_assoc. reflexivity.
    + destruct (truthy (if truthy url then url else data)); [| apply IH].
      destruct (IH parts (attachments ++ [("file", if truthy url then url else data)]))
        as [parts' ->].
      exists parts'. rewrite <- app_assoc. reflexivity.
    + apply IH.
Qed.

Lemma extract_messages_accepts (msgs : list message) :
  forall extracted attachments,
    exists r, extract_messages false msgs extracted attachments = inr r.
Proof.
  induction msgs as [| msg rest IH]; intros extracted attachments; cbn; [eauto |].
  destruct (content msg) as [s | items |]; try apply IH.
  destruct (extract_items_accepts items [] attachments) as [[parts atts] ->].
  apply IH.
Qed.

Lemma extract_messages_video (msgs : list message) :
  forall extracted attachments,
    extract_messages true msgs extracted attachments
    = match omap rejection (flat_map items_of msgs) with
      | e :: _ => inl e
      | [] => extract_messages false msgs extracted attachments
      end.
Proof.
  induction msgs as [| msg rest IH]; intros extracted attachments; [reflexivity |].
  cbn [extract_messages flat_map]. rewrite omap_app. unfold items_of at 1.
  destruct (content msg) as [s | items |]; cbn [omap app]; try apply IH.
  rewrite extract_items_video.
  destruct (omap rejection items) as [| e l]; cbn [app]; [| reflexivity].
  destruct (extract_items_accepts items [] attachments) as [[parts atts] ->].
  apply IH.
Qed.

Lemma extract_messages_attachments (msgs : list message) :
  forall extracted attachments,
    exists extracted',
      extract_messages false msgs extracted attachments
      = inr (extracted', attachments ++ omap attachment (flat_map items_of msgs)).
Proof.
  induction msgs as [| msg rest IH]; intros extracted attachments.
  - exists extracted. cbn. rewrite app_nil_r. reflexivity.
  - cbn [extract_messages flat_map]. rewrite omap_app. unfold items_of at 1.
    destruct (content msg) as [s | items |]; cbn [omap app]; try apply IH.
    destruct (extract_items_attachments items [] attachments) as [parts ->].
    match goal with
    | |- context [extract_messages false rest ?ex ?at'] =>
        destruct (IH ex at') as [extracted' ->]
    end.
    exists extracted'. rewrite <- app_assoc. reflexivity.
Qed.

Lemma extract_messages_app (is_video : bool) (pre post : list message) :
  forall extracted attachments,
    extract_messages is_video (pre ++ post) extracted attachments
    = match extract_messages is_video pre extracted attachments with
      | inl e => inl e
      | inr (extracted', attachments') =>
          extract_messages is_video post extracted' attachments'
      end.
Proof.
  induction pre as [| msg rest IH]; intros extracted attachments; [reflexivity |].
  cbn [app extract_messages].
  destruct (match content msg with
            | ContentStr s => inr (if strip_nonempty s then [s] else [], attachments)
            | ContentList items => extract_items is_video items [] attachments
            | ContentOther => inr ([], attachments)
            end) as [e | [parts attachments']]; [reflexivity | apply IH].
Qed.

Lemma silent_step (is_video : bool) (msg : message) (rest : list message)
    (extracted attachments : list (string * string)) :
  silent msg = true ->
  extract_messages is_video (msg :: rest) extracted attachments
  = extract_messages is_video rest extracted attachments.
Proof.
  unfold silent. cbn [extract_messages].
  destruct (content msg) as [s | [| item items] |]; try discriminate.
  - intros Hblank. apply negb_true_iff in Hblank. rewrite Hblank. reflexivity.
  - reflexivity.
  - reflexivity.
Qed.

(** X9: over the requests whose content parts follow the OpenAI schema
    (each part an object, the [text] of a text part a string, the [file]
    of a file part an object: the requests [content_item] stands for),
    the extractor raises nothing for a model that is no video model; for
    a video model it raises exactly on the requests that hold an
    [input_audio] or a [file] item, with the [ValueError] of the first
    such item in reading order, and otherwise extracts what the other
    models extract.  The text-only entry extracts as a video model does,
    so it raises on the same requests.  A part outside the schema makes
    the code raise an [AttributeError]; such requests are not covered. *)
Theorem extract_rejects_audio_and_files_for_video_only (msgs : list message) :
  (exists r, extract msgs false = inr r)
  /\ extract msgs true
     = match omap rejection (flat_map items_of msgs) with
       | e :: _ => inl e
       | [] => extract msgs false
       end
  /\ extract_text_only msgs
     = match omap rejection (flat_map items_of msgs) with
       | e :: _ => inl e
       | [] =>
           match extract msgs false with
           | inl e => inl e
           | inr (text, _) => inr text
           end
       end.
Proof.
  assert (Hvideo : extract msgs true
                   = match omap rejection (flat_map items_of msgs) with
                     | e :: _ => inl e
                     | [] => extract msgs false
                     end).
  { unfold extract. rewrite extract_messages_video.
    destruct (omap rejection (flat_map items_of msgs)); reflexivity. }
  split; [| split; [exact Hvideo |]].
  - unfold extract.
    destruct (extract_messages_accepts msgs [] []) as [[extracted atts] ->]. eauto.
  - unfold extract_text_only. rewrite Hvideo.
    destruct (omap rejection (flat_map items_of msgs)); reflexivity.
Qed.

(** X10: a message without text and without items (a string of white
    space only, as [str.strip] reads white space, Unicode spaces
    included; an empty list; a content that is neither) leaves no trace
    in what is extracted, wherever it stands in the conversation. *)
Theorem silent_messages_are_ignored (pre post : list message) (msg : message)
    (is_video : bool) :
  silent msg = true ->
  extract (pre ++ msg :: post) is_video = extract (pre ++ post) is_video.
Proof.
  intros Hsilent. unfold extract. rewrite !extract_messages_app.
  destruct (extract_messages is_video pre [] []) as [e | [extracted atts]];
    [reflexivity |].
  rewrite (silent_step _ _ _ _ _ Hsilent). reflexivity.
Qed.

(** The blank message holds a space, an ideographic space (U+3000), a
    no-break space (U+00A0) and a line feed. *)
Lemma silent_messages_are_ignored_witness :
  let blank :=
    mk_message "system" (ContentStr (" 　 " ++ LF)) in
  let ask := mk_message "user" (ContentStr "hello") in
  silent blank = true
  /\ extract ([ask] ++ blank :: [ask]) false = extract ([ask] ++ [ask]) false.
Proof.
  intros blank ask.
  assert (Hsilent : silent blank = true) by reflexivity.
  split; [exact Hsilent |].
  exact (silent_messages_are_ignored [ask] [ask] blank false Hsilent).
Defined.

(** X11: the attachments a model that is no video model extracts are
    those of the items, one for each image, audio or file item with a
    payload, in reading order across the messages; text and other items
    give none. *)
Theorem extract_gathers_attachments_in_order (msgs : list message) :
  exists text,
    extract msgs false = inr (text, omap attachment (flat_map items_of msgs)).
Proof.
  unfold extract.
  destruct (extract_messages_attachments msgs [] []) as [extracted ->].
  eauto.
Qed.

Lemma last_user_fold_length (l : list (string * string)) :
  forall found i,
    snd (fold_left
           (fun '(found, i) entry =>
              (if String.eqb (fst entry) "user" then Some i else found, S i))
           l (found, i))
    = (i + length l)%nat.
Proof.
  induction l as [| entry rest IH]; intros found i; cbn; [lia |].
  rewrite IH. lia.
Qed.

Lemma last_user_index_snoc (l : list (string * string)) (entry : string * string) :
  last_user_index (l ++ [entry])
  = if String.eqb (fst entry) "user" then Some (length l) else last_user_index l.
Proof.
  unfold last_user_index. rewrite fold_left_app.
  pose proof (last_user_fold_length l None 0) as Hlen.
  destruct (fold_left _ l (None, 0%nat)) as [found i]. cbn in Hlen. subst i.
  reflexivity.
Qed.

(** X12: the entry [extract] leaves without a role prefix is the last
    one whose role is [user]: the index found holds a user entry and no
    later entry is one; none is found only when no entry is a user's. *)
Theorem last_user_index_is_the_last_user (extracted : list (string * string)) :
  match last_user_index extracted with
  | Some i =>
      (exists text, extracted !! i = Some ("user", text))
      /\ forall j r text,
          (i < j)%nat -> extracted !! j = Some (r, text) -> r <> "user"
  | None => forall j r text, extracted !! j = Some (r, text) -> r <> "user"
  end.
Proof.
  induction extracted as [| [r0 t0] l IH] using rev_ind; [intros j r text [=] |].
  rewrite last_user_index_snoc. cbn [fst].
  destruct (String.eqb_spec r0 "user") as [-> | Hne].
  - split.
    + exists t0. rewrite lookup_app_r by lia. rewrite Nat.sub_diag. reflexivity.
    + intros j r text Hlt Hj. apply lookup_lt_Some in Hj.
      rewrite length_app in Hj. cbn in Hj. lia.
  - assert (Hlast : forall j r text,
               (l ++ [(r0, t0)]) !! j = Some (r, text) ->
               (j < length l)%nat \/ r = r0).
    { intros j r text Hj.
      destruct (Nat.lt_ge_cases j (length l)) as [Hlt | Hge]; [now left |].
      right. rewrite lookup_app_r in Hj by lia.
      destruct (j - length l)%nat; [| discriminate]. now injection Hj as -> _. }
    destruct (last_user_index l) as [i |].
    + destruct IH as [[text Hi] Hafter]. split.
      * exists text. rewrite lookup_app_l by (eapply lookup_lt_Some; eassumption).
        exact Hi.
      * intros j r text' Hlt Hj.
        destruct (Hlast _ _ _ Hj) as [Hin | ->]; [| exact Hne].
        rewrite lookup_app_l in Hj by exact Hin. exact (Hafter _ _ _ Hlt Hj).
    + intros j r text Hj.
      destruct (Hlast _ _ _ Hj) as [Hin | ->]; [| exact Hne].
      rewrite lookup_app_l in Hj by exact Hin. exact (IH _ _ _ Hj).
Qed.

(** X13: a conversation that closes with a user message of plain text
    that is not white space only (as [str.strip] reads white space,
    Unicode spaces included) is rendered with that message verbatim at
    the end and every earlier turn prefixed by its role ([user] for an
    empty role), the turns separated by blank lines; the attachments are
    those of the earlier turns. *)
Theorem closing_user_message_is_verbatim (history : list message) (s : string)
    (is_video : bool) (extracted attachments : list (string * string)) :
  strip_nonempty s = true ->
  extract_messages is_video history [] [] = inr (extracted, attachments) ->
  extract (history ++ [mk_message "user" (ContentStr s)]) is_video
  = inr (String.concat (LF ++ LF) ((prefixed <$> extracted) ++ [s]), attachments).
Proof.
  intros Htext Hhistory. unfold extract.
  rewrite extract_messages_app, Hhistory. cbn [extract_messages content role].
  rewrite Htext. cbn [String.concat].
  rewrite last_user_index_snoc. cbn [fst String.eqb Ascii.eqb Bool.eqb].
  rewrite imap_app. cbn [imap]. rewrite Nat.add_0_r.
  rewrite bool_decide_eq_true_2 by reflexivity.
  assert (Hearlier :
            forall f : nat -> string * string -> string,
              (forall i x, extracted !! i = Some x -> f i x = prefixed x) ->
              imap f extracted = prefixed <$> extracted).
  { intros f Hf. rewrite <- (imap_const prefixed). apply imap_ext. exact Hf. }
  rewrite Hearlier; [reflexivity |].
  intros i [r text] Hi. apply lookup_lt_Some in Hi.
  rewrite bool_decide_eq_false_2 by (intros [=]; lia). reflexivity.
Qed.

Lemma closing_user_message_is_verbatim_witness :
  let history :=
    [mk_message "system" (ContentStr "be brief");
     mk_message "user" (ContentList [ItemText "look"; ItemImageUrl "https://x/cat.png"]);
     mk_message "assistant" (ContentStr "a cat")] in
  extract (history ++ [mk_message "user" (ContentStr "which breed?")]) false
  = inr (String.concat (LF ++ LF)
           ["system: be brief"; "user: look"; "assistant: a cat"; "which breed?"],
         [("image", "https://x/cat.png")]).
Proof.
  intros history.
  exact (closing_user_message_is_verbatim history "which breed?" false
           [("system", "be brief"); ("user", "look"); ("assistant", "a cat")]
           [("image", "https://x/cat.png")] eq_refl eq_refl).
Defined.

End ExtractorFacts.

(** ** Prompt tokens, uploads and the payload *)

Section PayloadFacts.

Context {M T RID Response Chunk Aggregate : Type}.
Variable D : collaborators M T RID Response Chunk Aggregate.

Lemma text_tokens_fold (enc : string -> nat) (items : list content_item) :
  forall acc : nat,
    fold_left
      (fun (acc : nat) item =>
         match item with
         | ItemText text => if truthy text then (acc + enc text)%nat else acc
         | _ => acc
         end) items acc
    = (acc + list_sum ((fun item =>
                          match item with
                          | ItemText text => if truthy text then enc text else 0
                          | _ => 0
                          end) <$> items))%nat.
Proof.
  induction items as [| item rest IH]; intros acc; cbn; [lia |].
  rewrite IH. unfold list_sum. destruct item as [text | | | |]; try lia.
  destruct (truthy text); lia.
Qed.

Lemma prompt_tokens_fold (enc : string -> nat) (msgs : list message) :
  forall total : nat,
    fold_left
      (fun total msg =>
         (total + 4 +
          match content msg with
          | ContentStr s => if truthy s then enc s else 0
          | ContentList items =>
              fold_left
                (fun acc item =>
                   match item with
                   | ItemText text => if truthy text then acc + enc text else acc
                   | _ => acc
                   end) items 0
          | ContentOther => 0
          end)%nat) msgs total
    = (total + 4 * length msgs + list_sum (message_tokens enc <$> msgs))%nat.
Proof.
  induction msgs as [| msg rest IH]; intros total; cbn [fold_left]; [cbn; lia |].
  rewrite IH. cbn [length fmap list_fmap list_sum fold_right].
  unfold message_tokens at 2.
  destruct (content msg) as [s | items |]; cbv beta iota;
    rewrite ?text_tokens_fold; unfold list_sum; lia.
Qed.

(** X14: the prompt count is 3 for the reply, 4 for each message, and the
    encoded length of each non-empty string content and of each non-empty
    text item; items that are no text count nothing.  Hence counting is
    additive over a split conversation, up to the base of 3. *)
Theorem prompt_tokens_add_up (enc : string -> nat) (a b : list message) :
  _count_prompt_tokens enc a
  = (3 + 4 * length a + list_sum (message_tokens enc <$> a))%nat
  /\ (_count_prompt_tokens enc (a ++ b) + 3
      = _count_prompt_tokens enc a + _count_prompt_tokens enc b)%nat.
Proof.
  unfold _count_prompt_tokens. rewrite !prompt_tokens_fold.
  split; [reflexivity |].
  rewrite fmap_app, length_app, list_sum_app. lia.
Qed.

Lemma upload_all_spec (tok : string) (attachments : list (string * string)) :
  forall file_ids image_ids,
    match upload_all D tok attachments file_ids image_ids with
    | Return (files, images) =>
        Forall (fun a => returned (upload D (snd a) tok) = true) attachments
        /\ files
           = file_ids
             ++ (file_id D tok <$> List.filter (fun a => negb (is_image a)) attachments)
        /\ images = image_ids ++ (file_id D tok <$> List.filter is_image attachments)
    | Raise e =>
        exists done a rest,
          attachments = done ++ a :: rest
          /\ Forall (fun a => returned (upload D (snd a) tok) = true) done
          /\ upload D (snd a) tok = Raise e
    end.
Proof.
  induction attachments as [| [attach_type attach_data] rest IH];
    intros file_ids image_ids.
  - cbn. rewrite !app_nil_r. repeat split. constructor.
  - cbn [upload_all].
    destruct (upload D attach_data tok) as [id | e] eqn:Hup.
    2:{ exists [], (attach_type, attach_data), rest. repeat split; [constructor | exact Hup]. }
    assert (Hid : file_id D tok (attach_type, attach_data) = id).
    { unfold file_id. cbn [snd]. rewrite Hup. reflexivity. }
    assert (Hok : returned (upload D (snd (attach_type, attach_data)) tok) = true).
    { cbn [snd]. rewrite Hup. reflexivity. }
    destruct (String.eqb attach_type "image") eqn:Himage.
    + assert (Hi : List.filter is_image ((attach_type, attach_data) :: rest)
                   = (attach_type, attach_data) :: List.filter is_image rest).
      { cbn [List.filter]. unfold is_image at 1. cbn [fst]. rewrite Himage.
        reflexivity. }
      assert (Hf : List.filter (fun a => negb (is_image a))
                     ((attach_type, attach_data) :: rest)
                   = List.filter (fun a => negb (is_image a)) rest).
      { cbn [List.filter]. unfold is_image at 1. cbn [fst]. rewrite Himage.
        reflexivity. }
      rewrite Hi, Hf. clear Hi Hf.
      specialize (IH file_ids (image_ids ++ [id])).
      destruct (upload_all D tok rest file_ids (image_ids ++ [id]))
        as [[files images] | e].
      * destruct IH as (Hall & -> & ->). split; [constructor; assumption |].
        split; [reflexivity |]. cbn [fmap list_fmap]. rewrite Hid, <- app_assoc.
        reflexivity.
      * destruct IH as (done & a & rest' & -> & Hall & Hfail).
        exists ((attach_type, attach_data) :: done), a, rest'.
        repeat split; [constructor; assumption | exact Hfail].
    + assert (Hi : List.filter is_image ((attach_type, attach_data) :: rest)
                   = List.filter is_image rest).
      { cbn [List.filter]. unfold is_image at 1. cbn [fst]. rewrite Himage.
        reflexivity. }
      assert (Hf : List.filter (fun a => negb (is_image a))
                     ((attach_type, attach_data) :: rest)
                   = (attach_type, attach_data)
                     :: List.filter (fun a => negb (is_image a)) rest).
      { cbn [List.filter]. unfold is_image at 1. cbn [fst]. rewrite Himage.
        reflexivity. }
      rewrite Hi, Hf. clear Hi Hf.
      specialize (IH (file_ids ++ [id]) image_ids).
      destruct (upload_all D tok rest (file_ids ++ [id]) image_ids)
        as [[files images] | e].
      * destruct IH as (Hall & -> & ->). split; [constructor; assumption |].
        split; [| reflexivity]. cbn [fmap list_fmap]. rewrite Hid, <- app_assoc.
        reflexivity.
      * destruct IH as (done & a & rest' & -> & Hall & Hfail).
        exists ((attach_type, attach_data) :: done), a, rest'.
        repeat split; [constructor; assumption | exact Hfail].
Qed.

Lemma filter_split_Permutation {A : Type} (p : A -> bool) (l : list A) :
  List.filter (fun a => negb (p a)) l ++ List.filter p l ≡ₚ l.
Proof.
  induction l as [| a l IH]; [reflexivity |].
  cbn [List.filter]. destruct (p a); cbn [negb app].
  - rewrite <- Permutation_middle. now constructor.
  - now constructor.
Qed.

(** X15: the uploads of [chat_openai] take the attachments in order and
    stop at the first that fails, whose exception is the one raised.  When
    all succeed, every attachment has been uploaded once and the request
    body built from the ids lists all of them under [fileAttachments], the
    files first and the images after, each group in order, while
    [imageAttachments] stays empty. *)
Theorem uploads_reach_the_payload (tok : string)
    (attachments : list (string * string)) :
  match upload_all D tok attachments [] [] with
  | Return (files, images) =>
      forall (grok_temporary : bool) (message model mode : string)
             (think : option bool),
        let body := build_payload grok_temporary message model mode think
                      (Some files) (Some images) in
        fileAttachments body
        = (file_id D tok <$> List.filter (fun a => negb (is_image a)) attachments)
          ++ (file_id D tok <$> List.filter is_image attachments)
        /\ fileAttachments body ≡ₚ file_id D tok <$> attachments
        /\ imageAttachments body = []
        /\ Forall (fun a => returned (upload D (snd a) tok) = true) attachments
  | Raise e =>
      exists done a rest,
        attachments = done ++ a :: rest
        /\ Forall (fun a => returned (upload D (snd a) tok) = true) done
        /\ upload D (snd a) tok = Raise e
  end.
Proof.
  pose proof (upload_all_spec tok attachments [] []) as Hspec.
  destruct (upload_all D tok attachments [] []) as [[files images] | e];
    [| exact Hspec].
  destruct Hspec as (Hall & Hfiles & Himages). cbn [app] in Hfiles, Himages.
  subst files images.
  intros grok_temporary message model mode think body.
  assert (Hmerged :
            fileAttachments body
            = (file_id D tok <$> List.filter (fun a => negb (is_image a)) attachments)
              ++ (file_id D tok <$> List.filter is_image attachments)).
  { subst body. unfold build_payload. cbn [fileAttachments].
    destruct (file_id D tok <$> List.filter (fun a => negb (is_image a)) attachments),
      (file_id D tok <$> List.filter is_image attachments);
      rewrite ?app_nil_r; reflexivity. }
  split; [exact Hmerged |]. split; [| split; [reflexivity | exact Hall]].
  rewrite Hmerged, <- fmap_app. apply fmap_Permutation, filter_split_Permutation.
Qed.

End PayloadFacts.

(** ** The quota query, its concurrency limit and the request headers *)

Section UsageQueryFacts.

Import usage.

Variable post : nat -> string -> string -> http_reply.
Variable retry_on_status :
  Eff world usage_data -> (exn -> option Z) -> Eff world usage_data.

(** X16: outside the cooldown, a query without retry posts exactly one
    request, and whatever goes wrong comes back as an [UpstreamException]:
    with the HTTP status when the endpoint answered something other than
    200, without a status when the post failed or a 200 body was no JSON.
    It returns the body only for a 200 answer, and it moves the cooldown
    deadline for no status but 404. *)
Theorem query_without_retry_posts_once_and_wraps_failures
    (token model_name : string) (w : world) :
  (_USAGE_SYNC_COOLDOWN_UNTIL w <= clock w)%Q ->
  let out := get post retry_on_status token model_name false w in
  posted (snd out) = S (posted w)
  /\ match fst out with
     | Return data =>
         (exists elapsed,
             post (posted w) token model_name = HttpResponse 200 (Some data) elapsed)
         /\ _USAGE_SYNC_COOLDOWN_UNTIL (snd out) = _USAGE_SYNC_COOLDOWN_UNTIL w
     | Raise (UpstreamException _ (Some code)) =>
         code <> 200
         /\ (exists json elapsed,
                post (posted w) token model_name = HttpResponse code json elapsed)
         /\ (code <> 404 ->
             _USAGE_SYNC_COOLDOWN_UNTIL (snd out) = _USAGE_SYNC_COOLDOWN_UNTIL w)
     | Raise (UpstreamException _ None) =>
         _USAGE_SYNC_COOLDOWN_UNTIL (snd out) = _USAGE_SYNC_COOLDOWN_UNTIL w
         /\ ((exists error elapsed,
                 post (posted w) token model_name = HttpFailure error elapsed)
             \/ exists elapsed,
                 post (posted w) token model_name = HttpResponse 200 None elapsed)
     | Raise _ => False
     end.
Proof.
  intros Hidle out. subst out. unfold get.
  destruct (Qle_bool (_get_sync_cooldown_remaining (_USAGE_SYNC_COOLDOWN_UNTIL w)
                        (clock w)) 0) eqn:Hcool.
  2:{ apply remaining_positive_iff in Hcool. lra. }
  cbn [negb]. unfold do_request.
  destruct (post (posted w) token model_name) as [status_code json elapsed | error elapsed]
    eqn:Hpost.
  - destruct (Z.eqb_spec status_code 200) as [-> | Hne].
    + destruct json as [data |]; cbn; split; try reflexivity; eauto.
    + destruct (Z.eqb_spec status_code 404) as [-> | Hne404]; cbn;
        (split; [reflexivity |]); (split; [exact Hne |]);
        (split; [eauto |]); intros Hother; [contradiction | reflexivity].
  - cbn. split; [reflexivity |]. split; [reflexivity |]. left. eauto.
Qed.

End UsageQueryFacts.

Section UsageQueryTests.

Import usage.

Lemma query_without_retry_posts_once_and_wraps_failures_witness :
  let reply := fun (_ : nat) (_ _ : string) => HttpResponse 503 None 2 in
  let retry := fun (c : Eff world usage_data) (_ : exn -> option Z) => c in
  let w := mk_world 1000 0 (CfgInt 60) 7 in
  (_USAGE_SYNC_COOLDOWN_UNTIL w <= clock w)%Q
  /\ posted (snd (get reply retry "tok-demo" "grok-3" false w)) = 8%nat.
Proof.
  intros reply retry w.
  assert (Hidle : (_USAGE_SYNC_COOLDOWN_UNTIL w <= clock w)%Q)
    by (vm_compute; discriminate).
  split; [exact Hidle |].
  exact (proj1 (query_without_retry_posts_once_and_wraps_failures reply retry
                  "tok-demo" "grok-3" w Hidle)).
Defined.

End UsageQueryTests.

Section UsageLimitFacts.

Import usage_limit.

(** X17: the semaphore that bounds the quota queries follows the
    configuration: what [_get_usage_semaphore] returns admits the
    configured number of holders, the default 25 when the value is absent
    or no integer, and never fewer than one.  It is replaced only when
    that number changes: a call that finds it unchanged returns the
    semaphore in place, so asking twice gives the same object. *)
Theorem usage_semaphore_follows_the_configuration (cfg : config_value)
    (st : state) :
  consistent st ->
  let out := _get_usage_semaphore cfg st in
  let configured :=
    match cfg with
    | CfgInt z => z
    | _ => DEFAULT_MAX_CONCURRENT
    end in
  value (fst out) = Z.max 1 configured
  /\ 1 <= value (fst out)
  /\ consistent (snd out)
  /\ _get_usage_semaphore cfg (snd out) = out
  /\ (Z.max 1 configured = _USAGE_SEM_VALUE st -> out = (_USAGE_SEMAPHORE st, st)).
Proof.
  intros [Hvalue Hserial] out configured. subst out.
  set (v := Z.max 1 configured).
  assert (Hrun : forall s,
             _get_usage_semaphore cfg s
             = if v =? _USAGE_SEM_VALUE s then (_USAGE_SEMAPHORE s, s)
               else (mk_Semaphore (created s) v,
                     mk_state (mk_Semaphore (created s) v) v (S (created s)))).
  { intros s. unfold _get_usage_semaphore, v, configured.
    destruct cfg; cbv zeta;
      match goal with
      | |- context [negb (?a =? ?b)] => destruct (a =? b); reflexivity
      end. }
  rewrite Hrun.
  destruct (Z.eqb_spec v (_USAGE_SEM_VALUE st)) as [Heq | Hne]; cbn [fst snd].
  - rewrite Hrun. rewrite Heq, Z.eqb_refl. rewrite Hvalue, <- Heq.
    repeat split; try assumption; unfold v; lia.
  - rewrite Hrun. cbn [_USAGE_SEM_VALUE]. rewrite Z.eqb_refl.
    cbn [value _USAGE_SEMAPHORE created serial].
    repeat split; try (unfold v; lia); try (intros Heq; contradiction).
    cbn. lia.
Qed.

Lemma usage_semaphore_follows_the_configuration_witness :
  consistent init
  /\ _get_usage_semaphore (CfgInt 0) init
     = (mk_Semaphore 1 1, mk_state (mk_Semaphore 1 1) 1 2)
  /\ _get_usage_semaphore CfgNotInt init = (mk_Semaphore 0 25, init).
Proof.
  assert (Hinit : consistent init) by (split; [reflexivity | cbn; lia]).
  split; [exact Hinit |].
  pose proof (usage_semaphore_follows_the_configuration CfgNotInt init Hinit)
    as (_ & _ & _ & _ & Hkeep).
  split; [reflexivity | exact (Hkeep eq_refl)].
Defined.

End UsageLimitFacts.

Section HeaderFacts.

Import headers.

Lemma substring_all (s : string) : String.substring 0 (String.length s) s = s.
Proof. induction s as [| c s IH]; [reflexivity |]. cbn. rewrite IH. reflexivity. Qed.

Lemma get_app (name : string) (hs1 hs2 : list (string * string)) :
  get name (hs1 ++ hs2)
  = match get name hs1 with
    | Some v => Some v
    | None => get name hs2
    end.
Proof.
  unfold get. induction hs1 as [| [k v] hs1 IH]; [reflexivity |].
  cbn [app List.find fst]. destruct (String.eqb k name); [reflexivity | exact IH].
Qed.

(** X18: the [Cookie] header is the same whether the token is given raw
    or with its [sso=] prefix, and it holds the clearance cookie exactly
    when one is configured; no other header depends on the token. *)
Theorem cookie_takes_raw_and_prefixed_tokens
    (statsig_id request_id cf token referer : string) :
  String.prefix "sso=" token = false ->
  build_grok_headers statsig_id request_id cf ("sso=" ++ token)%string referer
  = build_grok_headers statsig_id request_id cf token referer
  /\ get "Cookie" (build_grok_headers statsig_id request_id cf token referer)
     = Some (if truthy cf then "sso=" ++ token ++ ";cf_clearance=" ++ cf
             else "sso=" ++ token)%string
  /\ forall name other,
      name <> "Cookie" ->
      get name (build_grok_headers statsig_id request_id cf token referer)
      = get name (build_grok_headers statsig_id request_id cf other referer).
Proof.
  intros Hraw.
  assert (Hcookie : Cookie cf ("sso=" ++ token)%string = Cookie cf token).
  { assert (Hopen : ("sso=" ++ token)%string
                    = String "s" (String "s" (String "o" (String "=" token))))
      by reflexivity.
    unfold Cookie. rewrite Hraw.
    replace (String.prefix "sso=" ("sso=" ++ token)%string) with true
      by (rewrite Hopen; cbn; destruct token; reflexivity).
    replace (slice_from 4 ("sso=" ++ token)%string) with token; [reflexivity |].
    unfold slice_from. rewrite Hopen. cbn [String.length Nat.sub String.substring].
    rewrite Nat.sub_0_r. symmetry. apply substring_all. }
  split; [| split].
  - unfold build_grok_headers. rewrite Hcookie. reflexivity.
  - change (get "Cookie" (build_grok_headers statsig_id request_id cf token referer))
      with (Some (Cookie cf token)).
    unfold Cookie. rewrite Hraw. destruct (truthy cf); reflexivity.
  - intros name other Hname.
    set (common := firstn 22 (build_grok_headers statsig_id request_id cf
                                EmptyString referer)).
    assert (Hsplit : forall t,
               build_grok_headers statsig_id request_id cf t referer
               = common ++ [("Cookie", Cookie cf t)]) by (intros t; reflexivity).
    rewrite !Hsplit, !get_app.
    destruct (get name common); [reflexivity |].
    unfold get. cbn [List.find fst].
    destruct (String.eqb_spec "Cookie" name) as [<- | _]; [contradiction | reflexivity].
Qed.

Lemma cookie_takes_raw_and_prefixed_tokens_witness :
  String.prefix "sso=" "eyJhbGciOi" = false
  /\ get "Cookie" (build_grok_headers "statsig" "uuid" "cf-123" "sso=eyJhbGciOi"
                     "https://grok.com/")
     = Some "sso=eyJhbGciOi;cf_clearance=cf-123".
Proof.
  assert (Hraw : String.prefix "sso=" "eyJhbGciOi" = false) by reflexivity.
  split; [exact Hraw |].
  destruct (cookie_takes_raw_and_prefixed_tokens "statsig" "uuid" "cf-123"
              "eyJhbGciOi" "https://grok.com/" Hraw) as (Hsame & Hcookie & _).
  change ("sso=eyJhbGciOi") with ("sso=" ++ "eyJhbGciOi")%string.
  rewrite Hsame. exact Hcookie.
Defined.

End HeaderFacts.

(** ** The upload service *)

Section UploadFacts.

Variable is_url : string -> bool.
Variable fetch : string -> result (string * string * string).
Variable parse_b64 : string -> string * string * string.
Variable post : string -> string * string * string -> upload_reply.

(** X19: [UploadService.upload] returns only what a 200 answer of the
    upload endpoint holds, for an input with content.  Whatever else
    happens comes back as an [AppException]: an input without content as
    a [ValidationException], an answer other than 200 as an
    [UpstreamException] with that status, any other [Exception] wrapped
    into an [UpstreamException] without status; only what is no
    [Exception] (a cancellation) passes through unwrapped. *)
Theorem upload_wraps_every_error (file_input token : string) :
  match UploadService.upload is_url fetch parse_b64 post file_input token with
  | Return r =>
      exists filename b64 mime,
        (if is_url file_input then fetch file_input
         else Return (parse_b64 file_input)) = Return (filename, b64, mime)
        /\ truthy b64 = true
        /\ post token (filename, mime, b64) = UploadResponse 200 (Return r)
  | Raise e =>
      (is_AppException e = true \/ is_Exception e = false)
      /\ (forall filename mime,
             (if is_url file_input then fetch file_input
              else Return (parse_b64 file_input))
             = Return (filename, EmptyString, mime) ->
             e = ValidationException "Invalid file input: empty content")
      /\ (forall filename b64 mime status_code json,
             (if is_url file_input then fetch file_input
              else Return (parse_b64 file_input)) = Return (filename, b64, mime) ->
             truthy b64 = true ->
             post token (filename, mime, b64) = UploadResponse status_code json ->
             status_code <> 200 ->
             e = UpstreamException
                   ("Upload failed with status " ++ str_Z status_code)%string
                   (Some status_code))
  end.
Proof.
  unfold UploadService.upload, UploadService.attempt.
  assert (Hwrap : forall e : exn,
             match (if is_Exception e then
                      if is_AppException e then Raise e
                      else Raise (UpstreamException
                                    ("Upload process error: " ++ str_exn e)%string None)
                    else @Raise (string * string) e) with
             | Return _ => False
             | Raise e' => is_AppException e' = true \/ is_Exception e' = false
             end).
  { intros e. destruct (is_Exception e) eqn:He; [| right; exact He].
    destruct (is_AppException e) eqn:Ha; left; [exact Ha | reflexivity]. }
  destruct (if is_url file_input then fetch file_input
            else Return (parse_b64 file_input)) as [[[filename b64] mime] | e].
  2:{ pose proof (Hwrap e) as Hw.
      destruct (if is_Exception e then _ else _) as [r | e']; [contradiction |].
      split; [exact Hw |]. split; intros; discriminate. }
  destruct (truthy b64) eqn:Hcontent; cbn [negb].
  2:{ cbn. split; [left; reflexivity |]. split.
      - intros f m [= _ _ _]. reflexivity.
      - intros f b m sc js [= _ Hb _] Ht. rewrite Hb in Hcontent. congruence. }
  destruct (post token (filename, mime, b64)) as [e | status_code json] eqn:Hpost.
  { pose proof (Hwrap e) as Hw.
    destruct (if is_Exception e then _ else _) as [r | e']; [contradiction |].
    split; [exact Hw |]. split.
    - intros f m [= _ Hempty _]. rewrite Hempty in Hcontent. discriminate.
    - intros f b m sc js [= <- <- <-] _. rewrite Hpost. discriminate. }
  destruct (Z.eqb_spec status_code 200) as [-> | Hne].
  - destruct json as [r | e].
    + exists filename, b64, mime. repeat split; assumption.
    + pose proof (Hwrap e) as Hw.
      destruct (if is_Exception e then _ else _) as [r | e']; [contradiction |].
      split; [exact Hw |]. split.
      * intros f m [= _ Hempty _]. rewrite Hempty in Hcontent. discriminate.
      * intros f b m sc js [= <- <- <-] _. rewrite Hpost. intros [= <- <-].
        contradiction.
  - cbn. split; [left; reflexivity |]. split.
    + intros f m [= _ Hempty _]. rewrite Hempty in Hcontent. discriminate.
    + intros f b m sc js [= <- <- <-] _. rewrite Hpost. intros [= <- <-] _.
      reflexivity.
Qed.

End UploadFacts.

Section UploadTests.

Import test_chat_retry.

Lemma upload_wraps_every_error_witness :
  UploadService.upload (fun _ => false)
    (fun _ => Raise (OtherException "unreachable"))
    (fun data => ("file.bin", data, "application/octet-stream"))
    (fun _ _ => UploadResponse 403 (Raise (OtherException "JSONDecodeError")))
    "iVBORw0KGgo=" "tok-demo"
  = Raise (UpstreamException "Upload failed with status 403" (Some 403)).
Proof.
  pose proof (upload_wraps_every_error (fun _ => false)
                (fun _ => Raise (OtherException "unreachable"))
                (fun data => ("file.bin", data, "application/octet-stream"))
                (fun _ _ => UploadResponse 403 (Raise (OtherException "JSONDecodeError")))
                "iVBORw0KGgo=" "tok-demo") as Hspec.
  destruct (UploadService.upload _ _ _ _ "iVBORw0KGgo=" "tok-demo") as [r | e] eqn:Hup.
  - vm_compute in Hup. discriminate.
  - destruct Hspec as (_ & _ & Hstatus). f_equal.
    apply (Hstatus "file.bin" "iVBORw0KGgo=" "application/octet-stream" 403
             (Raise (OtherException "JSONDecodeError")));
      [reflexivity | reflexivity | reflexivity | discriminate].
Defined.

End UploadTests.

(** ** The image stream of the admin console *)

Section ImagineFacts.

Import admin_imagine_ws.

Context {M RID : Type}.
Variable D : collaborators M RID.

Lemma reserved_app (l1 l2 : list (call RID)) :
  reserved (l1 ++ l2) = reserved l1 ++ reserved l2.
Proof. apply omap_app. Qed.

Lemma released_app (l1 l2 : list (call RID)) :
  released (l1 ++ l2) = released l1 ++ released l2.
Proof. apply omap_app. Qed.

Lemma tally_app (l1 l2 : list (call RID)) :
  tally (l1 ++ l2) = tally_add (tally l1) (tally l2).
Proof.
  unfold tally, tally_add. rewrite reserved_app, released_app, !count_app.
  reflexivity.
Qed.

Lemma since_extend (w w' : world M RID) (new : list (call RID)) :
  log w' = log w ++ new -> since w w' = new.
Proof. intros Hlog. unfold since. rewrite Hlog. apply drop_app_length. Qed.

(** The image loop sends images only, and reports an image sent only
    after it has sent one. *)
Lemma send_images_log (images : list string) :
  forall (sent_any : bool) (w : world M RID),
    exists sent,
      log (snd (send_images D images sent_any w)) = log w ++ sent
      /\ tally sent = ([], [], 0, length sent, 0)%nat
      /\ (fst (send_images D images sent_any w) = Return true ->
          sent_any = true \/ (0 < length sent)%nat).
Proof.
  induction images as [| image rest IH]; intros sent_any w.
  { exists []. cbn. rewrite app_nil_r. repeat split. intros [= ->]. now left. }
  cbn [send_images].
  destruct (is_valid_imagine_image_value D image); cbn [negb]; [| apply IH].
  unfold _send. cbn [mgr log batches sends naps stop_event sequence].
  destruct (send_text D (sends w) (Image image (S (sequence w)))) as [[] | e].
  - match goal with
    | |- context [send_images D rest true ?w2] =>
        destruct (IH true w2) as (sent & Hlog & Htally & _)
    end.
    cbn [log] in Hlog.
    exists (Send (Image image (S (sequence w))) :: sent).
    rewrite Hlog, <- app_assoc. split; [reflexivity |].
    change (Send (Image image (S (sequence w))) :: sent)
      with ([Send (RID := RID) (Image image (S (sequence w)))] ++ sent).
    rewrite tally_app, Htally. split; [reflexivity |].
    intros _. right. cbn. lia.
  - destruct (is_Exception e);
      exists [Send (Image image (S (sequence w)))]; cbn;
      (split; [reflexivity | split; [reflexivity |]]); intros _; right; lia.
Qed.

(** What the image loop reports: an image was valid, whether or not the
    socket took it; it is left by an exception only when a send raised
    one that is no [Exception]. *)
Lemma send_images_sent (images : list string) :
  forall (sent_any : bool) (w : world M RID),
    match fst (send_images D images sent_any w) with
    | Return b => b = sent_any || existsb (is_valid_imagine_image_value D) images
    | Raise e => is_Exception e = false /\ exists n p, send_text D n p = Raise e
    end.
Proof.
  induction images as [| image rest IH]; intros sent_any w; cbn [send_images existsb].
  { cbn. now rewrite orb_false_r. }
  destruct (is_valid_imagine_image_value D image); cbn [negb orb]; [| apply IH].
  unfold _send. cbn [mgr log batches sends naps stop_event sequence].
  destruct (send_text D (sends w) (Image image (S (sequence w)))) as [[] | e] eqn:Hsend.
  - match goal with
    | |- context [send_images D rest true ?w2] => specialize (IH true w2)
    end.
    destruct (fst (send_images D rest true _)) as [b | e]; [| exact IH].
    cbn [orb] in IH. rewrite orb_true_r. exact IH.
  - destruct (is_Exception e) eqn:He; cbn [fst].
    + now rewrite orb_true_r.
    + split; [exact He | eauto].
Qed.

Lemma send_log (p : payload) (w : world M RID) :
  log (snd (_send D p w)) = log w ++ [Send p].
Proof.
  unfold _send. destruct (send_text D (sends w) p) as [[] | e];
    [| destruct (is_Exception e)]; reflexivity.
Qed.

Lemma sleep_log (delay : Q) (w : world M RID) :
  log (snd (sleep D delay w)) = log w ++ [Sleep delay].
Proof. reflexivity. Qed.

(** Reporting an error and pausing: what it logs is quiet. *)
Lemma report_log (message code : string) (delay : Q) (w : world M RID) :
  exists h,
    log (snd ((_send D (Error message code) ;;; sleep D delay ;;; eff_ret Continue) w))
    = log w ++ h
    /\ quiet h.
Proof.
  unfold eff_bind. pose proof (send_log (Error message code) w) as Hsend.
  destruct (_send D (Error message code) w) as [[ok | e] w1]; cbn [snd] in *.
  - pose proof (sleep_log delay w1) as Hsleep.
    destruct (sleep D delay w1) as [[[] | e] w2]; cbn [snd eff_ret] in *;
      exists [Send (Error message code); Sleep delay];
      rewrite Hsleep, Hsend, <- app_assoc; split; reflexivity.
  - exists [Send (Error message code)]. split; [exact Hsend | reflexivity].
Qed.

Lemma handled_log (body : Eff (world M RID) step) (w : world M RID) :
  exists h,
    log (snd (handled D body w)) = log (snd (body w)) ++ h /\ quiet h.
Proof.
  assert (Hsame : exists h : list (call RID),
             log (snd (body w)) = log (snd (body w)) ++ h /\ quiet h).
  { exists []. rewrite app_nil_r. split; reflexivity. }
  unfold handled. destruct (body w) as [[s | e] w1]; cbn [snd] in *;
    [exact Hsame |].
  destruct e; cbn [is_Exception str_exn]; try exact Hsame; apply report_log.
Qed.

Lemma release_log (tok : string) (rid : RID) (w : world M RID) :
  log (snd (swallow (do_release D tok rid) w)) = log w ++ [Release tok rid].
Proof.
  unfold swallow, do_release, on_mgr, emit. cbn [mgr log].
  destruct (release_token_reservation (token_mgr D) tok rid (mgr w))
    as [[b | e] m]; [| destruct (is_Exception e)]; reflexivity.
Qed.

Lemma sync_log (tok : string) (w : world M RID) :
  log (snd (swallow (do_sync_usage D tok) w))
  = log w ++ [SyncUsage tok model_id true true].
Proof.
  unfold swallow, do_sync_usage, on_mgr, emit. cbn [mgr log].
  destruct (sync_usage (token_mgr D) tok model_id true true (mgr w))
    as [[b | e] m]; [| destruct (is_Exception e)]; reflexivity.
Qed.

Lemma finally_log {A : Type} (body : Eff (world M RID) A)
    (final : Eff (world M RID) unit) (w : world M RID) :
  log (snd (try_finally body final w)) = log (snd (final (snd (body w)))).
Proof.
  unfold try_finally. destruct (body w) as [r w1]. cbn [snd].
  destruct (final w1) as [[[] | e] w2]; reflexivity.
Qed.

(** The [try] block with a token in hand: one batch, image sends, and at
    most one usage sync, made only after an image went out. *)
Lemma attempt_log (tok : string) (rid : RID) (w : world M RID) :
  truthy tok = true ->
  exists new syncs images,
    log (snd (attempt D (Some (tok, rid)) w)) = log w ++ new
    /\ tally new = ([], [], syncs, images, 1)%nat
    /\ (syncs <= images)%nat /\ (syncs <= 1)%nat.
Proof.
  intros Htok. unfold attempt. rewrite Htok. cbn [negb].
  unfold eff_bind at 1, collect. cbn [mgr log batches sends naps stop_event sequence].
  destruct (_collect_imagine_batch D (batches w) tok) as [images | e].
  2:{ exists [Collect tok], 0%nat, 0%nat. repeat split; lia. }
  unfold eff_bind at 1.
  match goal with
  | |- context [send_images D images false ?w2] =>
      destruct (send_images_log images false w2) as (sent & Hlog & Htally & Hany);
      destruct (send_images D images false w2) as [[sent_any | e] w3]
  end; cbn [fst snd log] in Hlog, Hany.
  2:{ exists ([Collect tok] ++ sent), 0%nat, (length sent). cbn [snd].
      rewrite Hlog, <- app_assoc. split; [reflexivity |].
      rewrite tally_app, Htally. repeat split; lia. }
  destruct sent_any.
  - destruct (Hany eq_refl) as [? | Hsent]; [discriminate |].
    unfold eff_bind, eff_ret. pose proof (sync_log tok w3) as Hsync.
    destruct (swallow (do_sync_usage D tok) w3) as [[[] | e] w4]; cbn [snd] in *;
      exists ([Collect tok] ++ sent ++ [SyncUsage tok model_id true true]),
             1%nat, (length sent);
      rewrite Hsync, Hlog, <- !app_assoc; (split; [reflexivity |]);
      rewrite !tally_app, Htally; cbn; rewrite ?Nat.add_0_r;
      repeat split; lia.
  - unfold eff_bind, eff_ret.
    pose proof (send_log (Error "Image generation returned empty data." "empty_image")
                  w3) as Hsend.
    destruct (_send D (Error "Image generation returned empty data." "empty_image") w3)
      as [[ok | e] w4]; cbn [snd] in *;
      exists ([Collect tok] ++ sent
              ++ [Send (Error "Image generation returned empty data." "empty_image")]),
             0%nat, (length sent);
      rewrite Hsend, Hlog, <- !app_assoc; (split; [reflexivity |]);
      rewrite !tally_app, Htally; cbn; rewrite ?Nat.add_0_r;
      repeat split; lia.
Qed.

(** One iteration: it reserves once, releases what it reserved when the
    token is not empty, makes at most one batch, and syncs the usage at
    most once and only after an image went out. *)
Lemma iteration_tally (w : world M RID) :
  let got := fst (reserve_token_for_model (token_mgr D) model_id ∅ (mgr w)) in
  exists new syncs images batches,
    log (snd (iteration D w)) = log w ++ new
    /\ tally new = (taken got, given_back got, syncs, images, batches)
    /\ (syncs <= images)%nat
    /\ (syncs <= length (taken got))%nat
    /\ (batches <= length (taken got))%nat.
Proof.
  cbv zeta. unfold iteration, eff_bind at 1, reserve.
  destruct (reserve_token_for_model (token_mgr D) model_id ∅ (mgr w))
    as [got m1]; cbn [fst].
  set (w1 := mk_world m1 (log w ++ [Reserve model_id got]) (batches w) (sends w)
               (naps w) (stop_event w) (sequence w)).
  rewrite finally_log.
  destruct (handled_log (attempt D got) w1) as (h & Hh & Hquiet).
  assert (Hrefused :
            forall w0 : world M RID,
              exists a,
                log (snd ((_send D (Error "No available tokens. Please try again later."
                                      "rate_limit_exceeded") ;;;
                           sleep D 2 ;;; eff_ret Continue) w0))
                = log w0 ++ a /\ quiet a) by (intros w0; apply report_log).
  destruct got as [[tok rid] |]; cbn [taken given_back].
  - destruct (truthy tok) eqn:Htok.
    + destruct (attempt_log tok rid w1 Htok)
        as (new & syncs & images & Hnew & Htally & Hle & Hone).
      rewrite release_log, Hh, Hnew. subst w1. cbn [log].
      exists ([Reserve model_id (Some (tok, rid))] ++ new ++ h ++ [Release tok rid]),
        syncs, images, 1%nat.
      rewrite <- !app_assoc. split; [reflexivity |].
      rewrite !tally_app, Htally, Hquiet. cbn. rewrite ?app_nil_r, ?Nat.add_0_r.
      repeat split; lia.
    + assert (Ha : exists a,
                 log (snd (attempt D (Some (tok, rid)) w1)) = log w1 ++ a /\ quiet a)
        by (unfold attempt; rewrite Htok; apply Hrefused).
      destruct Ha as (a & Ha & Hqa). rewrite Ha in Hh.
      unfold eff_ret at 1. cbn [snd]. rewrite Hh. subst w1. cbn [log].
      exists ([Reserve model_id (Some (tok, rid))] ++ a ++ h), 0%nat, 0%nat, 0%nat.
      rewrite <- !app_assoc. split; [reflexivity |].
      rewrite !tally_app, Hqa, Hquiet. cbn. repeat split; lia.
  - assert (Ha : exists a,
               log (snd (attempt D None w1)) = log w1 ++ a /\ quiet a)
      by (unfold attempt; apply Hrefused).
    destruct Ha as (a & Ha & Hqa). rewrite Ha in Hh.
    unfold eff_ret at 1. cbn [snd]. rewrite Hh. subst w1. cbn [log].
    exists ([Reserve model_id None] ++ a ++ h), 0%nat, 0%nat, 0%nat.
    rewrite <- !app_assoc. split; [reflexivity |].
    rewrite !tally_app, Hqa, Hquiet. cbn. repeat split; lia.
Qed.

Lemma quiet_counts (l : list (call RID)) :
  quiet l ->
  reserved l = [] /\ released l = []
  /\ count is_sync l = 0%nat /\ count is_image_send l = 0%nat
  /\ count is_collect l = 0%nat.
Proof. unfold quiet, tally. intros [= -> -> -> -> ->]. repeat split. Qed.

(** The [try] block with a token in hand, call by call: the batch, the
    images sent, and then either the usage sync, made when the batch held
    a valid image, or nothing that counts. *)
Lemma attempt_shape (tok : string) (rid : RID) (w : world M RID) :
  truthy tok = true ->
  exists sent tail,
    log (snd (attempt D (Some (tok, rid)) w)) = log w ++ [Collect tok] ++ sent ++ tail
    /\ tally sent = ([], [], 0, length sent, 0)%nat
    /\ ((tail = [SyncUsage tok model_id true true]
         /\ (0 < length sent)%nat
         /\ exists images,
             _collect_imagine_batch D (batches w) tok = Return images
             /\ existsb (is_valid_imagine_image_value D) images = true)
        \/ (quiet tail
            /\ forall images,
                _collect_imagine_batch D (batches w) tok = Return images ->
                existsb (is_valid_imagine_image_value D) images = true ->
                exists n p e, send_text D n p = Raise e /\ is_Exception e = false)).
Proof.
  intros Htok. unfold attempt. rewrite Htok. cbn [negb].
  unfold eff_bind at 1, collect. cbn [mgr log batches sends naps stop_event sequence].
  destruct (_collect_imagine_batch D (batches w) tok) as [images | e].
  2:{ exists [], []. cbn [snd log app]. split; [reflexivity |].
      split; [reflexivity |]. right. split; [reflexivity |]. intros images [=]. }
  unfold eff_bind at 1.
  match goal with
  | |- context [send_images D images false ?w2] =>
      destruct (send_images_log images false w2) as (sent & Hlog & Htally & Hany);
      pose proof (send_images_sent images false w2) as Hsent;
      destruct (send_images D images false w2) as [[sent_any | e] w3]
  end; cbn [fst snd log orb] in Hlog, Hany, Hsent.
  2:{ exists sent, []. cbn [snd]. rewrite Hlog, app_nil_r, <- app_assoc.
      split; [reflexivity |]. split; [exact Htally |].
      right. split; [reflexivity |].
      intros images' _ _. destruct Hsent as (He & n & p & Hraise). eauto. }
  destruct sent_any.
  - destruct (Hany eq_refl) as [? | Hlen]; [discriminate |].
    unfold eff_bind, eff_ret. pose proof (sync_log tok w3) as Hsync.
    exists sent, [SyncUsage tok model_id true true].
    assert (Hshape : log (snd (swallow (do_sync_usage D tok) w3))
                     = log w ++ [Collect tok] ++ sent
                       ++ [SyncUsage tok model_id true true])
      by (rewrite Hsync, Hlog, <- !app_assoc; reflexivity).
    split.
    + destruct (swallow (do_sync_usage D tok) w3) as [[[] | e] w4]; exact Hshape.
    + split; [exact Htally |]. left. split; [reflexivity |]. split; [exact Hlen |].
      exists images. split; [reflexivity | symmetry; exact Hsent].
  - unfold eff_bind, eff_ret.
    pose proof (send_log (Error "Image generation returned empty data." "empty_image")
                  w3) as Hsend.
    exists sent, [Send (Error "Image generation returned empty data." "empty_image")].
    assert (Hshape :
              log (snd (_send D (Error "Image generation returned empty data."
                                   "empty_image") w3))
              = log w ++ [Collect tok] ++ sent
                ++ [Send (Error "Image generation returned empty data." "empty_image")])
      by (rewrite Hsend, Hlog, <- !app_assoc; reflexivity).
    split.
    + destruct (_send D (Error "Image generation returned empty data." "empty_image") w3)
        as [[ok | e] w4]; exact Hshape.
    + split; [exact Htally |]. right. split; [reflexivity |].
      intros images' [= <-] Hvalid. rewrite Hvalid in Hsent. discriminate.
Qed.

(** One iteration, call by call. *)
Lemma iteration_shape (v : world M RID) :
  let got := fst (reserve_token_for_model (token_mgr D) model_id ∅ (mgr v)) in
  let new := since v (snd (iteration D v)) in
  (count is_collect new <= 1)%nat
  /\ (count is_sync new <= 1)%nat
  /\ (count is_sync new = 1%nat ->
      exists tok rid images before after,
        got = Some (tok, rid)
        /\ _collect_imagine_batch D (batches v) tok = Return images
        /\ existsb (is_valid_imagine_image_value D) images = true
        /\ new = before ++ SyncUsage tok model_id true true :: after
        /\ (1 <= count is_image_send before)%nat
        /\ count is_collect before = 1%nat
        /\ released after = [(tok, rid)])
  /\ (forall tok rid images,
        got = Some (tok, rid) -> truthy tok = true ->
        _collect_imagine_batch D (batches v) tok = Return images ->
        existsb (is_valid_imagine_image_value D) images = true ->
        (forall n p e, send_text D n p = Raise e -> is_Exception e = true) ->
        count is_sync new = 1%nat).
Proof.
  cbv zeta. unfold iteration, eff_bind at 1 2 3 4 5, reserve.
  destruct (reserve_token_for_model (token_mgr D) model_id ∅ (mgr v))
    as [got m1]; cbn [fst].
  set (w1 := mk_world m1 (log v ++ [Reserve model_id got]) (batches v) (sends v)
               (naps v) (stop_event v) (sequence v)).
  assert (Hquiet1 : forall (h : list (call RID)),
             quiet h ->
             log (snd (try_finally (handled D (attempt D got)) (eff_ret tt) w1))
             = log v ++ [Reserve model_id got] ++ h ->
             let new := since v (snd (try_finally (handled D (attempt D got))
                                        (eff_ret tt) w1)) in
             count is_collect new = 0%nat /\ count is_sync new = 0%nat).
  { intros h Hq Hlog new. subst new. rewrite (since_extend _ _ _ Hlog).
    destruct (quiet_counts h Hq) as (_ & _ & Hs & _ & Hc).
    rewrite !count_app, Hs, Hc. split; reflexivity. }
  assert (Hrefused :
            forall w0 : world M RID,
              exists a,
                log (snd ((_send D (Error "No available tokens. Please try again later."
                                      "rate_limit_exceeded") ;;;
                           sleep D 2 ;;; eff_ret Continue) w0))
                = log w0 ++ a /\ quiet a) by (intros w0; apply report_log).
  destruct (handled_log (attempt D got) w1) as (h & Hh & Hqh).
  pose proof (quiet_counts h Hqh) as (Hhres & Hhrel & Hhs & Hhi & Hhc).
  destruct got as [[tok rid] |].
  - destruct (truthy tok) eqn:Htok.
    + destruct (attempt_shape tok rid w1 Htok) as (sent & tail & Hnew & Htally & Hcases).
      assert (Hlog : log (snd (try_finally (handled D (attempt D (Some (tok, rid))))
                                 (swallow (do_release D tok rid)) w1))
                     = log v ++ [Reserve model_id (Some (tok, rid)); Collect tok]
                       ++ sent ++ tail ++ h ++ [Release tok rid]).
      { rewrite finally_log, release_log, Hh, Hnew. subst w1. cbn [log].
        rewrite <- !app_assoc. reflexivity. }
      rewrite (since_extend _ _ _ Hlog).
      unfold tally in Htally. injection Htally as _ _ Hss Hsi Hsc.
      destruct Hcases as [(-> & Hlen & images & Hbatch & Hvalid) | [Hqt Hwhy]].
      * assert (Hone : count is_sync
                         ([Reserve model_id (Some (tok, rid)); Collect tok] ++ sent
                          ++ [SyncUsage tok model_id true true] ++ h
                          ++ [Release tok rid]) = 1%nat).
        { rewrite !count_app, Hss, Hhs. reflexivity. }
        split; [rewrite !count_app, Hsc, Hhc; cbn; lia |].
        split; [rewrite Hone; lia |]. split.
        -- intros _. exists tok, rid, images,
             ([Reserve model_id (Some (tok, rid)); Collect tok] ++ sent),
             (h ++ [Release tok rid]).
           split; [reflexivity |]. split; [exact Hbatch |]. split; [exact Hvalid |].
           split; [rewrite <- !app_assoc; reflexivity |].
           rewrite !count_app, Hsi, Hsc, released_app, Hhrel. cbn.
           repeat split; lia.
        -- intros; exact Hone.
      * destruct (quiet_counts tail Hqt) as (_ & _ & Hts & _ & Htc).
        assert (Hzero : count is_sync
                          ([Reserve model_id (Some (tok, rid)); Collect tok] ++ sent
                           ++ tail ++ h ++ [Release tok rid]) = 0%nat).
        { rewrite !count_app, Hss, Hts, Hhs. reflexivity. }
        split; [rewrite !count_app, Hsc, Htc, Hhc; cbn; lia |].
        split; [rewrite Hzero; lia |]. split.
        -- rewrite Hzero. discriminate.
        -- intros tok' rid' images [= <- <-] _ Hbatch Hvalid Hsends. exfalso.
           destruct (Hwhy images Hbatch Hvalid) as (n & p & e & Hraise & He).
           rewrite (Hsends n p e Hraise) in He. discriminate.
    + assert (Ha : exists a,
                 log (snd (attempt D (Some (tok, rid)) w1)) = log w1 ++ a /\ quiet a)
        by (unfold attempt; rewrite Htok; apply Hrefused).
      destruct Ha as (a & Ha & Hqa). rewrite Ha in Hh.
      destruct (quiet_counts a Hqa) as (_ & _ & Has & _ & Hac).
      assert (Hlog : log (snd (try_finally (handled D (attempt D (Some (tok, rid))))
                                 (eff_ret tt) w1))
                     = log v ++ [Reserve model_id (Some (tok, rid))] ++ a ++ h).
      { rewrite finally_log. unfold eff_ret at 1. cbn [snd]. rewrite Hh.
        subst w1. cbn [log]. rewrite <- !app_assoc. reflexivity. }
      rewrite (since_extend _ _ _ Hlog). rewrite !count_app, Has, Hac, Hhs, Hhc. cbn.
      split; [lia |]. split; [lia |]. split; [discriminate |].
      intros tok' rid' images [= <- <-] Htruthy. congruence.
  - assert (Ha : exists a,
               log (snd (attempt D None w1)) = log w1 ++ a /\ quiet a)
      by (unfold attempt; apply Hrefused).
    destruct Ha as (a & Ha & Hqa). rewrite Ha in Hh.
    destruct (quiet_counts a Hqa) as (_ & _ & Has & _ & Hac).
    assert (Hlog : log (snd (try_finally (handled D (attempt D None)) (eff_ret tt) w1))
                   = log v ++ [Reserve model_id None] ++ a ++ h).
    { rewrite finally_log. unfold eff_ret at 1. cbn [snd]. rewrite Hh.
      subst w1. cbn [log]. rewrite <- !app_assoc. reflexivity. }
    rewrite (since_extend _ _ _ Hlog). rewrite !count_app, Has, Hac, Hhs, Hhc. cbn.
    split; [lia |]. split; [lia |]. split; [discriminate |].
    intros tok' rid' images [=].
Qed.

(** Any number of iterations: what holds of one holds of the run. *)
Lemma loop_tally (rounds : nat) :
  forall w : world M RID,
    exists new,
      log (snd (loop D rounds w)) = log w ++ new
      /\ (tokens_truthy (token_mgr D) -> reserved new = released new)
      /\ (count is_sync new <= count is_image_send new)%nat
      /\ (count is_sync new <= length (reserved new))%nat
      /\ (count is_collect new <= length (reserved new))%nat.
Proof.
  induction rounds as [| rounds IH]; intros w.
  { exists []. cbn. rewrite app_nil_r. repeat split; lia. }
  cbn [loop]. destruct (stop_event w).
  { exists []. cbn. rewrite app_nil_r. repeat split; lia. }
  destruct (iteration_tally w)
    as (new & syncs & images & batches & Hlog & Htally & Hle & Hsync & Hbatch).
  assert (Hbalanced : tokens_truthy (token_mgr D) ->
                      taken (fst (reserve_token_for_model (token_mgr D) model_id ∅ (mgr w)))
                      = given_back (fst (reserve_token_for_model (token_mgr D) model_id ∅
                                            (mgr w)))).
  { intros Htruthy.
    destruct (reserve_token_for_model (token_mgr D) model_id ∅ (mgr w))
      as [[[tok rid] |] m1] eqn:Hres; [| reflexivity].
    cbn. rewrite (Htruthy _ _ _ _ _ _ Hres). reflexivity. }
  unfold tally in Htally. injection Htally as Hres Hrel Hs Hi Hc.
  assert (Hone : exists new0,
             log (snd (iteration D w)) = log w ++ new0
             /\ (tokens_truthy (token_mgr D) -> reserved new0 = released new0)
             /\ (count is_sync new0 <= count is_image_send new0)%nat
             /\ (count is_sync new0 <= length (reserved new0))%nat
             /\ (count is_collect new0 <= length (reserved new0))%nat).
  { exists new. split; [exact Hlog |]. rewrite Hres, Hrel, Hs, Hi, Hc.
    repeat split; try lia. exact Hbalanced. }
  destruct (iteration D w) as [[[] | e] w1]; cbn [snd] in *; try exact Hone.
  destruct (IH w1) as (rest & Hrest & Hbal & H1 & H2 & H3).
  exists (new ++ rest). rewrite Hrest, Hlog, <- app_assoc. split; [reflexivity |].
  rewrite !reserved_app, !released_app, !count_app, length_app, Hres, Hrel, Hs, Hi, Hc.
  split; [| repeat split; lia].
  intros Htruthy. rewrite (Hbalanced Htruthy), (Hbal Htruthy). reflexivity.
Qed.

Lemma run_tally (rounds : nat) (w : world M RID) :
  exists new,
    log (snd (_run D rounds w)) = log w ++ new
    /\ (tokens_truthy (token_mgr D) -> reserved new = released new)
    /\ (count is_sync new <= count is_image_send new)%nat
    /\ (count is_sync new <= length (reserved new))%nat
    /\ (count is_collect new <= length (reserved new))%nat.
Proof.
  unfold _run. destruct (image_model_available D); cbn [negb].
  2:{ exists [Send (Error "Image model is not available." "model_not_supported")].
      unfold eff_bind.
      pose proof (send_log (Error "Image model is not available." "model_not_supported")
                    w) as Hsend.
      destruct (_send D (Error "Image model is not available." "model_not_supported") w)
        as [[ok | e] w1]; cbn [snd eff_ret] in *;
        (split; [exact Hsend |]); cbn; repeat split; lia. }
  set (w0 := mk_world (mgr w) (log w) (batches w) (sends w) (naps w) (stop_event w) 0).
  unfold eff_bind at 1.
  pose proof (send_log (Status "running") w0) as Hstart.
  destruct (_send D (Status "running") w0) as [[ok | e] w1]; cbn [snd] in *.
  2:{ exists [Send (Status "running")]. split; [exact Hstart |].
      cbn. repeat split; lia. }
  unfold eff_bind at 1.
  destruct (loop_tally rounds w1) as (new & Hloop & Hbal & H1 & H2 & H3).
  destruct (loop D rounds w1) as [[[] | e] w2]; cbn [snd] in *.
  2:{ exists ([Send (Status "running")] ++ new).
      rewrite Hloop, Hstart, <- app_assoc. split; [reflexivity |].
      rewrite !reserved_app, !released_app, !count_app. cbn.
      repeat split; try lia. exact Hbal. }
  unfold eff_bind.
  pose proof (send_log (Status "stopped") w2) as Hstop.
  exists ([Send (Status "running")] ++ new ++ [Send (Status "stopped")]).
  destruct (_send D (Status "stopped") w2) as [[ok2 | e] w3]; cbn [snd eff_ret] in *;
    rewrite Hstop, Hloop, Hstart, <- !app_assoc; (split; [reflexivity |]);
    rewrite !reserved_app, !released_app, !count_app; cbn;
    rewrite ?app_nil_r, ?Nat.add_0_r;
    (split; [exact Hbal | repeat split; lia]).
Qed.

(** X21: a run of the admin image stream over a manager that hands out
    non-empty tokens gives back every reservation it takes, in the order
    taken, however its iterations end: with images sent, with a batch
    that failed, with a socket that stopped taking messages, or with the
    task cancelled at any of its calls. *)
Theorem image_run_releases_every_reservation (rounds : nat) (w : world M RID) :
  tokens_truthy (token_mgr D) ->
  let new := since w (snd (_run D rounds w)) in
  reserved new = released new.
Proof.
  intros Htruthy new. subst new.
  destruct (run_tally rounds w) as (new & Hlog & Hbal & _).
  rewrite (since_extend _ _ _ Hlog). exact (Hbal Htruthy).
Qed.

(** X22: an iteration of the admin image stream asks for at most one
    batch of images and syncs the usage at most once.  It syncs exactly
    when the batch it collected held a valid image: for the token it
    reserved, after the batch and after an image was put on the socket,
    and before the reservation is released.  The image counts once it was
    valid, whether or not the socket took it: a failed send still syncs,
    and only an exception that is no [Exception] (a cancellation) leaving
    a send keeps a batch with a valid image from being synced.  An
    iteration without a token, with a failed batch or with a batch
    without a valid image syncs nothing.  Over a run, the syncs are at
    most the images put on the socket and at most the reservations, and
    so are the batches. *)
Theorem image_run_syncs_usage_only_after_images (rounds : nat) (w : world M RID) :
  (let new := since w (snd (_run D rounds w)) in
   (count is_sync new <= count is_image_send new)%nat
   /\ (count is_sync new <= length (reserved new))%nat
   /\ (count is_collect new <= length (reserved new))%nat)
  /\ forall v : world M RID,
      let got := fst (reserve_token_for_model (token_mgr D) model_id ∅ (mgr v)) in
      let new := since v (snd (iteration D v)) in
      (count is_collect new <= 1)%nat
      /\ (count is_sync new <= 1)%nat
      /\ (count is_sync new = 1%nat ->
          exists tok rid images before after,
            got = Some (tok, rid)
            /\ _collect_imagine_batch D (batches v) tok = Return images
            /\ existsb (is_valid_imagine_image_value D) images = true
            /\ new = before ++ SyncUsage tok model_id true true :: after
            /\ (1 <= count is_image_send before)%nat
            /\ count is_collect before = 1%nat
            /\ released after = [(tok, rid)])
      /\ (forall tok rid images,
            got = Some (tok, rid) -> truthy tok = true ->
            _collect_imagine_batch D (batches v) tok = Return images ->
            existsb (is_valid_imagine_image_value D) images = true ->
            (forall n p e, send_text D n p = Raise e -> is_Exception e = true) ->
            count is_sync new = 1%nat).
Proof.
  split; [| exact iteration_shape].
  intros new. subst new.
  destruct (run_tally rounds w) as (new & Hlog & _ & Hrest).
  rewrite (since_extend _ _ _ Hlog). exact Hrest.
Qed.

End ImagineFacts.

Section ImagineTests.

Import admin_imagine_ws.

(** A run of two rounds: the first batch holds a valid and an empty image,
    the second is cancelled. *)
Lemma image_run_releases_every_reservation_witness :
  let D :=
    mk_collaborators _ _ _DummyTokenManager.manager true
      (fun n _ => match n with
                  | O => Return ["aW1hZ2U="; EmptyString]
                  | _ => Raise CancelledError
                  end)
      truthy (fun _ _ => Return tt) (fun _ _ => Return tt) in
  let w := mk_world _DummyTokenManager.init [] 0 0 0 false 0 in
  let new := since w (snd (_run D 5 w)) in
  tokens_truthy (token_mgr D)
  /\ reserved new = released new
  /\ released new
     = [("token-a-long-1234567890", "req-1"); ("token-a-long-1234567890", "req-2")].
Proof.
  intros D w new.
  split; [exact dummy_tokens_truthy |].
  split; [| vm_compute; reflexivity].
  exact (image_run_releases_every_reservation D 5 w dummy_tokens_truthy).
Defined.

(** An iteration whose batch holds one valid image that the socket does
    not take: the usage is synced all the same, and the stop event is
    set. *)
Example failed_send_still_syncs :
  let D :=
    mk_collaborators _ _ _DummyTokenManager.manager true
      (fun _ _ => Return ["aW1hZ2U="])
      truthy (fun _ _ => Raise (OtherException "ConnectionClosed"))
      (fun _ _ => Return tt) in
  let w := mk_world _DummyTokenManager.init [] 0 0 0 false 0 in
  since w (snd (iteration D w))
  = [Reserve model_id (Some ("token-a-long-1234567890", "req-1"));
     Collect "token-a-long-1234567890";
     Send (Image "aW1hZ2U=" 1);
     SyncUsage "token-a-long-1234567890" model_id true true;
     Release "token-a-long-1234567890" "req-1"]
  /\ stop_event (snd (iteration D w)) = true.
Proof. vm_compute. split; reflexivity. Qed.

End ImagineTests.

(** ** The names of cached files *)

Section FileNameFacts.

Import files.

Lemma replace_removes (a b : ascii) (s : string) :
  a <> b -> occurs a (replace a b s) = false.
Proof.
  intros Hne. induction s as [| c rest IH]; [reflexivity |].
  cbn. rewrite IH, orb_false_r.
  destruct (Ascii.eqb_spec c a) as [-> | Hc]; apply Ascii.eqb_neq; congruence.
Qed.

Lemma replace_keeps_out (a b d : ascii) (s : string) :
  d <> b -> occurs d s = false -> occurs d (replace a b s) = false.
Proof.
  intros Hne. induction s as [| c rest IH]; [reflexivity |].
  cbn. intros Hout. apply orb_false_iff in Hout as [Hc Hrest].
  rewrite (IH Hrest), orb_false_r.
  destruct (Ascii.eqb c a); [apply Ascii.eqb_neq; congruence | exact Hc].
Qed.

Lemma lstrip_keeps_out (c d : ascii) (s : string) :
  occurs d s = false -> occurs d (lstrip c s) = false.
Proof.
  induction s as [| c' rest IH]; [reflexivity |].
  cbn [lstrip]. intros Hout.
  destruct (Ascii.eqb c' c); [| exact Hout].
  cbn in Hout. apply orb_false_iff in Hout as [_ Hrest]. exact (IH Hrest).
Qed.

Lemma replace_absent (a b : ascii) (s : string) :
  occurs a s = false -> replace a b s = s.
Proof.
  induction s as [| c rest IH]; [reflexivity |].
  cbn. intros Hout. apply orb_false_iff in Hout as [Hc Hrest].
  rewrite Hc, (IH Hrest). reflexivity.
Qed.

Lemma lstrip_absent (c : ascii) (s : string) :
  occurs c s = false -> lstrip c s = s.
Proof.
  destruct s as [| c' rest]; [reflexivity |].
  cbn. intros Hout. apply orb_false_iff in Hout as [Hc _].
  rewrite Hc. reflexivity.
Qed.

(** X23: the name under which a requested path is looked up in the cache
    holds no separator, neither a slash nor a backslash, whatever the
    request; flattening a flattened name changes nothing; and a path is
    served only under a name that is not empty, not [.] and not [..] and
    that resolves inside the cache directory. *)
Theorem cache_filename_is_flat (raw : string) :
  occurs SLASH (_cache_filename raw) = false
  /\ occurs BACKSLASH (_cache_filename raw) = false
  /\ _cache_filename (_cache_filename raw) = _cache_filename raw
  /\ forall inside name,
      _safe_cached_path inside raw = Some name ->
      name = _cache_filename raw
      /\ name <> EmptyString /\ name <> "."%string /\ name <> ".."%string
      /\ inside name = true.
Proof.
  assert (Hslash : occurs SLASH (_cache_filename raw) = false).
  { unfold _cache_filename. apply replace_removes. discriminate. }
  assert (Hback : occurs BACKSLASH (_cache_filename raw) = false).
  { unfold _cache_filename.
    apply replace_keeps_out; [discriminate |].
    apply lstrip_keeps_out, replace_removes. discriminate. }
  split; [exact Hslash |]. split; [exact Hback |]. split.
  - unfold _cache_filename at 1.
    rewrite (replace_absent BACKSLASH SLASH _ Hback).
    rewrite (lstrip_absent SLASH _ Hslash).
    apply replace_absent. exact Hslash.
  - intros inside name. unfold _safe_cached_path.
    destruct (truthy (_cache_filename raw)) eqn:Hname; [| discriminate].
    destruct (String.eqb_spec (_cache_filename raw) ".") as [Hdot | Hdot];
      [discriminate |].
    destruct (String.eqb_spec (_cache_filename raw) "..") as [Hup | Hup];
      [discriminate |].
    cbn [negb orb].
    destruct (inside (_cache_filename raw)) eqn:Hin; [| discriminate].
    intros [= <-]. repeat split; try assumption.
    intros Hempty. rewrite Hempty in Hname. discriminate.
Qed.

Lemma cache_filename_is_flat_witness :
  _safe_cached_path (fun _ => true) "..\..\secret.jpg" = Some "..-..-secret.jpg"%string
  /\ _cache_filename "/foo/bar.jpg" = "foo-bar.jpg"%string
  /\ _safe_cached_path (fun _ => true) "//.." = None.
Proof.
  destruct (cache_filename_is_flat "..\..\secret.jpg") as (_ & _ & _ & Hserved).
  split; [| split; reflexivity].
  destruct (_safe_cached_path (fun _ => true) "..\..\secret.jpg") as [name |] eqn:Hpath;
    [| vm_compute in Hpath; discriminate].
  destruct (Hserved _ _ Hpath) as (-> & _). reflexivity.
Defined.

End FileNameFacts.

(** ** The automatic ban *)

Section AutoBanFacts.

Import ResponseLoggerMiddleware.

Variable cfg : config.

Lemma serve_app (pre post : list request) (banned : gset string) :
  serve cfg (pre ++ post) banned
  = (fst (serve cfg pre banned) ++ fst (serve cfg post (snd (serve cfg pre banned))),
     snd (serve cfg post (snd (serve cfg pre banned)))).
Proof.
  revert banned. induction pre as [| r rest IH]; intros banned; cbn [app serve].
  - cbn [fst snd]. destruct (serve cfg post banned). reflexivity.
  - destruct (dispatch cfg r banned) as [answer banned1].
    rewrite IH. destruct (serve cfg rest banned1) as [answers banned2]. cbn [fst snd].
    destruct (serve cfg post banned2). reflexivity.
Qed.

(** What one request does to the set: nothing, or it adds the client,
    which then is no exempt address, is not empty, and asked for an
    unknown route. *)
Lemma dispatch_bans (r : request) (banned : gset string) :
  snd (dispatch cfg r banned) = banned
  \/ (snd (dispatch cfg r banned) = banned ∪ {[client_ip r]}
      /\ auto_ban_unknown_path cfg = true
      /\ (client_ip r ∉ auto_ban_exempt_ips cfg)
      /\ client_ip r <> EmptyString
      /\ known_route r = false).
Proof.
  unfold dispatch.
  destruct (_is_ip_banned (client_ip r) banned); [now left |].
  destruct (auto_ban_unknown_path cfg) eqn:Hon; [| now left].
  unfold _is_exempt_ip.
  destruct (bool_decide_reflect (client_ip r ∈ auto_ban_exempt_ips cfg))
    as [Hin | Hout]; [now left |].
  destruct (known_route r) eqn:Hknown; [now left |].
  cbn [andb negb snd]. unfold _ban_ip.
  destruct (truthy (client_ip r)) eqn:Hip; [| now left].
  cbn [negb]. destruct (bool_decide (client_ip r ∈ banned)); [now left |].
  right. repeat split; try assumption.
  intros Hempty. rewrite Hempty in Hip. discriminate.
Qed.

Lemma dispatch_blocks_banned (r : request) (banned : gset string) :
  client_ip r ∈ banned -> client_ip r <> EmptyString ->
  dispatch cfg r banned = (Forbidden "IP blocked", banned).
Proof.
  intros Hin Hip. unfold dispatch, _is_ip_banned.
  destruct (client_ip r) as [| c s] eqn:Hr; [contradiction |]. cbn [truthy negb].
  rewrite bool_decide_eq_true_2 by exact Hin. reflexivity.
Qed.

Lemma serve_blocks_banned (requests : list request) (banned : gset string)
    (ip : string) :
  ip ∈ banned -> ip <> EmptyString ->
  Forall (fun '(r, a) => client_ip r = ip -> is_forbidden a = true)
    (zip requests (fst (serve cfg requests banned)))
  /\ ip ∈ snd (serve cfg requests banned).
Proof.
  intros Hin Hip. revert banned Hin.
  induction requests as [| r rest IH]; intros banned Hin; cbn [serve].
  - split; [constructor | exact Hin].
  - assert (Hkeep : ip ∈ snd (dispatch cfg r banned)).
    { destruct (dispatch_bans r banned) as [-> | (-> & _)];
        [exact Hin | apply elem_of_union_l; exact Hin]. }
    assert (Hfirst : client_ip r = ip ->
                     is_forbidden (fst (dispatch cfg r banned)) = true).
    { intros <-. rewrite (dispatch_blocks_banned r banned Hin Hip). reflexivity. }
    destruct (dispatch cfg r banned) as [answer banned1]. cbn [fst snd] in *.
    destruct (IH banned1 Hkeep) as [Hrest Hfinal].
    destruct (serve cfg rest banned1) as [answers final]. cbn [fst snd zip zip_with] in *.
    split; [constructor; assumption | exact Hfinal].
Qed.

Lemma serve_bans (requests : list request) (banned : gset string) :
  length (fst (serve cfg requests banned)) = length requests
  /\ banned ⊆ snd (serve cfg requests banned)
  /\ forall ip,
      ip ∈ snd (serve cfg requests banned) -> ip ∉ banned ->
      auto_ban_unknown_path cfg = true
      /\ (ip ∉ auto_ban_exempt_ips cfg) /\ ip <> EmptyString
      /\ exists r, r ∈ requests /\ client_ip r = ip /\ known_route r = false.
Proof.
  revert banned. induction requests as [| r rest IH]; intros banned; cbn [serve].
  - split; [reflexivity |]. split; [reflexivity |]. intros ip Hin Hout. contradiction.
  - pose proof (dispatch_bans r banned) as Hstep.
    destruct (dispatch cfg r banned) as [answer banned1]. cbn [snd] in Hstep.
    destruct (IH banned1) as (Hlen & Hgrow & Hnew).
    destruct (serve cfg rest banned1) as [answers final]. cbn [fst snd length] in *.
    split; [now rewrite Hlen |]. split.
    + destruct Hstep as [-> | (-> & _)]; [exact Hgrow |].
      intros ip Hin. apply Hgrow, elem_of_union_l. exact Hin.
    + intros ip Hin Hout.
      destruct Hstep as [-> | (-> & Hon & Hexempt & Hip & Hknown)].
      * destruct (Hnew ip Hin Hout) as (H1 & H2 & H3 & r' & Hr' & Hrest).
        repeat split; try assumption. exists r'. split; [now right | exact Hrest].
      * destruct (decide (ip = client_ip r)) as [-> | Hother].
        -- repeat split; try assumption. exists r. split; [now left | now split].
        -- assert (Hout1 : ip ∉ banned ∪ {[client_ip r]}).
           { intros Hin1. apply elem_of_union in Hin1 as [? | Hin1]; [contradiction |].
             apply elem_of_singleton in Hin1. contradiction. }
           destruct (Hnew ip Hin Hout1) as (H1 & H2 & H3 & r' & Hr' & Hrest).
           repeat split; try assumption. exists r'. split; [now right | exact Hrest].
Qed.

(** X24: with the ban list kept in memory, the list only grows, and an
    address enters it only as the client of a request for an unknown
    route, made while the automatic ban was on; an exempt address and a
    request without client address never enter it.  Once a client that is
    not exempt has asked for an unknown route, every further request of
    that client is answered 403, also for the routes that exist. *)
Theorem unknown_route_bans_the_client_for_good (requests : list request)
    (banned : gset string) :
  length (fst (serve cfg requests banned)) = length requests
  /\ banned ⊆ snd (serve cfg requests banned)
  /\ (forall ip,
         ip ∈ snd (serve cfg requests banned) -> ip ∉ banned ->
         auto_ban_unknown_path cfg = true
         /\ (ip ∉ auto_ban_exempt_ips cfg) /\ ip <> EmptyString
         /\ exists r, r ∈ requests /\ client_ip r = ip /\ known_route r = false)
  /\ (forall pre r post,
         requests = pre ++ r :: post ->
         auto_ban_unknown_path cfg = true ->
         known_route r = false ->
         client_ip r ∉ auto_ban_exempt_ips cfg ->
         client_ip r <> EmptyString ->
         Forall (fun '(r', a) => client_ip r' = client_ip r -> is_forbidden a = true)
           (zip (r :: post) (drop (length pre) (fst (serve cfg requests banned))))).
Proof.
  destruct (serve_bans requests banned) as (Hlen & Hgrow & Hnew).
  split; [exact Hlen |]. split; [exact Hgrow |]. split; [exact Hnew |].
  intros pre r post -> Hon Hknown Hexempt Hip.
  rewrite serve_app. cbn [fst].
  destruct (serve_bans pre banned) as (Hlen1 & _ & _).
  rewrite <- Hlen1, drop_app_length.
  set (banned1 := snd (serve cfg pre banned)).
  cbn [serve].
  assert (Hstep : is_forbidden (fst (dispatch cfg r banned1)) = true
                  /\ client_ip r ∈ snd (dispatch cfg r banned1)).
  { unfold dispatch, _is_ip_banned, _is_exempt_ip, _ban_ip.
    destruct (client_ip r) as [| c s] eqn:Hr; [contradiction |]. cbn [truthy negb].
    rewrite <- Hr in *. rewrite Hon, Hknown.
    rewrite (bool_decide_eq_false_2 _ Hexempt). cbn [negb andb].
    destruct (bool_decide_reflect (client_ip r ∈ banned1)) as [Hin | Hout];
      cbn [fst snd is_forbidden]; split; try reflexivity; try assumption.
    apply elem_of_union_r, elem_of_singleton. reflexivity. }
  destruct (dispatch cfg r banned1) as [answer banned2]. cbn [fst snd] in Hstep.
  destruct Hstep as [Hanswer Hbanned].
  destruct (serve_blocks_banned post banned2 (client_ip r) Hbanned Hip) as [Hrest _].
  destruct (serve cfg post banned2) as [answers final]. cbn [fst zip zip_with] in *.
  constructor; [intros _; exact Hanswer | exact Hrest].
Qed.

End AutoBanFacts.

Section AutoBanTests.

Import ResponseLoggerMiddleware.

(** test_unknown_path_auto_bans_ip_and_blocks_next_request *)
Lemma unknown_route_bans_the_client_for_good_witness :
  let cfg := mk_config true {["127.0.0.1"; "::1"]} in
  let probe := mk_request "203.0.113.7" false in
  let health := mk_request "203.0.113.7" true in
  Forall (fun '(r', a) => client_ip r' = "203.0.113.7"%string -> is_forbidden a = true)
    (zip [probe; health] (fst (serve cfg [probe; health] ∅))).
Proof.
  intros cfg probe health.
  destruct (unknown_route_bans_the_client_for_good cfg [probe; health] ∅)
    as (_ & _ & _ & Hafter).
  apply (Hafter [] probe [health] eq_refl eq_refl eq_refl); [| discriminate].
  cbn. intros Hin. apply elem_of_union in Hin as [Hin | Hin];
    apply elem_of_singleton in Hin; discriminate.
Defined.

End AutoBanTests.

(** ** The limiter of failed logins *)

Section LoginLimitFacts.

Import auth.

Lemma after_later (c1 c2 t : Q) :
  (c1 <= c2)%Q -> after c1 t = false -> after c2 t = false.
Proof.
  unfold after. intros Hle Hold.
  apply negb_false_iff in Hold. apply Qle_bool_iff in Hold.
  apply negb_false_iff, Qle_bool_iff. lra.
Qed.

Lemma filter_after_twice (c1 c2 : Q) (l : list Q) :
  (c1 <= c2)%Q ->
  List.filter (after c2) (List.filter (after c1) l) = List.filter (after c2) l.
Proof.
  intros Hle. induction l as [| t rest IH]; [reflexivity |].
  cbn [List.filter]. destruct (after c1 t) eqn:Hkept.
  - cbn [List.filter]. rewrite IH. reflexivity.
  - rewrite (after_later c1 c2 t Hle Hkept). exact IH.
Qed.

Lemma check_stored (ip ip' : string) (now : Q) (st : gmap string (list Q)) :
  stored (snd (check_login_rate_limit ip now st)) ip'
  = if decide (ip' = ip)
    then List.filter (after (now - _LOGIN_WINDOW_SEC)%Q) (stored st ip)
    else stored st ip'.
Proof.
  unfold check_login_rate_limit, stored.
  destruct (st !! ip) as [[| t rest] |] eqn:Hip; cbn [snd].
  - destruct (decide (ip' = ip)) as [-> |]; [rewrite Hip |]; reflexivity.
  - assert (Hset : forall m : gmap string (list Q),
               default [] (<[ip := List.filter (after (now - _LOGIN_WINDOW_SEC)%Q) (t :: rest)]> m !! ip')
               = if decide (ip' = ip)
                 then List.filter (after (now - _LOGIN_WINDOW_SEC)%Q) (t :: rest)
                 else default [] (m !! ip')).
    { intros m. destruct (decide (ip' = ip)) as [-> | Hne].
      - rewrite lookup_insert_eq. reflexivity.
      - rewrite lookup_insert_ne by congruence. reflexivity. }
    destruct (_LOGIN_MAX_FAILURES <=? _)%nat; cbn [snd]; rewrite Hset; reflexivity.
  - destruct (decide (ip' = ip)) as [-> |]; [rewrite Hip |]; reflexivity.
Qed.

Lemma check_answer (ip : string) (now : Q) (st : gmap string (list Q)) :
  fst (check_login_rate_limit ip now st)
  = if (_LOGIN_MAX_FAILURES
        <=? length (List.filter (after (now - _LOGIN_WINDOW_SEC)%Q) (stored st ip)))%nat
    then inl (mk_HTTPException 429 "Too many login attempts. Please try again later.")
    else inr tt.
Proof.
  unfold check_login_rate_limit, stored.
  destruct (st !! ip) as [[| t rest] |] eqn:Hip; cbn [default]; try reflexivity.
  destruct (_LOGIN_MAX_FAILURES <=? _)%nat; reflexivity.
Qed.

Lemma record_stored (ip ip' : string) (now : Q) (st : gmap string (list Q)) :
  stored (record_login_failure ip now st) ip'
  = if decide (ip' = ip)
    then (if (_LOGIN_MAX_FAILURES * 2 <? length (stored st ip ++ [now]))%nat
          then List.filter (after (now - _LOGIN_WINDOW_SEC)%Q) (stored st ip ++ [now])
          else stored st ip ++ [now])
    else stored st ip'.
Proof.
  unfold record_login_failure, stored.
  assert (Hkept : default [] (match st !! ip with
                              | None => <[ip := []]> st
                              | Some _ => st
                              end !! ip) = default [] (st !! ip)).
  { destruct (st !! ip) eqn:Hip; [rewrite Hip | rewrite lookup_insert_eq]; reflexivity. }
  assert (Hother : ip' <> ip ->
                   match st !! ip with
                   | None => <[ip := []]> st
                   | Some _ => st
                   end !! ip' = st !! ip').
  { intros Hne. destruct (st !! ip); [reflexivity |].
    rewrite lookup_insert_ne by congruence. reflexivity. }
  rewrite Hkept.
  destruct (_LOGIN_MAX_FAILURES * 2 <? _)%nat;
    destruct (decide (ip' = ip)) as [-> | Hne];
    rewrite ?lookup_insert_eq; try reflexivity;
    rewrite ?lookup_insert_ne by congruence; rewrite (Hother Hne); reflexivity.
Qed.

Lemma failures_app (ip : string) (h1 h2 : list (Q * call)) :
  failures ip (h1 ++ h2) = failures ip h1 ++ failures ip h2.
Proof. unfold failures. apply omap_app. Qed.

Lemma keeps_later (st : gmap string (list Q)) (history : list (Q * call))
    (last now : Q) :
  (last <= now)%Q -> keeps st history last -> keeps st history now.
Proof. intros Hle Hkeeps ip c Hc. apply Hkeeps. lra. Qed.

Lemma step_keeps (st : gmap string (list Q)) (history : list (Q * call))
    (now : Q) (c : call) :
  keeps st history now -> keeps (step st (now, c)) (history ++ [(now, c)]) now.
Proof.
  intros Hkeeps ip' cut Hcut. rewrite failures_app.
  destruct c as [ip | ip]; cbn [step].
  - rewrite check_stored.
    change (failures ip' [(now, check ip)]) with (@nil Q). rewrite app_nil_r.
    destruct (decide (ip' = ip)) as [-> | Hne]; [| exact (Hkeeps ip' cut Hcut)].
    rewrite (filter_after_twice _ _ _ Hcut). exact (Hkeeps ip cut Hcut).
  - rewrite record_stored.
    destruct (decide (ip' = ip)) as [-> | Hne].
    + assert (Hown : failures ip [(now, record ip)] = [now]).
      { unfold failures. cbn. rewrite String.eqb_refl. reflexivity. }
      rewrite Hown.
      assert (Hall : List.filter (after cut) (stored st ip ++ [now])
                     = List.filter (after cut) (failures ip history ++ [now])).
      { rewrite !List.filter_app, (Hkeeps ip cut Hcut). reflexivity. }
      destruct (_LOGIN_MAX_FAILURES * 2 <? _)%nat; [| exact Hall].
      rewrite (filter_after_twice _ _ _ Hcut). exact Hall.
    + assert (Hnone : failures ip' [(now, record ip)] = []).
      { unfold failures. cbn.
        destruct (String.eqb_spec ip ip') as [-> | _]; [contradiction | reflexivity]. }
      rewrite Hnone, app_nil_r. exact (Hkeeps ip' cut Hcut).
Qed.

Lemma run_keeps (history : list (Q * call)) :
  forall (st : gmap string (list Q)) (before : list (Q * call)) (last : Q),
    keeps st before last ->
    ticking last history = true ->
    keeps (run history st) (before ++ history) (latest last history).
Proof.
  induction history as [| [now c] rest IH]; intros st before last Hkeeps Hclock.
  - rewrite app_nil_r. exact Hkeeps.
  - cbn [ticking] in Hclock. apply andb_true_iff in Hclock as [Hle Hrest].
    apply Qle_bool_iff in Hle.
    cbn [run fold_left latest].
    replace (before ++ (now, c) :: rest) with ((before ++ [(now, c)]) ++ rest)
      by (rewrite <- app_assoc; reflexivity).
    apply (IH (step st (now, c)) (before ++ [(now, c)]) now); [| exact Hrest].
    apply step_keeps, (keeps_later st before last now Hle Hkeeps).
Qed.

Lemma ticking_app (last : Q) (h1 h2 : list (Q * call)) :
  ticking last (h1 ++ h2) = ticking last h1 && ticking (latest last h1) h2.
Proof.
  revert last. induction h1 as [| [now c] rest IH]; intros last; [reflexivity |].
  cbn [app ticking latest]. rewrite IH, andb_assoc. reflexivity.
Qed.

(** X25: over any history of login checks and recorded failures, made
    under a clock that never goes back, starting from an empty record, a
    check answers 429 exactly when ten or more failures were recorded for
    that address within the last 300 seconds: neither the trimming that a
    check does nor the cut of a list grown over twenty loses a failure
    that still counts, and the failures of other addresses do not count. *)
Theorem login_limit_counts_recent_failures (start : Q)
    (history : list (Q * call)) (ip : string) (now : Q) :
  ticking start (history ++ [(now, check ip)]) = true ->
  fst (check_login_rate_limit ip now (run history ∅))
  = if (10 <=? recent ip now history)%nat
    then inl (mk_HTTPException 429 "Too many login attempts. Please try again later.")
    else inr tt.
Proof.
  intros Hclock. rewrite ticking_app in Hclock.
  apply andb_true_iff in Hclock as [Hhistory Hnow].
  cbn [ticking] in Hnow. rewrite andb_true_r in Hnow. apply Qle_bool_iff in Hnow.
  assert (Hstart : keeps ∅ [] start).
  { intros ip' c _. unfold stored. rewrite lookup_empty. reflexivity. }
  pose proof (run_keeps history ∅ [] start Hstart Hhistory) as Hkeeps.
  rewrite app_nil_l in Hkeeps.
  rewrite check_answer. unfold recent.
  rewrite (Hkeeps ip (now - _LOGIN_WINDOW_SEC)%Q) by lra.
  reflexivity.
Qed.

End LoginLimitFacts.

Section LoginLimitTests.

Import auth.

(** Twenty-one failures, eleven of them old: the list is cut at the
    twenty-first, and the check that follows counts the ten of the window. *)
Lemma login_limit_counts_recent_failures_witness :
  let old := map (fun n : nat => (inject_Z (Z.of_nat n), record "10.0.0.1")) (seq 0 11) in
  let new := map (fun n : nat => (inject_Z (Z.of_nat n), record "10.0.0.1")) (seq 400 10) in
  fst (check_login_rate_limit "10.0.0.1" 500 (run (old ++ new) ∅))
  = inl (mk_HTTPException 429 "Too many login attempts. Please try again later.")
  /\ fst (check_login_rate_limit "10.0.0.1" 701 (run (old ++ new) ∅)) = inr tt.
Proof.
  intros old new. split.
  - rewrite (login_limit_counts_recent_failures 0 (old ++ new) "10.0.0.1" 500);
      reflexivity.
  - rewrite (login_limit_counts_recent_failures 0 (old ++ new) "10.0.0.1" 701);
      reflexivity.
Defined.

End LoginLimitTests.

(** ** Fetching a remote resource *)

Section FetchFacts.

Import BaseService.

Context {IP : Type}.
Variable strip : string -> string.
Variable lower : string -> string.
Variable urlparse : string -> result parsed.
Variable urljoin : string -> string -> string.
Variable ip_address : string -> option IP.
Variable is_global : IP -> bool.
Variable getaddrinfo : string -> Z -> result (list (option string)).
Variable b64encode : string -> string.
Variable get : nat -> string -> get_reply.

#[local] Abbreviation validate allow :=
  (_validate_fetch_url strip lower urlparse ip_address is_global getaddrinfo allow).
#[local] Abbreviation chain' allow :=
  (chain strip lower urlparse urljoin ip_address is_global getaddrinfo allow get).
#[local] Abbreviation follow' allow :=
  (follow strip lower urlparse urljoin ip_address is_global getaddrinfo allow get).
#[local] Abbreviation public' :=
  (public strip lower urlparse ip_address is_global getaddrinfo).

(** What passes [_validate_fetch_url] comes back stripped; and it is a
    public URL, unless private fetches are allowed. *)
Lemma validated_is_public (url raw : string) :
  validate false url = Return raw -> raw = strip url /\ public' raw.
Proof.
  unfold _validate_fetch_url, public, scheme_of, host_of, addresses.
  destruct (truthy (strip url)); cbn [negb]; [| discriminate].
  destruct (urlparse (strip url)) as [p | e] eqn:Hparse; [| discriminate].
  destruct (bool_decide_reflect (scheme p ∈ ["http"; "https"])) as [Hscheme | _];
    cbn [negb]; [| discriminate].
  destruct (strip (default EmptyString (hostname p))) as [| c h] eqn:Hhost;
    cbn [truthy negb]; [discriminate |].
  destruct (String.eqb_spec (lower (String c h)) "localhost") as [_ | Hlocal];
    [discriminate |].
  assert (Hs : exists s, Some (scheme p) = Some s /\ (s = "http" \/ s = "https")).
  { exists (scheme p). split; [reflexivity |].
    apply elem_of_cons in Hscheme as [-> | Hscheme]; [now left |].
    apply list_elem_of_singleton in Hscheme as ->. now right. }
  assert (Hh : exists h', Some (String c h) = Some h' /\ h' <> EmptyString
                          /\ lower h' <> "localhost").
  { exists (String c h). repeat split; [discriminate | exact Hlocal]. }
  destruct (ip_address (String c h)) as [ip |] eqn:Hip.
  - unfold _is_allowed_ip. cbn [orb].
    destruct (is_global ip) eqn:Hglobal; cbn [negb]; [| discriminate].
    intros [= <-]. rewrite Hparse, Hhost, Hip.
    split; [reflexivity |]. split; [exact Hs |]. split; [exact Hh |].
    split; [discriminate | cbn; now rewrite Hglobal].
  - destruct (port p) as [pt | e] eqn:Hport; [| discriminate].
    destruct (getaddrinfo _ _) as [infos | e] eqn:Hinfo;
      [| destruct (is_Exception e); discriminate].
    destruct (resolved ip_address infos) as [| ip ips] eqn:Hres; [discriminate |].
    destruct (forallb _ (ip :: ips)) eqn:Hall; [| discriminate].
    intros [= <-]. rewrite Hparse, Hhost, Hip, Hport, Hinfo, Hres.
    split; [reflexivity |]. split; [exact Hs |]. split; [exact Hh |].
    split; [discriminate | exact Hall].
Qed.

Lemma chain_validated (allow : bool) (requests : list (string * get_reply)) :
  forall (k : nat) (current : string),
    (exists u0, validate allow u0 = Return current) ->
    chain' allow k current requests ->
    Forall (fun q => exists u0, validate allow u0 = Return (fst q)) requests.
Proof.
  induction requests as [| [u reply] rest IH]; intros k current Hok Hchain;
    [constructor |].
  cbn [chain] in Hchain. destruct Hchain as (-> & _ & Hrest).
  constructor; [exact Hok |].
  destruct rest as [| [next reply'] rest']; [constructor |].
  destruct Hrest as ((r & loc & _ & _ & _ & Hnext) & Hchain).
  apply (IH (S k) next); [| exact Hchain].
  exists (urljoin current loc). exact Hnext.
Qed.

(** The loop: what it adds to the requests made, and how it ends. *)
Lemma follow_spec (allow : bool) (n : nat) :
  forall (current : string) (last : option response)
         (log : list (string * get_reply)),
  exists new,
    snd (follow' allow n current last log) = log ++ new
    /\ (length new <= n)%nat
    /\ chain' allow (length log) current new
    /\ match fst (follow' allow n current last log) with
       | Raise _ => True
       | Return (current', resp) =>
           (n = O /\ new = [] /\ resp = last /\ current' = current)
           \/ (exists u r,
                  list.last new = Some (u, GetResponse r)
                  /\ resp = Some r
                  /\ (if is_redirect (status_code r)
                      then length new = n
                           /\ exists loc, location r = Some loc
                                          /\ validate allow (urljoin u loc) = Return current'
                      else current' = u))
       end.
Proof.
  induction n as [| n IH]; intros current last log; cbn [follow].
  - exists []. rewrite app_nil_r. cbn. repeat split; [lia |]. left. now repeat split.
  - set (reply := get (length log) current).
    assert (Hone : chain' allow (length log) current [(current, reply)]).
    { cbn. now repeat split. }
    destruct reply as [e | r] eqn:Hreply.
    { exists [(current, GetRaised e)]. cbn [fst snd length]. repeat split; try lia; auto. }
    destruct (is_redirect (status_code r)) eqn:Hredirect.
    2:{ exists [(current, GetResponse r)]. cbn [fst snd length].
        repeat split; try lia; auto.
        right. exists current, r. cbn [list.last]. rewrite Hredirect. now repeat split. }
    destruct (location r) as [[| c loc] |] eqn:Hloc;
      try (exists [(current, GetResponse r)]; cbn [fst snd length];
           repeat split; try lia; auto; fail).
    destruct (validate allow (urljoin current (String c loc))) as [next | e] eqn:Hnext.
    2:{ exists [(current, GetResponse r)]. cbn [fst snd length].
        repeat split; try lia; auto. }
    destruct (IH next (Some r) (log ++ [(current, GetResponse r)]))
      as (new & Hlog & Hlen & Hchain & Hend).
    exists ((current, GetResponse r) :: new).
    split; [rewrite Hlog, <- app_assoc; reflexivity |].
    split; [cbn [length]; lia |].
    rewrite length_app in Hchain. cbn [length] in Hchain.
    replace (length log + 1)%nat with (S (length log)) in Hchain by lia.
    split.
    + cbn [chain]. split; [reflexivity |]. split; [symmetry; exact Hreply |].
      destruct new as [| [u' reply'] rest]; [exact I |].
      pose proof Hchain as Hhead. cbn [chain] in Hhead. destruct Hhead as (-> & _).
      split; [| exact Hchain].
      exists r, (String c loc). now repeat split.
    + destruct (fst (follow' allow n next (Some r) (log ++ [(current, GetResponse r)])))
        as [[current' resp] | e]; [| exact I].
      right. destruct Hend as [(-> & -> & -> & ->) | (u & r' & Hlast & -> & Hkind)].
      * exists current, r. cbn [list.last length]. rewrite Hredirect.
        repeat split. exists (String c loc). split; [exact Hloc | exact Hnext].
      * exists u, r'.
        destruct new as [| q rest].
        { cbn in Hlast. discriminate. }
        split; [| split; [reflexivity |]].
        -- exact Hlast.
        -- destruct (is_redirect (status_code r')); [| exact Hkind].
           destruct Hkind as [Hfull Hnext']. split; [| exact Hnext'].
           cbn [length] in *. lia.
Qed.

(** X26: a fetch makes four requests at most.  The first asks for the URL
    given, stripped, once it has passed the validation; each further one
    follows a redirect, and asks for the location only after this has
    passed the same validation: unless private fetches are allowed, every
    URL requested names a host that is not [localhost] and is, or
    resolves to, global addresses only.  Whatever fails, also inside the
    validation or in the network, comes back as an [AppException], a
    cancellation apart.  What a fetch returns is the body of the last
    answer, whose status is below 400, and which is a redirect only when
    it is the fourth answer: then a fetch does not fail, it returns the
    body of that redirect. *)
Theorem fetch_validates_every_hop (allow : bool) (url : string) :
  let run := fetch strip lower urlparse urljoin ip_address is_global getaddrinfo
               b64encode allow get url in
  (length (snd run) <= 4)%nat
  /\ (snd run <> [] ->
      exists current, validate allow url = Return current
                      /\ chain' allow 0 current (snd run))
  /\ (allow = false -> Forall (fun q => public' (fst q)) (snd run))
  /\ match fst run with
     | Raise e => is_AppException e = true \/ is_Exception e = false
     | Return (filename, b64, mime) =>
         exists u r,
           list.last (snd run) = Some (u, GetResponse r)
           /\ status_code r < 400
           /\ b64 = b64encode (content r)
           /\ mime = hd EmptyString (split ";" (default DEFAULT_MIME (content_type r)))
           /\ (if is_redirect (status_code r)
               then length (snd run) = 4%nat
                    /\ exists loc next,
                         location r = Some loc
                         /\ validate allow (urljoin u loc) = Return next
                         /\ filename = filename_of next
               else filename = filename_of u)
     end.
Proof.
  intros run.
  assert (Hwrap : forall (e : exn) (log : list (string * get_reply)),
             match fst (if is_Exception e then
                          if is_AppException e then (@Raise (string * string * string) e, log)
                          else (Raise (UpstreamException
                                         ("Resource fetch failed: " ++ str_exn e)%string None),
                                log)
                        else (Raise e, log)) with
             | Return _ => False
             | Raise e' => is_AppException e' = true \/ is_Exception e' = false
             end
             /\ snd (if is_Exception e then
                       if is_AppException e then (@Raise (string * string * string) e, log)
                       else (Raise (UpstreamException
                                      ("Resource fetch failed: " ++ str_exn e)%string None),
                             log)
                     else (Raise e, log)) = log).
  { intros e log. destruct (is_Exception e) eqn:He; [| split; [right; exact He | reflexivity]].
    destruct (is_AppException e) eqn:Ha; split;
      try reflexivity; left; [exact Ha | reflexivity]. }
  subst run. unfold fetch, attempt.
  destruct (validate allow url) as [current |e] eqn:Hvalid.
  2:{ destruct (Hwrap e []) as [Hraise Hlog].
      destruct (if is_Exception e then _ else _) as [[r | e'] log'];
        cbn [fst snd] in *; [contradiction |]. subst log'.
      split; [cbn; lia |]. split; [intros Hne; now contradiction Hne |].
      split; [intros _; constructor | exact Hraise]. }
  destruct (follow_spec allow 4 current None []) as (new & Hlog & Hlen & Hchain & Hend).
  rewrite app_nil_l in Hlog. cbn [length] in Hchain.
  assert (Hpublic : allow = false -> Forall (fun q => public' (fst q)) new).
  { intros ->.
    assert (Hok : exists u0, validate false u0 = Return current)
      by (exists url; exact Hvalid).
    pose proof (chain_validated false new 0%nat current Hok Hchain) as Hall.
    eapply Forall_impl; [exact Hall |].
    intros q (u0 & Hq). exact (proj2 (validated_is_public u0 (fst q) Hq)). }
  destruct (follow' allow 4 current None []) as [[[current' resp] | e] log];
    cbn [fst snd] in *; subst log.
  2:{ destruct (Hwrap e new) as [Hraise Hlog].
      destruct (if is_Exception e then _ else _) as [[r | e'] log'];
        cbn [fst snd] in *; [contradiction |]. subst log'.
      split; [exact Hlen |]. split; [intros _; exists current; now split |].
      split; [exact Hpublic | exact Hraise]. }
  destruct Hend as [(Hzero & _) | (u & r & Hlast & -> & Hkind)]; [discriminate |].
  destruct (Z.leb_spec 400 (status_code r)) as [Hhigh | Hlow]; cbn [fst snd].
  { split; [exact Hlen |]. split; [intros _; exists current; now split |].
    split; [exact Hpublic |]. left. reflexivity. }
  split; [exact Hlen |]. split; [intros _; exists current; now split |].
  split; [exact Hpublic |].
  exists u, r.
  split; [exact Hlast |].
  split; [exact Hlow |]. split; [reflexivity |]. split; [reflexivity |].
  destruct (is_redirect (status_code r)).
  - destruct Hkind as (Hfull & loc & Hloc & Hnext). split; [exact Hfull |].
    exists loc, current'. now repeat split.
  - rewrite Hkind. reflexivity.
Qed.

End FetchFacts.

Section FetchTests.

Import BaseService.

(** test_fetch_allows_public_ip_and_returns_base64, with the body left as
    it is, and the two tests of rejected URLs. *)
Lemma fetch_validates_every_hop_witness :
  let resp := mk_response 200 None (Some "text/plain") "hello" in
  test_asset_fetch_ssrf.fetch (test_asset_fetch_ssrf._FakeSession resp)
    "https://1.1.1.1/file.txt"
  = (Return ("file.txt", "hello", "text/plain"),
     [("https://1.1.1.1/file.txt", GetResponse resp)])
  /\ Forall (fun q => public (fun s => s) (fun s => s) test_asset_fetch_ssrf.urlparse
                        test_asset_fetch_ssrf.ip_address test_asset_fetch_ssrf.is_global
                        test_asset_fetch_ssrf._fake_getaddrinfo (fst q))
       (snd (test_asset_fetch_ssrf.fetch (test_asset_fetch_ssrf._FakeSession resp)
               "https://1.1.1.1/file.txt"))
  /\ test_asset_fetch_ssrf.fetch test_asset_fetch_ssrf._NoNetworkSession
       "http://127.0.0.1/secret"
     = (Raise (ValidationException "URL host is not a public IP"), [])
  /\ test_asset_fetch_ssrf.fetch test_asset_fetch_ssrf._NoNetworkSession
       "http://example.internal/a.png"
     = (Raise (ValidationException "URL resolves to a non-public IP"), []).
Proof.
  intros resp. split; [reflexivity |]. split; [| split; reflexivity].
  exact (proj1 (proj2 (proj2
    (fetch_validates_every_hop (fun s => s) (fun s => s) test_asset_fetch_ssrf.urlparse
       (fun _ loc => loc) test_asset_fetch_ssrf.ip_address test_asset_fetch_ssrf.is_global
       test_asset_fetch_ssrf._fake_getaddrinfo (fun content => content)
       (test_asset_fetch_ssrf._FakeSession resp) false "https://1.1.1.1/file.txt")))
    eq_refl).
Defined.

End FetchTests.

(** ** The local cache: where a download is kept, and what a cleanup deletes *)

Section CachePathFacts.

Import files.

Lemma lstrip_occurs (c d : ascii) (s : string) :
  d <> c -> occurs d (lstrip c s) = occurs d s.
Proof.
  intros Hne. induction s as [| c' rest IH]; [reflexivity |].
  cbn [lstrip]. destruct (Ascii.eqb_spec c' c) as [-> | _]; [| reflexivity].
  rewrite IH. cbn [occurs].
  destruct (Ascii.eqb_spec c d) as [-> | _]; [contradiction | reflexivity].
Qed.

Lemma replace_occurs (a b d : ascii) (s : string) :
  d <> a -> d <> b -> occurs d (replace a b s) = occurs d s.
Proof.
  intros Ha Hb. induction s as [| c rest IH]; [reflexivity |].
  cbn [replace occurs]. rewrite IH. f_equal.
  destruct (Ascii.eqb_spec c a) as [-> | _]; [| reflexivity].
  destruct (Ascii.eqb_spec b d) as [-> | _]; [contradiction |].
  destruct (Ascii.eqb_spec a d) as [-> | _]; [contradiction | reflexivity].
Qed.

(** X27: the download service keeps the file of an asset path under the
    very name under which the files endpoint looks that path up, with or
    without a leading slash, provided the path holds no backslash; a path
    with a backslash is kept under a name that the endpoint never looks
    up. *)
Theorem cached_asset_is_served_under_its_path (file_path : string) :
  (occurs BACKSLASH file_path = false
   <-> _cache_filename file_path = DownloadService._cache_path file_path)
  /\ DownloadService._cache_path (String SLASH file_path)
     = DownloadService._cache_path file_path
  /\ _cache_filename (String SLASH file_path) = _cache_filename file_path.
Proof.
  split; [| split; reflexivity].
  unfold _cache_filename, DownloadService._cache_path. split.
  - intros Hnone. rewrite (replace_absent BACKSLASH SLASH _ Hnone). reflexivity.
  - intros Hsame.
    assert (Hleft : occurs BACKSLASH
                      (replace SLASH DASH
                         (lstrip SLASH (replace BACKSLASH SLASH file_path))) = false).
    { apply replace_keeps_out; [discriminate |].
      apply lstrip_keeps_out, replace_removes. discriminate. }
    rewrite Hsame in Hleft.
    rewrite replace_occurs, lstrip_occurs in Hleft by discriminate.
    exact Hleft.
Qed.

End CachePathFacts.

Section CleanupFacts.

Import DownloadService.

Variable unlink : entry -> bool.
Variable times_0_8 : Q -> Q.








End CleanupFacts.

Section CleanupTests.

Import DownloadService.


End CleanupTests.

(** ** Listing the assets of an account *)

Section ListingFacts.

Context {A : Type}.
Variable get : nat -> option string -> list_reply A.

Local Abbreviation iter_assets := (ListService.iter_assets get).
Local Abbreviation tokens_within := (ListService.tokens_within get).

(** Each request of a listing goes out once, and each but a failed last
    one yields a page. *)
Lemma iter_assets_requests (fuel : nat) :
  forall page_token seen_tokens requests pages,
    NoDup requests ->
    (forall t, Some t ∈ requests <-> t ∈ seen_tokens) ->
    (page_token = None -> requests = []) ->
    length pages = length requests ->
    let out := iter_assets fuel page_token seen_tokens requests pages in
    NoDup (snd (fst out))
    /\ (length (snd (fst out)) <= length requests + fuel)%nat
    /\ match snd out with
       | IterRaised _ => S (length (fst (fst out))) = length (snd (fst out))
       | _ => length (fst (fst out)) = length (snd (fst out))
       end.
Proof.
  induction fuel as [| fuel IH]; intros page_token seen_tokens requests pages
    Hdup Hseen Hfirst Hpages; cbn [iter_assets].
  { cbn. repeat split; [exact Hdup | lia | exact Hpages]. }
  destruct (match page_token with
            | Some t => bool_decide (t ∈ seen_tokens)
            | None => false
            end) eqn:Hrep.
  { cbn. repeat split; [exact Hdup | lia | exact Hpages]. }
  set (seen' := match page_token with
                | Some t => seen_tokens ∪ {[t]}
                | None => seen_tokens
                end).
  assert (Hdup' : NoDup (requests ++ [page_token])).
  { destruct page_token as [t |].
    - apply bool_decide_eq_false in Hrep.
      apply NoDup_app. split; [exact Hdup |]. split; [| apply NoDup_singleton].
      intros x Hx Hx'. apply list_elem_of_singleton in Hx'. subst x.
      apply Hseen in Hx. contradiction.
    - rewrite (Hfirst eq_refl). apply NoDup_singleton. }
  assert (Hseen' : forall t, Some t ∈ requests ++ [page_token] <-> t ∈ seen').
  { intros t'. subst seen'. rewrite elem_of_app, list_elem_of_singleton, Hseen.
    destruct page_token as [t |].
    - rewrite elem_of_union, elem_of_singleton.
      split; (intros [Hin | Heq]; [now left | right; congruence]).
    - split; [intros [Hin | Heq]; [exact Hin | discriminate] | intros Hin; now left]. }
  assert (Hlen : length (requests ++ [page_token]) = S (length requests))
    by (rewrite length_app; cbn; lia).
  assert (Hstop : forall e : exn,
             let out := (pages, (requests ++ [page_token])%list, IterRaised e) in
             NoDup (snd (fst out))
             /\ (length (snd (fst out)) <= length requests + S fuel)%nat
             /\ match snd out with
                | IterRaised _ => S (length (fst (fst out))) = length (snd (fst out))
                | _ => length (fst (fst out)) = length (snd (fst out))
                end).
  { intros e. cbn. rewrite Hlen. repeat split; [exact Hdup' | lia | lia]. }
  destruct (get (length requests) page_token) as [e | status_code json];
    [apply Hstop |].
  destruct (negb (status_code =? 200)); [apply Hstop |].
  destruct json as [[page_assets next] | e]; [| apply Hstop].
  assert (Hpages' : length (pages ++ [page_assets]) = length (requests ++ [page_token]))
    by (rewrite !length_app; cbn; lia).
  assert (Hdone : let out := ((pages ++ [page_assets])%list,
                              (requests ++ [page_token])%list, Finished) in
                  NoDup (snd (fst out))
                  /\ (length (snd (fst out)) <= length requests + S fuel)%nat
                  /\ match snd out with
                     | IterRaised _ =>
                         S (length (fst (fst out))) = length (snd (fst out))
                     | _ => length (fst (fst out)) = length (snd (fst out))
                     end).
  { cbn. rewrite Hpages', Hlen. repeat split; [exact Hdup' | lia]. }
  destruct next as [[| c t] |]; [exact Hdone | | exact Hdone].
  specialize (IH (Some (String c t)) seen' (requests ++ [page_token])
                (pages ++ [page_assets]) Hdup' Hseen').
  destruct IH as (IH1 & IH2 & IH3);
    [discriminate | exact Hpages' |].
  split; [exact IH1 |]. split; [rewrite Hlen in IH2; lia | exact IH3].
Qed.

Lemma difference_shrinks (T seen_tokens : gset string) (t : string) :
  t ∈ T -> t ∉ seen_tokens ->
  (size (T ∖ (seen_tokens ∪ {[t]})) < size (T ∖ seen_tokens))%nat.
Proof.
  intros HT Hnew. apply subset_size. split.
  - intros x Hx. apply elem_of_difference in Hx as [HxT Hx].
    apply elem_of_difference. split; [exact HxT |].
    intros Hseen. apply Hx, elem_of_union. now left.
  - intros Hback. assert (Ht : t ∈ T ∖ seen_tokens)
      by (apply elem_of_difference; split; assumption).
    apply Hback, elem_of_difference in Ht as [_ Ht].
    apply Ht, elem_of_union. right. now apply elem_of_singleton.
Qed.

(** A listing whose page tokens all lie in a finite set ends: a token
    that comes back a second time is not asked for again. *)
Lemma iter_assets_ends (T : gset string) :
  tokens_within T ->
  forall fuel page_token seen_tokens requests pages,
    (forall t, page_token = Some t -> t ∈ T) ->
    (size (T ∖ seen_tokens) + match page_token with Some _ => 1 | None => 2 end <= fuel)%nat ->
    snd (iter_assets fuel page_token seen_tokens requests pages) <> Unfinished.
Proof.
  intros Hwithin. induction fuel as [| fuel IH];
    intros page_token seen_tokens requests pages Hin Hfuel.
  { destruct page_token; lia. }
  cbn [iter_assets].
  destruct (match page_token with
            | Some t => bool_decide (t ∈ seen_tokens)
            | None => false
            end) eqn:Hrep; [discriminate |].
  destruct (get (length requests) page_token) as [e | status_code json] eqn:Hget;
    [discriminate |].
  destruct (negb (status_code =? 200)); [discriminate |].
  destruct json as [[page_assets next] | e]; [| discriminate].
  destruct next as [[| c t] |]; [discriminate | | discriminate].
  apply IH.
  - intros t' [= <-]. exact (Hwithin _ _ _ _ _ Hget).
  - destruct page_token as [t0 |]; [| lia].
    apply bool_decide_eq_false in Hrep.
    pose proof (difference_shrinks T seen_tokens t0 (Hin t0 eq_refl) Hrep). lia.
Qed.

(** The requests of a listing are at most one for each page token that
    was not seen yet, after the first. *)
Lemma iter_assets_bound (T : gset string) :
  tokens_within T ->
  forall fuel page_token seen_tokens requests pages,
    (forall t, page_token = Some t -> t ∈ T) ->
    (length (snd (fst (iter_assets fuel page_token seen_tokens requests pages)))
     <= length requests + size (T ∖ seen_tokens)
        + match page_token with Some _ => 0 | None => 1 end)%nat.
Proof.
  intros Hwithin. induction fuel as [| fuel IH];
    intros page_token seen_tokens requests pages Hin; cbn [iter_assets];
    [cbn; lia |].
  destruct (match page_token with
            | Some t => bool_decide (t ∈ seen_tokens)
            | None => false
            end) eqn:Hrep; [cbn; lia |].
  assert (Hroom : (S (length requests)
                   + size (T ∖ match page_token with
                               | Some t => seen_tokens ∪ {[t]}
                               | None => seen_tokens
                               end)
                   <= length requests + size (T ∖ seen_tokens)
                      + match page_token with Some _ => 0 | None => 1 end)%nat).
  { destruct page_token as [t0 |]; [| lia].
    apply bool_decide_eq_false in Hrep.
    pose proof (difference_shrinks T seen_tokens t0 (Hin t0 eq_refl) Hrep). lia. }
  assert (Hlen : length (requests ++ [page_token]) = S (length requests))
    by (rewrite length_app; cbn; lia).
  destruct (get (length requests) page_token) as [e | status_code json] eqn:Hget;
    [cbn; lia |].
  destruct (negb (status_code =? 200)); [cbn; lia |].
  destruct json as [[page_assets next] | e]; [| cbn; lia].
  destruct next as [[| c t] |]; [cbn; lia | | cbn; lia].
  etransitivity; [apply IH |].
  - intros t' [= <-]. exact (Hwithin _ _ _ _ _ Hget).
  - rewrite Hlen. lia.
Qed.

Lemma count_pages (pages : list (list A)) (total : nat) :
  foldl (fun total page => total + length page)%nat total pages
  = (total + length (concat pages))%nat.
Proof.
  revert total. induction pages as [| page rest IH]; intros total; cbn; [lia |].
  rewrite IH, length_app. lia.
Qed.

(** X29: a listing asks for the first page and then for each page token
    it is given, never twice for the same one: a token that comes back a
    second time ends the listing instead of being requested again.  So a
    listing whose page tokens all lie in a finite set [T] ends after at
    most [size T + 1] requests, however the endpoint strings its pages
    together; each request but a failed last one yields a page; and
    [count] returns the number of assets that [list] returns, and raises
    what it raises. *)
Theorem listing_ends_and_never_repeats_a_page (T : gset string) (fuel : nat) :
  tokens_within T ->
  (size T + 2 <= fuel)%nat ->
  let out := iter_assets fuel None ∅ [] [] in
  let pages := fst (fst out) in
  let requests := snd (fst out) in
  snd out <> Unfinished
  /\ NoDup requests
  /\ head requests = Some None
  /\ (length requests <= size T + 1)%nat
  /\ match snd out with
     | IterRaised _ => S (length pages) = length requests
     | _ => length pages = length requests
     end
  /\ match ListService.list get fuel with
     | Some (Return assets) =>
         assets = concat pages /\ ListService.count get fuel = Some (Return (length assets))
     | Some (Raise e) => ListService.count get fuel = Some (Raise e)
     | None => False
     end.
Proof.
  intros Hwithin Hfuel out pages requests.
  assert (Hends : forall n,
             (size T + 2 <= n)%nat ->
             snd (iter_assets n None ∅ [] []) <> Unfinished).
  { intros n Hn. apply (iter_assets_ends T Hwithin); [discriminate |].
    assert (Hle : (size (T ∖ ∅) <= size T)%nat).
    { apply subseteq_size. intros x Hx. now apply elem_of_difference in Hx as [Hx _]. }
    lia. }
  assert (Hshape : forall n,
             let o := iter_assets n None ∅ [] [] in
             NoDup (snd (fst o))
             /\ (length (snd (fst o)) <= n)%nat
             /\ match snd o with
                | IterRaised _ => S (length (fst (fst o))) = length (snd (fst o))
                | _ => length (fst (fst o)) = length (snd (fst o))
                end).
  { intros n.
    destruct (iter_assets_requests n None ∅ [] []) as (H1 & H2 & H3);
      [apply NoDup_nil_2 | | reflexivity | reflexivity |].
    - intros t. split; intros Hin; [inversion Hin | now apply not_elem_of_empty in Hin].
    - cbn [length] in H2. repeat split; [exact H1 | lia | exact H3]. }
  pose proof (Hends fuel Hfuel) as Hend.
  destruct (Hshape fuel) as (Hdup & _ & Hpages).
  assert (Hbound : (length (snd (fst (iter_assets fuel None ∅ [] []))) <= size T + 1)%nat).
  { etransitivity; [apply (iter_assets_bound T Hwithin); discriminate |].
    assert (Hle : (size (T ∖ ∅) <= size T)%nat).
    { apply subseteq_size. intros x Hx. now apply elem_of_difference in Hx as [Hx _]. }
    cbn [length]. lia. }
  fold out in Hend, Hdup, Hpages, Hbound.
  split; [exact Hend |]. split; [exact Hdup |]. split; [| split; [| split]].
  - subst requests out. destruct fuel as [| n]; [lia |]. cbn [iter_assets].
    cbn [length app].
    assert (Hhead : forall (ps : list (list A)) (rest : nat) tok seen,
               head (snd (fst (iter_assets rest tok seen [None] ps)))
               = Some None).
    { intros ps rest. revert ps. induction rest as [| rest IHr]; intros ps tok seen;
        cbn [iter_assets]; [reflexivity |].
      destruct (match tok with
                | Some t => bool_decide (t ∈ seen)
                | None => false
                end); [reflexivity |].
      assert (Hgen : forall (rs : list (option string)) ps' tok' seen' k,
                 head rs = Some None ->
                 head (snd (fst (iter_assets k tok' seen' rs ps'))) = Some None).
      { intros rs ps' tok' seen' k. revert rs ps' tok' seen'.
        induction k as [| k IHk]; intros rs ps' tok' seen' Hrs;
          cbn [iter_assets]; [exact Hrs |].
        destruct (match tok' with
                  | Some t => bool_decide (t ∈ seen')
                  | None => false
                  end); [exact Hrs |].
        assert (Hrs' : head (rs ++ [tok']) = Some None)
          by (destruct rs; [discriminate | exact Hrs]).
        destruct (get (length rs) tok') as [e | status_code json]; [exact Hrs' |].
        destruct (negb (status_code =? 200)); [exact Hrs' |].
        destruct json as [[page_assets next] | e]; [| exact Hrs'].
        destruct next as [[| c t] |]; [exact Hrs' | | exact Hrs'].
        apply IHk. exact Hrs'. }
      destruct (get (length [None]) tok) as [e | status_code json]; [reflexivity |].
      destruct (negb (status_code =? 200)); [reflexivity |].
      destruct json as [[page_assets next] | e]; [| reflexivity].
      destruct next as [[| c t] |]; [reflexivity | | reflexivity].
      apply Hgen. reflexivity. }
    destruct (get 0 None) as [e | status_code json]; [reflexivity |].
    destruct (negb (status_code =? 200)); [reflexivity |].
    destruct json as [[page_assets next] | e]; [| reflexivity].
    destruct next as [[| c t] |]; [reflexivity | | reflexivity].
    apply Hhead.
  - exact Hbound.
  - exact Hpages.
  - unfold ListService.list, ListService.count. fold out. subst pages.
    destruct out as [[ps rs] fin]. cbn [fst snd] in *.
    destruct fin as [| | e |]; try contradiction.
    + split; [reflexivity |]. rewrite count_pages. reflexivity.
    + split; [reflexivity |]. rewrite count_pages. reflexivity.
    + unfold ListService.wrapped. destruct (is_Exception e); [destruct (is_AppException e) |];
        reflexivity.
Qed.

End ListingFacts.

Section ListingTests.

(** An endpoint that answers every request after the first with the same
    page and the same page token: the listing takes that page once and
    stops when the token comes back. *)
Lemma listing_ends_and_never_repeats_a_page_witness :
  let get :=
    fun (n : nat) (page_token : option string) =>
      match page_token with
      | None => ListResponse 200 (Return (["a"; "b"], Some "p2"))
      | Some _ => ListResponse 200 (Return (["c"], Some "p2"))
      end in
  ListService.tokens_within get {["p2"]}
  /\ snd (fst (ListService.iter_assets get 3 None ∅ [] [])) = [None; Some "p2"]
  /\ ListService.list get 3 = Some (Return ["a"; "b"; "c"])
  /\ ListService.count get 3 = Some (Return 3%nat).
Proof.
  intros get.
  assert (Hwithin : ListService.tokens_within get {["p2"]}).
  { intros n param status_code page next. subst get. cbv beta.
    destruct param; intros [= _ _ <-]; now apply elem_of_singleton. }
  assert (Hfuel : (size ({["p2"]} : gset string) + 2 <= 3)%nat)
    by (rewrite size_singleton; lia).
  pose proof (listing_ends_and_never_repeats_a_page get {["p2"]} 3 Hwithin Hfuel)
    as (_ & _ & _ & _ & _ & Hlist).
  split; [exact Hwithin |]. split; [vm_compute; reflexivity |].
  assert (Hrun : ListService.list get 3 = Some (Return ["a"; "b"; "c"]))
    by (vm_compute; reflexivity).
  rewrite Hrun in Hlist. destruct Hlist as [_ Hcount].
  split; [exact Hrun | exact Hcount].
Defined.

End ListingTests.
